(** * Verification of the AST optimisation passes of [presentation.ipynb]

    The notebook defines four passes over Python's [ast] trees:
    [ConstantFolder], [StrengthReducer], [DeadBranchEliminator] (three
    [NodeTransformer] subclasses overriding one [visit_X] method each) and
    [DeadFunctionEliminator], which runs the read-only visitor
    [DeadFunctionIdentifier] over the tree, computes the functions that are
    unreachable in a call graph and deletes them with [FunctionEliminator].

    The development has two layers.
    - A functional layer: trees are values of the inductive types [expr],
      [stmt] and [py_module]; a pass maps a tree to the tree it returns (or to the
      exception it raises).
    - A store layer: nodes are objects in a heap and the traversal of
      [NodeTransformer.generic_visit] assigns the rewritten children back into
      the node it was given, as the Python code does. *)

From Stdlib Require Import ZArith Bool List Lia.
From Stdlib Require Import Floats.SpecFloat.
From stdpp Require Import base option list strings gmap sets relations.

Local Open Scope Z_scope.

(** ** Python values held by [Constant] nodes *)

(** Python floats are IEEE 754 binary64 numbers. *)
Definition prec : Z := 53.
Definition emax : Z := 1024.

(** The literals a [Constant] node of the notebook's programs can hold
    ([bytes], [complex] and [Ellipsis] are left out). *)
Inductive constant :=
  | CNone
  | CBool (b : bool)
  | CInt (z : Z)
  | CFloat (f : spec_float)
  | CStr (s : string).

(** The exceptions the passes and the arithmetic they call can raise;
    [NameError] and [Unsupported] are only raised by the reference evaluator
    [eval] below ([Unsupported] marks an expression outside its fragment). *)
Inductive exn :=
  | ZeroDivisionError
  | TypeError
  | OverflowError
  | NameError
  | Unsupported.

Inductive result (A : Type) :=
  | OK (a : A)
  | Raise (e : exn).
Arguments OK {A} a.
Arguments Raise {A} e.

#[global] Instance result_ret : MRet result := fun A a => OK a.
#[global] Instance result_bind : MBind result := fun A B f m =>
  match m with OK a => f a | Raise e => Raise e end.
#[global] Instance result_fmap : FMap result := fun A B f m =>
  match m with OK a => OK (f a) | Raise e => Raise e end.

(** *** Native arithmetic on constants *)

(** [bool] is a subclass of [int]; numbers are ints or floats. *)
Inductive number :=
  | NInt (z : Z)
  | NFloat (f : spec_float).

Definition as_number (v : constant) : option number :=
  match v with
  | CBool b => Some (NInt (Z.b2z b))
  | CInt z => Some (NInt z)
  | CFloat f => Some (NFloat f)
  | CNone | CStr _ => None
  end.

(** [float(z)]: round to nearest even, [OverflowError] beyond the float range. *)
Definition float_of_int (z : Z) : result spec_float :=
  match binary_normalize prec emax z 0 false with
  | S754_infinity _ => Raise OverflowError
  | f => OK f
  end.

Definition is_zero (f : spec_float) : bool :=
  match f with S754_zero _ => true | _ => false end.

(** Mixed arithmetic converts an int operand to a float first. *)
Definition to_float (x : number) : result spec_float :=
  match x with NInt z => float_of_int z | NFloat f => OK f end.

Definition float_binop (op : spec_float -> spec_float -> spec_float)
    (x y : number) : result spec_float :=
  x' ← to_float x; y' ← to_float y; OK (op x' y').

Definition num_binop (iop : Z -> Z -> Z)
    (fop : spec_float -> spec_float -> spec_float) (x y : number) : result constant :=
  match x, y with
  | NInt a, NInt b => OK (CInt (iop a b))
  | _, _ => CFloat <$> float_binop fop x y
  end.

(** [s * n] for a string [s]: [n] copies, none when [n <= 0]. *)
Fixpoint repeat_string (n : nat) (s : string) : string :=
  match n with
  | O => EmptyString
  | S n => String.append s (repeat_string n s)
  end.

(** [int / int]: the correctly rounded quotient of the two integers. *)
Definition int_truediv (a b : Z) : result spec_float :=
  if b =? 0 then Raise ZeroDivisionError
  else
    let negate := xorb (a <? 0) (b <? 0) in
    if a =? 0 then OK (S754_zero negate)
    else
      let '(mz, ez, lz) := SFdiv_core_binary prec emax (Z.abs a) 0 (Z.abs b) 0 in
      match binary_round_aux prec emax negate mz ez lz with
      | S754_infinity _ => Raise OverflowError
      | f => OK f
      end.

(** [left + right] *)
Definition py_add (left right : constant) : result constant :=
  match left, right with
  | CStr a, CStr b => OK (CStr (String.append a b))
  | _, _ =>
      match as_number left, as_number right with
      | Some x, Some y => num_binop Z.add (SFadd prec emax) x y
      | _, _ => Raise TypeError
      end
  end.

(** [left - right] *)
Definition py_sub (left right : constant) : result constant :=
  match as_number left, as_number right with
  | Some x, Some y => num_binop Z.sub (SFsub prec emax) x y
  | _, _ => Raise TypeError
  end.

(** The largest index, [sys.maxsize] of a 64-bit interpreter. *)
Definition index_max : Z := 2 ^ 63 - 1.

(** [s * n] for a string [s] and an int [n]: the count has to fit an index
    and so has the length of the result, else [OverflowError] is raised.
    (A result that fits an index and not the memory of the machine is beyond
    the model.) *)
Definition py_repeat (s : string) (n : Z) : result constant :=
  if (n <? - index_max - 1) || (index_max <? n) then Raise OverflowError
  else if (1 <? n) && (index_max / n <? Z.of_nat (String.length s)) then
    Raise OverflowError
  else OK (CStr (repeat_string (Z.to_nat n) s)).

(** [left * right]: numbers, or a string repeated by an int. *)
Definition py_mul (left right : constant) : result constant :=
  match left, right, as_number left, as_number right with
  | CStr s, _, _, Some (NInt n) | _, CStr s, Some (NInt n), _ => py_repeat s n
  | _, _, Some x, Some y => num_binop Z.mul (SFmul prec emax) x y
  | _, _, _, _ => Raise TypeError
  end.

(** [left / right]: true division, the result is always a float. *)
Definition py_truediv (left right : constant) : result constant :=
  match as_number left, as_number right with
  | Some (NInt a), Some (NInt b) => CFloat <$> int_truediv a b
  | Some x, Some y =>
      a ← to_float x; b ← to_float y;
      if is_zero b then Raise ZeroDivisionError else OK (CFloat (SFdiv prec emax a b))
  | _, _ => Raise TypeError
  end.

(** Truth value testing: [bool(v)]. *)
Definition truthy (v : constant) : bool :=
  match v with
  | CNone => false
  | CBool b => b
  | CInt z => negb (z =? 0)
  | CFloat f => negb (is_zero f)
  | CStr s => negb (String.eqb s EmptyString)
  end.

(** [left and right], [left or right] on two values already computed. *)
Definition py_and (left right : constant) : result constant :=
  OK (if truthy left then right else left).
Definition py_or (left right : constant) : result constant :=
  OK (if truthy left then left else right).

(** [v == n] for an integer literal [n], as a literal pattern of a [match]
    statement compares: ints, bools and floats compare by numeric value. *)
Definition float_eq_int (f : spec_float) (n : Z) : bool :=
  match f with
  | S754_zero _ => n =? 0
  | S754_finite s m e =>
      let v := if s then Z.neg m else Z.pos m in
      if 0 <=? e then v * 2 ^ e =? n else v =? n * 2 ^ (- e)
  | S754_infinity _ | S754_nan => false
  end.

Definition py_eq_int (v : constant) (n : Z) : bool :=
  match v with
  | CBool b => Z.b2z b =? n
  | CInt z => z =? n
  | CFloat f => float_eq_int f n
  | CNone | CStr _ => false
  end.

(** [x % y] and [x & y] on ints (and bools); [-x] on numbers.  Float modulo
    and string formatting are beyond the evaluator's fragment. *)
Definition py_mod (left right : constant) : result constant :=
  match left with
  | CStr _ => Raise Unsupported
  | _ =>
      match as_number left, as_number right with
      | Some (NInt a), Some (NInt b) =>
          if b =? 0 then Raise ZeroDivisionError else OK (CInt (a mod b))
      | Some _, Some _ => Raise Unsupported
      | _, _ => Raise TypeError
      end
  end.

Definition py_bitand (left right : constant) : result constant :=
  match left, right with
  | CBool a, CBool b => OK (CBool (a && b))
  | _, _ =>
      match as_number left, as_number right with
      | Some (NInt a), Some (NInt b) => OK (CInt (Z.land a b))
      | _, _ => Raise TypeError
      end
  end.

Definition py_neg (v : constant) : result constant :=
  match as_number v with
  | Some (NInt z) => OK (CInt (- z))
  | Some (NFloat f) => OK (CFloat (SFopp f))
  | None => Raise TypeError
  end.

(** ** Abstract syntax: the fragment of Python's [ast] the notebook uses *)

(** Operator nodes.  [And] and [Or] are [boolop] classes: [parse] never puts
    them in a [BinOp], but [ConstantFolder] matches them there and a tree
    built by hand can hold them. *)
Inductive operator :=
  | Add | Sub | Mult | MatMult | Div | Mod | Pow | LShift | RShift
  | BitOr | BitXor | BitAnd | FloorDiv | And | Or.

Inductive unaryop := Invert | Not | UAdd | USub.

Module cmpop.
Inductive t := Eq | NotEq | Lt | LtE | Gt | GtE | Is | IsNot | In | NotIn.
End cmpop.

Inductive expr_context := Load | Store | Del.

#[local] Unset Elimination Schemes.

Inductive expr :=
  | BinOp (left : expr) (op : operator) (right : expr)
  | UnaryOp (op : unaryop) (operand : expr)
  | Compare (left : expr) (ops : list cmpop.t) (comparators : list expr)
  | Call (func : expr) (args : list expr)
  | Attribute (value : expr) (attr : string) (ctx : expr_context)
  | Constant (value : constant)
  | Name (id : string) (ctx : expr_context).

(** Statements: function definitions without parameters or decorators, as in
    every program of the notebook. *)
Inductive stmt :=
  | FunctionDef (name : string) (body : list stmt)
  | Return (value : option expr)
  | Assign (targets : list expr) (value : expr)
  | If (test : expr) (body orelse : list stmt)
  | Expr (value : expr).

#[local] Set Elimination Schemes.

(** The root [Module] node returned by [parse]. *)
Inductive py_module :=
  | PyModule (body : list stmt).

(** ** [NodeTransformer]: the functional layer *)

(** The transformer classes of the notebook. *)
Inductive transformer :=
  | ConstantFolder
  | StrengthReducer
  | DeadBranchEliminator
  | FunctionEliminator (fns : gset string).

(** [ConstantFolder.visit_BinOp] after its call of [generic_visit]: the
    [match] on [(node.left, node.op, node.right)]. *)
Definition ConstantFolder_visit_BinOp (left : expr) (op : operator) (right : expr)
    : result expr :=
  match left, op, right with
  | Constant l, Add, Constant r => Constant <$> py_add l r
  | Constant l, Sub, Constant r => Constant <$> py_sub l r
  | Constant l, Mult, Constant r => Constant <$> py_mul l r
  | Constant l, Div, Constant r => Constant <$> py_truediv l r
  | Constant l, And, Constant r => Constant <$> py_and l r
  | Constant l, Or, Constant r => Constant <$> py_or l r
  | _, _, _ => OK (BinOp left op right)
  end.

(** The class pattern [Constant(n)] with an integer literal [n]. *)
Definition is_Constant (n : Z) (node : expr) : bool :=
  match node with
  | Constant v => py_eq_int v n
  | _ => false
  end.

Definition operator_eqb (a b : operator) : bool :=
  match a, b with
  | Add, Add | Sub, Sub | Mult, Mult | MatMult, MatMult | Div, Div | Mod, Mod
  | Pow, Pow | LShift, LShift | RShift, RShift | BitOr, BitOr | BitXor, BitXor
  | BitAnd, BitAnd | FloorDiv, FloorDiv | And, And | Or, Or => true
  | _, _ => false
  end.

(** [StrengthReducer.visit_BinOp] after its call of [generic_visit]: the
    cases of the [match] in the order they are written. *)
Definition StrengthReducer_visit_BinOp (left : expr) (op : operator) (right : expr)
    : expr :=
  if operator_eqb op Mod && is_Constant 2 right then
    BinOp left BitAnd (Constant (CInt 1))
  else if operator_eqb op Add && is_Constant 0 left then right
  else if operator_eqb op Add && is_Constant 0 right then left
  else if operator_eqb op Mult && is_Constant 1 left then right
  else if operator_eqb op Mult && is_Constant 1 right then left
  else if operator_eqb op Sub && is_Constant 0 left then UnaryOp USub right
  else BinOp left op right.

(** [DeadBranchEliminator.visit_If] after its call of [generic_visit]: the
    value returned is a list of statements ([node.body] or [node.orelse]) or
    the node itself, here the one-element list the enclosing list receives. *)
Definition DeadBranchEliminator_visit_If (test : expr) (body orelse : list stmt)
    : list stmt :=
  match test with
  | Constant condition => if truthy condition then body else orelse
  | _ => [If test body orelse]
  end.

(** Method lookup of [NodeTransformer.visit]: the class's own [visit_BinOp]
    or [visit_If] where it has one, else [generic_visit], which returns the
    node.  The arguments are the fields after [generic_visit]. *)
Definition visit_BinOp (self : transformer) (left : expr) (op : operator) (right : expr)
    : result expr :=
  match self with
  | ConstantFolder => ConstantFolder_visit_BinOp left op right
  | StrengthReducer => OK (StrengthReducer_visit_BinOp left op right)
  | _ => OK (BinOp left op right)
  end.

Definition visit_If (self : transformer) (test : expr) (body orelse : list stmt)
    : list stmt :=
  match self with
  | DeadBranchEliminator => DeadBranchEliminator_visit_If test body orelse
  | _ => [If test body orelse]
  end.

(** [FunctionEliminator.visit_FunctionDef] returns [None] for a name in
    [self.fns]; the other classes have no [visit_FunctionDef]. *)
Definition drops_FunctionDef (self : transformer) (name : string) : bool :=
  match self with
  | FunctionEliminator fns => bool_decide (name ∈ fns)
  | _ => false
  end.

(** The loop of [generic_visit] over a list field: every element is visited
    and the values returned are collected in [new_values]; [None] adds
    nothing, a list is spliced in, a node is appended. *)
Definition visit_list {A} (visit : A -> result (list A)) : list A -> result (list A) :=
  fix go (old_value : list A) : result (list A) :=
    match old_value with
    | [] => OK []
    | value :: rest =>
        value' ← visit value; new_values ← go rest; OK (value' ++ new_values)
    end.

(** [self.visit(node)] on an expression. *)
Fixpoint visit_expr (self : transformer) (node : expr) {struct node} : result expr :=
  match node with
  | BinOp node_left op node_right =>
      left' ← visit_expr self node_left;
      right' ← visit_expr self node_right;
      visit_BinOp self left' op right'
  | UnaryOp op operand =>
      operand' ← visit_expr self operand; OK (UnaryOp op operand')
  | Compare node_left ops comparators =>
      left' ← visit_expr self node_left;
      comparators' ← mapM (visit_expr self) comparators;
      OK (Compare left' ops comparators')
  | Call func args =>
      func' ← visit_expr self func;
      args' ← mapM (visit_expr self) args;
      OK (Call func' args')
  | Attribute value attr ctx =>
      value' ← visit_expr self value; OK (Attribute value' attr ctx)
  | Constant _ | Name _ _ => OK node
  end.

(** [self.visit(node)] on a statement, as the list the enclosing list field
    receives. *)
Fixpoint visit_stmt (self : transformer) (node : stmt) {struct node}
    : result (list stmt) :=
  match node with
  | FunctionDef name body =>
      if drops_FunctionDef self name then OK []
      else
        body' ← visit_list (visit_stmt self) body;
        OK [FunctionDef name body']
  | Return value =>
      match value with
      | Some value => value' ← visit_expr self value; OK [Return (Some value')]
      | None => OK [Return None]
      end
  | Assign targets value =>
      targets' ← mapM (visit_expr self) targets;
      value' ← visit_expr self value;
      OK [Assign targets' value']
  | If test body orelse =>
      test' ← visit_expr self test;
      body' ← visit_list (visit_stmt self) body;
      orelse' ← visit_list (visit_stmt self) orelse;
      OK (visit_If self test' body' orelse')
  | Expr value =>
      value' ← visit_expr self value; OK [Expr value']
  end.

Definition visit_stmts (self : transformer) : list stmt -> result (list stmt) :=
  visit_list (visit_stmt self).

(** [self.visit(tree)] on the [Module] returned by [parse]. *)
Definition visit (self : transformer) (tree : py_module) : result py_module :=
  match tree with
  | PyModule body => body' ← visit_stmts self body; OK (PyModule body')
  end.

(** ** The call graph: [networkx.DiGraph] *)

Record DiGraph := {
  nodes : gset string;
  edges : gset (string * string);
}.

Definition empty_graph : DiGraph := {| nodes := ∅; edges := ∅ |}.

Definition add_node (n : string) (G : DiGraph) : DiGraph :=
  {| nodes := {[n]} ∪ nodes G; edges := edges G |}.

(** [add_edge] also adds both end points to the nodes. *)
Definition add_edge (u v : string) (G : DiGraph) : DiGraph :=
  {| nodes := {[u; v]} ∪ nodes G; edges := {[(u, v)]} ∪ edges G |}.

(** The nodes with an edge from a node of [S]. *)
Definition successors (G : DiGraph) (S : gset string) : gset string :=
  set_map snd (filter (fun e => e.1 ∈ S) (edges G)).

(** Breadth-first search: [seen] grows by its successors, at most once per
    node of the graph. *)
Fixpoint search (fuel : nat) (G : DiGraph) (seen : gset string) : gset string :=
  match fuel with
  | O => seen
  | S fuel => search fuel G (seen ∪ successors G seen)
  end.

(** [nx.descendants(G, source)]: the nodes reachable from [source], without
    [source] itself. *)
Definition descendants (G : DiGraph) (source : string) : gset string :=
  search (size (nodes G)) G {[source]} ∖ {[source]}.

(** ** [DeadFunctionIdentifier] *)

(** [self.current_fn]: the literal ["start"] or the enclosing [FunctionDef],
    of which only the name is read. *)
Inductive cursor :=
  | AtStart
  | InFunctionDef (name : string).

(** The pattern [FunctionDef(name=current_fn) | (str() as current_fn)]. *)
Definition cursor_name (c : cursor) : string :=
  match c with
  | AtStart => "start"
  | InFunctionDef name => name
  end.

(** [visit] on an expression: [visit_Call] adds an edge when [node.func] is
    a [Name] and goes on into the children; the other nodes are visited by
    [generic_visit].  [current_fn] changes only around a function body, so
    it is a parameter; the graph is the state. *)
Fixpoint DeadFunctionIdentifier_visit_expr (current_fn : cursor) (node : expr) (graph : DiGraph)
    {struct node} : DiGraph :=
  match node with
  | Call func args =>
      let graph :=
        match func with
        | Name target _ => add_edge (cursor_name current_fn) target graph
        | _ => graph
        end in
      let graph := DeadFunctionIdentifier_visit_expr current_fn func graph in
      fold_left (fun g arg => DeadFunctionIdentifier_visit_expr current_fn arg g) args graph
  | BinOp node_left _ node_right =>
      DeadFunctionIdentifier_visit_expr current_fn node_right (DeadFunctionIdentifier_visit_expr current_fn node_left graph)
  | UnaryOp _ operand => DeadFunctionIdentifier_visit_expr current_fn operand graph
  | Compare node_left _ comparators =>
      fold_left (fun g c => DeadFunctionIdentifier_visit_expr current_fn c g) comparators
        (DeadFunctionIdentifier_visit_expr current_fn node_left graph)
  | Attribute value _ _ => DeadFunctionIdentifier_visit_expr current_fn value graph
  | Constant _ | Name _ _ => graph
  end.

(** [visit] on a statement: [visit_FunctionDef] adds the name as a node and
    visits the body with the function as [current_fn], restoring the former
    one afterwards. *)
Fixpoint DeadFunctionIdentifier_visit_stmt (current_fn : cursor) (node : stmt) (graph : DiGraph)
    {struct node} : DiGraph :=
  match node with
  | FunctionDef name body =>
      let graph := add_node name graph in
      fold_left (fun g s => DeadFunctionIdentifier_visit_stmt (InFunctionDef name) s g) body graph
  | Return value =>
      match value with
      | Some value => DeadFunctionIdentifier_visit_expr current_fn value graph
      | None => graph
      end
  | Assign targets value =>
      DeadFunctionIdentifier_visit_expr current_fn value
        (fold_left (fun g t => DeadFunctionIdentifier_visit_expr current_fn t g) targets graph)
  | If test body orelse =>
      let graph := DeadFunctionIdentifier_visit_expr current_fn test graph in
      let graph := fold_left (fun g s => DeadFunctionIdentifier_visit_stmt current_fn s g) body graph in
      fold_left (fun g s => DeadFunctionIdentifier_visit_stmt current_fn s g) orelse graph
  | Expr value => DeadFunctionIdentifier_visit_expr current_fn value graph
  end.

Definition DeadFunctionIdentifier_visit_stmts (current_fn : cursor) (body : list stmt) (graph : DiGraph)
    : DiGraph :=
  fold_left (fun g s => DeadFunctionIdentifier_visit_stmt current_fn s g) body graph.

(** The graph after [self.visit(node)] on a fresh [DeadFunctionIdentifier],
    whose [__init__] adds the node ["start"]. *)
Definition call_graph (tree : py_module) : DiGraph :=
  match tree with
  | PyModule body => DeadFunctionIdentifier_visit_stmts AtStart body (add_node "start" empty_graph)
  end.

(** [DeadFunctionIdentifier.get_unreachable] (the drawing is left out). *)
Definition get_unreachable (tree : py_module) : gset string :=
  let graph := call_graph tree in
  let reachable := descendants graph "start" ∪ {["start"]} in
  nodes graph ∖ reachable.

(** [DeadFunctionEliminator.visit] *)
Definition DeadFunctionEliminator_visit (node : py_module) : result py_module :=
  let unreachable_fns := get_unreachable node in
  visit (FunctionEliminator unreachable_fns) node.

(** ** Reference semantics of expressions *)

(** The value of [left op right] for two computed operands. *)
Definition binop_eval (op : operator) (left right : constant) : result constant :=
  match op with
  | Add => py_add left right
  | Sub => py_sub left right
  | Mult => py_mul left right
  | Div => py_truediv left right
  | Mod => py_mod left right
  | BitAnd => py_bitand left right
  | And => py_and left right
  | Or => py_or left right
  | _ => Raise Unsupported
  end.

(** Evaluation of an expression in an environment of variables: constants,
    names, binary operations and negation. *)
Fixpoint eval (env : gmap string constant) (node : expr) : result constant :=
  match node with
  | Constant value => OK value
  | Name id _ =>
      match env !! id with
      | Some value => OK value
      | None => Raise NameError
      end
  | BinOp node_left op node_right =>
      l ← eval env node_left; r ← eval env node_right; binop_eval op l r
  | UnaryOp USub operand => v ← eval env operand; py_neg v
  | _ => Raise Unsupported
  end.

(** ** Vocabulary of the statements proved below *)

(** The operators [ConstantFolder] has a case for. *)
Definition folds (op : operator) : bool :=
  match op with
  | Add | Sub | Mult | Div | And | Or => true
  | _ => false
  end.

(** A [BinOp] of two constants with an operator that is folded. *)
Definition redex (left : expr) (op : operator) (right : expr) : bool :=
  match left, right with
  | Constant _, Constant _ => folds op
  | _, _ => false
  end.

(** No [BinOp] of the tree is a redex. *)
Fixpoint folded (node : expr) : bool :=
  match node with
  | BinOp node_left op node_right =>
      folded node_left && folded node_right && negb (redex node_left op node_right)
  | UnaryOp _ operand => folded operand
  | Compare node_left _ comparators => folded node_left && forallb folded comparators
  | Call func args => folded func && forallb folded args
  | Attribute value _ _ => folded value
  | Constant _ | Name _ _ => true
  end.

Fixpoint folded_stmt (node : stmt) : bool :=
  match node with
  | FunctionDef _ body => forallb folded_stmt body
  | Return value => from_option folded true value
  | Assign targets value => forallb folded targets && folded value
  | If test body orelse =>
      folded test && forallb folded_stmt body && forallb folded_stmt orelse
  | Expr value => folded value
  end.


(** The names of all the [FunctionDef] nodes of a statement, nested ones
    included. *)
Fixpoint FunctionDef_names (node : stmt) : list string :=
  match node with
  | FunctionDef name body => name :: flat_map FunctionDef_names body
  | If _ body orelse => flat_map FunctionDef_names body ++ flat_map FunctionDef_names orelse
  | Return _ | Assign _ _ | Expr _ => []
  end.

Definition defined (tree : py_module) : list string :=
  match tree with PyModule body => flat_map FunctionDef_names body end.

(** A statement is a [FunctionDef] whose name is in [dead]. *)
Definition dead_def (dead : gset string) (node : stmt) : bool :=
  match node with
  | FunctionDef name _ => bool_decide (name ∈ dead)
  | _ => false
  end.

(** The rule of the specification for dead-function elimination: a
    [FunctionDef] whose name is in [dead] is deleted from its enclosing list,
    every other node is kept, with the rule applied to its children. *)
Fixpoint delete_dead (dead : gset string) (node : stmt) : list stmt :=
  match node with
  | FunctionDef name body =>
      if bool_decide (name ∈ dead) then []
      else [FunctionDef name (flat_map (delete_dead dead) body)]
  | If test body orelse =>
      [If test (flat_map (delete_dead dead) body) (flat_map (delete_dead dead) orelse)]
  | Return _ | Assign _ _ | Expr _ => [node]
  end.

(** No [FunctionDef] inside the statement ([FunctionDef]s occur at the top
    level of the module only when this holds of every function body and
    every other top-level statement). *)
Definition no_defs (node : stmt) : bool :=
  bool_decide (FunctionDef_names node = []).

Definition top_level_defs_only (tree : py_module) : bool :=
  match tree with
  | PyModule body =>
      forallb (fun s => match s with
                        | FunctionDef _ inner => forallb no_defs inner
                        | _ => no_defs s
                        end) body
  end.

(** The edges of the call graph of a module, as a relation. *)
Definition calls (tree : py_module) (caller callee : string) : Prop :=
  (caller, callee) ∈ edges (call_graph tree).

(** The call edges whose target is a defined function (or the entry). *)
Definition calls_defined (tree : py_module) (caller callee : string) : Prop :=
  calls tree caller callee ∧ (callee ∈ defined tree ∨ callee = "start").

(** No statement of the tree is an [If] whose test is a constant. *)
Fixpoint no_constant_If (node : stmt) : bool :=
  match node with
  | FunctionDef _ body => forallb no_constant_If body
  | If test body orelse =>
      match test with Constant _ => false | _ => true end
      && forallb no_constant_If body && forallb no_constant_If orelse
  | Return _ | Assign _ _ | Expr _ => true
  end.

(** The rule of the specification for dead-branch elimination, at every
    depth: an [If] whose test is a constant is replaced in its enclosing list
    by the statements of [body] when the constant is truthy and of [orelse]
    otherwise, the rule applied to them; every other statement is kept, with
    the rule applied to the lists it holds. *)
Fixpoint prune (node : stmt) : list stmt :=
  match node with
  | FunctionDef name body => [FunctionDef name (flat_map prune body)]
  | If test body orelse =>
      match test with
      | Constant condition =>
          if truthy condition then flat_map prune body
          else flat_map prune orelse
      | _ => [If test (flat_map prune body) (flat_map prune orelse)]
      end
  | Return _ | Assign _ _ | Expr _ => [node]
  end.

(** The strength-reduction rules read on the literal constants [0], [1] and
    [2] of the specification's data model (structural equality of nodes). *)
Definition literal_rules (left : expr) (op : operator) (right : expr) : expr :=
  match left, op, right with
  | x, Mod, Constant (CInt 2) => BinOp x BitAnd (Constant (CInt 1))
  | Constant (CInt 0), Add, e => e
  | e, Add, Constant (CInt 0) => e
  | Constant (CInt 1), Mult, e => e
  | e, Mult, Constant (CInt 1) => e
  | Constant (CInt 0), Sub, e => UnaryOp USub e
  | _, _, _ => BinOp left op right
  end.

(** An operand that is not a bool or float constant: such an operand
    compares equal to an integer literal only when it is that literal. *)
Definition plain (node : expr) : bool :=
  match node with
  | Constant (CBool _ | CFloat _) => false
  | _ => true
  end.

(** The edges of a graph as a relation; a graph is well formed when the end
    points of its edges are nodes, as [add_edge] ensures. *)
Definition edge (G : DiGraph) (a b : string) : Prop := (a, b) ∈ edges G.

Definition graph_wf (G : DiGraph) : Prop :=
  ∀ a b, edge G a b → a ∈ nodes G ∧ b ∈ nodes G.

(** [G'] has the nodes and edges of [G], and every further edge leaves one
    of [sources]. *)
Definition grows (sources : list string) (G G' : DiGraph) : Prop :=
  nodes G ⊆ nodes G'
  ∧ edges G ⊆ edges G'
  ∧ (graph_wf G → graph_wf G')
  ∧ (∀ a b, edge G' a b → edge G a b ∨ a ∈ sources).

(** ** Vocabulary of the further properties *)

(** A [BinOp] one of the cases of [StrengthReducer.visit_BinOp] matches. *)
Definition reducible (left : expr) (op : operator) (right : expr) : bool :=
  operator_eqb op Mod && is_Constant 2 right
  || operator_eqb op Add && (is_Constant 0 left || is_Constant 0 right)
  || operator_eqb op Mult && (is_Constant 1 left || is_Constant 1 right)
  || operator_eqb op Sub && is_Constant 0 left.

(** The nodes a class has a rule for. *)
Definition rewrites_BinOp (self : transformer) (left : expr) (op : operator)
    (right : expr) : bool :=
  match self with
  | ConstantFolder => redex left op right
  | StrengthReducer => reducible left op right
  | _ => false
  end.

Definition rewrites_If (self : transformer) (test : expr) : bool :=
  match self, test with
  | DeadBranchEliminator, Constant _ => true
  | _, _ => false
  end.

(** A tree in which the class has nothing to rewrite. *)
Fixpoint normal (self : transformer) (node : expr) : bool :=
  match node with
  | BinOp node_left op node_right =>
      normal self node_left && normal self node_right
      && negb (rewrites_BinOp self node_left op node_right)
  | UnaryOp _ operand => normal self operand
  | Compare node_left _ comparators =>
      normal self node_left && forallb (normal self) comparators
  | Call func args => normal self func && forallb (normal self) args
  | Attribute value _ _ => normal self value
  | Constant _ | Name _ _ => true
  end.

Fixpoint normal_stmt (self : transformer) (node : stmt) : bool :=
  match node with
  | FunctionDef name body =>
      negb (drops_FunctionDef self name) && forallb (normal_stmt self) body
  | Return value => from_option (normal self) true value
  | Assign targets value => forallb (normal self) targets && normal self value
  | If test body orelse =>
      normal self test && negb (rewrites_If self test)
      && forallb (normal_stmt self) body && forallb (normal_stmt self) orelse
  | Expr value => normal self value
  end.

Definition normal_module (self : transformer) (tree : py_module) : bool :=
  match tree with PyModule body => forallb (normal_stmt self) body end.

(** The number of expression and statement nodes of a tree. *)
Fixpoint count (node : expr) : nat :=
  match node with
  | BinOp node_left _ node_right => S (count node_left + count node_right)
  | UnaryOp _ operand => S (count operand)
  | Compare node_left _ comparators =>
      S (count node_left + sum_list_with count comparators)
  | Call func args => S (count func + sum_list_with count args)
  | Attribute value _ _ => S (count value)
  | Constant _ | Name _ _ => 1%nat
  end.

Fixpoint count_stmt (node : stmt) : nat :=
  match node with
  | FunctionDef _ body => S (sum_list_with count_stmt body)
  | Return value => S (from_option count 0%nat value)
  | Assign targets value => S (sum_list_with count targets + count value)
  | If test body orelse =>
      S (count test + sum_list_with count_stmt body
         + sum_list_with count_stmt orelse)
  | Expr value => S (count value)
  end.

Definition count_module (tree : py_module) : nat :=
  match tree with PyModule body => S (sum_list_with count_stmt body) end.

(** The node is a [Constant]. *)
Definition is_literal (node : expr) : bool :=
  match node with Constant _ => true | _ => false end.

(** Integer arithmetic: the operators that map ints to ints. *)
Definition int_operator (op : operator) : bool :=
  match op with
  | Add | Sub | Mult | Mod | BitAnd => true
  | _ => false
  end.

(** An expression over the integers: integer literals, variables bound to
    integers, [+ - * % &] and unary minus. *)
Fixpoint int_expr (env : gmap string constant) (node : expr) : bool :=
  match node with
  | Constant (CInt _) => true
  | Name id _ =>
      match env !! id with Some (CInt _) => true | _ => false end
  | BinOp node_left op node_right =>
      int_expr env node_left && int_expr env node_right && int_operator op
  | UnaryOp USub operand => int_expr env operand
  | _ => false
  end.

(** Every constant of the expression is an int or a bool and no [BinOp] is a
    division. *)
Fixpoint int_constants (node : expr) : bool :=
  match node with
  | BinOp node_left op node_right =>
      int_constants node_left && int_constants node_right
      && negb (operator_eqb op Div)
  | UnaryOp _ operand => int_constants operand
  | Compare node_left _ comparators =>
      int_constants node_left && forallb int_constants comparators
  | Call func args => int_constants func && forallb int_constants args
  | Attribute value _ _ => int_constants value
  | Constant (CInt _ | CBool _) => true
  | Constant _ => false
  | Name _ _ => true
  end.

(** A property of every expression held by a field of a statement. *)
Fixpoint all_exprs (P : expr → bool) (node : stmt) : bool :=
  match node with
  | FunctionDef _ body => forallb (all_exprs P) body
  | Return value => from_option P true value
  | Assign targets value => forallb P targets && P value
  | If test body orelse =>
      P test && forallb (all_exprs P) body && forallb (all_exprs P) orelse
  | Expr value => P value
  end.

(** The graph with the nodes and edges of two graphs. *)
Definition graph_union (G H : DiGraph) : DiGraph :=
  {| nodes := nodes G ∪ nodes H; edges := edges G ∪ edges H |}.

Local Close Scope Z_scope.

(** ** [NodeTransformer]: the store layer *)

(** Nodes are objects in a heap; a field that holds a node holds its
    reference, a field that holds a list holds the references of its
    elements.  References are indices into the heap and a new object is
    appended.  Operator and context nodes have no fields and a visit returns
    them as they are, so they are values inside the objects. *)
Abbreviation loc := nat (only parsing).

Inductive object :=
  | OBinOp (left : loc) (op : operator) (right : loc)
  | OUnaryOp (op : unaryop) (operand : loc)
  | OCompare (left : loc) (ops : list cmpop.t) (comparators : list loc)
  | OCall (func : loc) (args : list loc)
  | OAttribute (value : loc) (attr : string) (ctx : expr_context)
  | OConstant (value : constant)
  | OName (id : string) (ctx : expr_context)
  | OFunctionDef (name : string) (body : list loc)
  | OReturn (value : option loc)
  | OAssign (targets : list loc) (value : loc)
  | OIf (test : loc) (body orelse : list loc)
  | OExpr (value : loc)
  | OModule (body : list loc).

Abbreviation heap := (list object) (only parsing).

(** What a [visit] method returns: [None], a node or a list of nodes. *)
Inductive value :=
  | VNone
  | VNode (node : loc)
  | VList (nodes : list loc).

(** A computation on the heap returns, raises, or is stuck: out of fuel, at
    a reference to no object, or at a field of one node that would receive
    [None] or a list. *)
Inductive outcome (A : Type) :=
  | Done (h : heap) (a : A)
  | Raised (h : heap) (e : exn)
  | Stuck.
Arguments Done {A} h a.
Arguments Raised {A} h e.
Arguments Stuck {A}.

Definition M (A : Type) : Type := heap → outcome A.

#[global] Instance M_ret : MRet M := fun A a h => Done h a.
#[global] Instance M_bind : MBind M := fun A B f m h =>
  match m h with
  | Done h' a => f a h'
  | Raised h' e => Raised h' e
  | Stuck => Stuck
  end.

Definition stuck {A} : M A := fun _ => Stuck.
Definition raise {A} (e : exn) : M A := fun h => Raised h e.
Definition load (node : loc) : M object := fun h =>
  match h !! node with
  | Some obj => Done h obj
  | None => Stuck
  end.
(** Assignment to the fields of the object at [node]. *)
Definition store (node : loc) (obj : object) : M unit := fun h =>
  match h !! node with
  | Some _ => Done (<[node := obj]> h) ()
  | None => Stuck
  end.
(** Construction of a new node. *)
Definition alloc (obj : object) : M loc := fun h =>
  Done (h ++ [obj]) (length h).

(** [generic_visit] on a field that holds a node: [setattr(node, field,
    new_node)] with the node returned by [visit]. *)
Definition node_field (visit : loc → M value) (old_value : loc) : M loc :=
  new_node ← visit old_value;
  match new_node with
  | VNode new_node => mret new_node
  | VNone | VList _ => stuck
  end.

(** [generic_visit] on a field that holds a list: the loop that collects
    [new_values], which are then assigned to the list. *)
Definition list_field (visit : loc → M value) : list loc → M (list loc) :=
  fix go (old_value : list loc) : M (list loc) :=
    match old_value with
    | [] => mret []
    | value :: rest =>
        value' ← visit value;
        new_values ← go rest;
        mret (match value' with
              | VNone => new_values
              | VNode value' => value' :: new_values
              | VList values => values ++ new_values
              end)
    end.

(** [return Constant(left op right)]: the operation may raise. *)
Definition new_Constant (v : result constant) : M value :=
  match v with
  | OK v => node ← alloc (OConstant v); mret (VNode node)
  | Raise e => raise e
  end.

(** [ConstantFolder.visit_BinOp] after [generic_visit]. *)
Definition store_ConstantFolder_visit_BinOp (node left : loc) (op : operator)
    (right : loc) : M value :=
  l ← load left;
  r ← load right;
  match l, op, r with
  | OConstant l, Add, OConstant r => new_Constant (py_add l r)
  | OConstant l, Sub, OConstant r => new_Constant (py_sub l r)
  | OConstant l, Mult, OConstant r => new_Constant (py_mul l r)
  | OConstant l, Div, OConstant r => new_Constant (py_truediv l r)
  | OConstant l, And, OConstant r => new_Constant (py_and l r)
  | OConstant l, Or, OConstant r => new_Constant (py_or l r)
  | _, _, _ => mret (VNode node)
  end.

Definition is_OConstant (n : Z) (obj : object) : bool :=
  match obj with
  | OConstant v => py_eq_int v n
  | _ => false
  end.

(** [StrengthReducer.visit_BinOp] after [generic_visit]. *)
Definition store_StrengthReducer_visit_BinOp (node left : loc) (op : operator)
    (right : loc) : M value :=
  l ← load left;
  r ← load right;
  if operator_eqb op Mod && is_OConstant 2 r then
    one ← alloc (OConstant (CInt 1));
    new ← alloc (OBinOp left BitAnd one);
    mret (VNode new)
  else if operator_eqb op Add && is_OConstant 0 l then mret (VNode right)
  else if operator_eqb op Add && is_OConstant 0 r then mret (VNode left)
  else if operator_eqb op Mult && is_OConstant 1 l then mret (VNode right)
  else if operator_eqb op Mult && is_OConstant 1 r then mret (VNode left)
  else if operator_eqb op Sub && is_OConstant 0 l then
    new ← alloc (OUnaryOp USub right);
    mret (VNode new)
  else mret (VNode node).

(** [DeadBranchEliminator.visit_If] after [generic_visit]. *)
Definition store_DeadBranchEliminator_visit_If (node test : loc)
    (body orelse : list loc) : M value :=
  t ← load test;
  match t with
  | OConstant condition => mret (VList (if truthy condition then body else orelse))
  | _ => mret (VNode node)
  end.

(** Method lookup, as in the functional layer. *)
Definition store_visit_BinOp (self : transformer) (node left : loc) (op : operator)
    (right : loc) : M value :=
  match self with
  | ConstantFolder => store_ConstantFolder_visit_BinOp node left op right
  | StrengthReducer => store_StrengthReducer_visit_BinOp node left op right
  | _ => mret (VNode node)
  end.

Definition store_visit_If (self : transformer) (node test : loc)
    (body orelse : list loc) : M value :=
  match self with
  | DeadBranchEliminator => store_DeadBranchEliminator_visit_If node test body orelse
  | _ => mret (VNode node)
  end.

(** [self.visit(node)] on the object at [node].  The fields are visited in
    the order of [_fields] and each is assigned as soon as it was visited;
    then the method of the class, if it has one for the node, rewrites the
    node. *)
Fixpoint store_visit (self : transformer) (fuel : nat) (node : loc) {struct fuel}
    : M value :=
  match fuel with
  | O => stuck
  | S fuel =>
      let visit := store_visit self fuel in
      obj ← load node;
      match obj with
      | OBinOp node_left op node_right =>
          left' ← node_field visit node_left;
          _ ← store node (OBinOp left' op node_right);
          right' ← node_field visit node_right;
          _ ← store node (OBinOp left' op right');
          store_visit_BinOp self node left' op right'
      | OUnaryOp op operand =>
          operand' ← node_field visit operand;
          _ ← store node (OUnaryOp op operand');
          mret (VNode node)
      | OCompare node_left ops comparators =>
          left' ← node_field visit node_left;
          _ ← store node (OCompare left' ops comparators);
          comparators' ← list_field visit comparators;
          _ ← store node (OCompare left' ops comparators');
          mret (VNode node)
      | OCall func args =>
          func' ← node_field visit func;
          _ ← store node (OCall func' args);
          args' ← list_field visit args;
          _ ← store node (OCall func' args');
          mret (VNode node)
      | OAttribute value attr ctx =>
          value' ← node_field visit value;
          _ ← store node (OAttribute value' attr ctx);
          mret (VNode node)
      | OConstant _ | OName _ _ => mret (VNode node)
      | OFunctionDef name body =>
          if drops_FunctionDef self name then mret VNone
          else
            body' ← list_field visit body;
            _ ← store node (OFunctionDef name body');
            mret (VNode node)
      | OReturn value =>
          match value with
          | Some value =>
              value' ← node_field visit value;
              _ ← store node (OReturn (Some value'));
              mret (VNode node)
          | None => mret (VNode node)
          end
      | OAssign targets value =>
          targets' ← list_field visit targets;
          _ ← store node (OAssign targets' value);
          value' ← node_field visit value;
          _ ← store node (OAssign targets' value');
          mret (VNode node)
      | OIf test body orelse =>
          test' ← node_field visit test;
          _ ← store node (OIf test' body orelse);
          body' ← list_field visit body;
          _ ← store node (OIf test' body' orelse);
          orelse' ← list_field visit orelse;
          _ ← store node (OIf test' body' orelse');
          store_visit_If self node test' body' orelse'
      | OExpr value =>
          value' ← node_field visit value;
          _ ← store node (OExpr value');
          mret (VNode node)
      | OModule body =>
          body' ← list_field visit body;
          _ ← store node (OModule body');
          mret (VNode node)
      end
  end.

(** *** Trees in the heap *)

(** [represents_list R xs ls F]: the objects at [ls] represent the trees
    [xs], in regions of the heap that are pairwise disjoint and make up [F]. *)
Definition represents_list {A} (R : A → loc → gset loc → Prop)
    : list A → list loc → gset loc → Prop :=
  fix go (xs : list A) (ls : list loc) (F : gset loc) : Prop :=
    match xs, ls with
    | [], [] => F = ∅
    | x :: xs, l :: ls =>
        ∃ F1 F2, R x l F1 ∧ go xs ls F2 ∧ F1 ## F2 ∧ F = F1 ∪ F2
    | _, _ => False
    end.

(** [represents_expr h node l F]: the object at [l] and the objects it
    refers to represent the tree [node]; they are the objects at [F], no two
    fields referring to the same object. *)
Fixpoint represents_expr (h : heap) (node : expr) (l : loc) (F : gset loc)
    {struct node} : Prop :=
  match node with
  | BinOp node_left op node_right =>
      ∃ a b Fa Fb, h !! l = Some (OBinOp a op b)
        ∧ represents_expr h node_left a Fa ∧ represents_expr h node_right b Fb
        ∧ Fa ## Fb ∧ (l ∉ Fa ∪ Fb) ∧ F = {[l]} ∪ (Fa ∪ Fb)
  | UnaryOp op operand =>
      ∃ a Fa, h !! l = Some (OUnaryOp op a)
        ∧ represents_expr h operand a Fa ∧ (l ∉ Fa) ∧ F = {[l]} ∪ Fa
  | Compare node_left ops comparators =>
      ∃ a bs Fa Fb, h !! l = Some (OCompare a ops bs)
        ∧ represents_expr h node_left a Fa
        ∧ represents_list (represents_expr h) comparators bs Fb
        ∧ Fa ## Fb ∧ (l ∉ Fa ∪ Fb) ∧ F = {[l]} ∪ (Fa ∪ Fb)
  | Call func args =>
      ∃ a bs Fa Fb, h !! l = Some (OCall a bs)
        ∧ represents_expr h func a Fa
        ∧ represents_list (represents_expr h) args bs Fb
        ∧ Fa ## Fb ∧ (l ∉ Fa ∪ Fb) ∧ F = {[l]} ∪ (Fa ∪ Fb)
  | Attribute value attr ctx =>
      ∃ a Fa, h !! l = Some (OAttribute a attr ctx)
        ∧ represents_expr h value a Fa ∧ (l ∉ Fa) ∧ F = {[l]} ∪ Fa
  | Constant value => h !! l = Some (OConstant value) ∧ F = {[l]}
  | Name id ctx => h !! l = Some (OName id ctx) ∧ F = {[l]}
  end.

Fixpoint represents_stmt (h : heap) (node : stmt) (l : loc) (F : gset loc)
    {struct node} : Prop :=
  match node with
  | FunctionDef name body =>
      ∃ bs Fb, h !! l = Some (OFunctionDef name bs)
        ∧ represents_list (represents_stmt h) body bs Fb
        ∧ (l ∉ Fb) ∧ F = {[l]} ∪ Fb
  | Return value =>
      match value with
      | Some value =>
          ∃ a Fa, h !! l = Some (OReturn (Some a))
            ∧ represents_expr h value a Fa ∧ (l ∉ Fa) ∧ F = {[l]} ∪ Fa
      | None => h !! l = Some (OReturn None) ∧ F = {[l]}
      end
  | Assign targets value =>
      ∃ bs a Fb Fa, h !! l = Some (OAssign bs a)
        ∧ represents_list (represents_expr h) targets bs Fb
        ∧ represents_expr h value a Fa
        ∧ Fb ## Fa ∧ (l ∉ Fb ∪ Fa) ∧ F = {[l]} ∪ (Fb ∪ Fa)
  | If test body orelse =>
      ∃ a bs cs Fa Fb Fc, h !! l = Some (OIf a bs cs)
        ∧ represents_expr h test a Fa
        ∧ represents_list (represents_stmt h) body bs Fb
        ∧ represents_list (represents_stmt h) orelse cs Fc
        ∧ Fa ## Fb ∧ Fa ## Fc ∧ Fb ## Fc ∧ (l ∉ Fa ∪ Fb ∪ Fc)
        ∧ F = {[l]} ∪ (Fa ∪ Fb ∪ Fc)
  | Expr value =>
      ∃ a Fa, h !! l = Some (OExpr a)
        ∧ represents_expr h value a Fa ∧ (l ∉ Fa) ∧ F = {[l]} ∪ Fa
  end.

Definition represents (h : heap) (tree : py_module) (l : loc) (F : gset loc) : Prop :=
  match tree with
  | PyModule body =>
      ∃ bs Fb, h !! l = Some (OModule bs)
        ∧ represents_list (represents_stmt h) body bs Fb
        ∧ (l ∉ Fb) ∧ F = {[l]} ∪ Fb
  end.

(** The heap [h'] is [h] with new objects and, possibly, other objects at
    the references of [F]. *)
Definition modifies (F : gset loc) (h h' : heap) : Prop :=
  length h ≤ length h'
  ∧ ∀ k, k < length h → k ∉ F → h' !! k = h !! k.

(** The heaps [h] and [h'] hold the same objects at the references of [F]. *)
Definition agree (h h' : heap) (F : gset loc) : Prop :=
  ∀ k, k ∈ F → h' !! k = h !! k.

(** The references of [h], and those of [h'] that are new since [h]. *)
Definition below (h : heap) : gset loc := set_seq 0 (length h).
Definition fresh (h h' : heap) : gset loc :=
  set_seq (length h) (length h' - length h).

(** The nodes a returned value adds to the list that receives it. *)
Definition value_nodes (v : value) : list loc :=
  match v with
  | VNone => []
  | VNode node => [node]
  | VList nodes => nodes
  end.

(** The computation [m] on the heap [h] does what [p] does on trees: when
    [p] returns [b], [m] returns some [a] in a heap [h'] with [Q h' a b];
    when [p] raises, [m] raises the same exception. *)
Definition refines {A B} (m : M A) (h : heap) (p : result B)
    (Q : heap → A → B → Prop) : Prop :=
  match p with
  | OK b => ∃ h' a, m h = Done h' a ∧ Q h' a b
  | Raise e => ∃ h', m h = Raised h' e
  end.

(** After a visit that started in [h] with the tree in the region [F]: the
    heap has only changed in [F], and [l'] represents the tree returned in a
    region made of references of [F] and of new ones. *)
Definition returned {A} (R : heap → A → loc → gset loc → Prop)
    (F : gset loc) (h h' : heap) (l' : loc) (a' : A) : Prop :=
  modifies F h h' ∧ ∃ F', R h' a' l' F' ∧ F' ⊆ F ∪ fresh h h'.

Definition returned_list {A} (R : heap → A → loc → gset loc → Prop)
    (F : gset loc) (h h' : heap) (ls' : list loc) (as' : list A) : Prop :=
  modifies F h h'
  ∧ ∃ F', represents_list (R h') as' ls' F' ∧ F' ⊆ F ∪ fresh h h'.

(** What [store_visit] is to do on the representations of a tree. *)
Definition visit_expr_spec (self : transformer) (fuel : nat) (node : expr) : Prop :=
  ∀ h l F, represents_expr h node l F →
    refines (store_visit self fuel l) h (visit_expr self node)
      (λ h' v node', ∃ l', v = VNode l' ∧ returned represents_expr F h h' l' node').

Definition visit_stmt_spec (self : transformer) (fuel : nat) (node : stmt) : Prop :=
  ∀ h l F, represents_stmt h node l F →
    refines (store_visit self fuel l) h (visit_stmt self node)
      (λ h' v nodes', returned_list represents_stmt F h h' (value_nodes v) nodes').

(** The number of nested visits a tree needs. *)
Fixpoint height (node : expr) : nat :=
  match node with
  | BinOp node_left _ node_right => S (Nat.max (height node_left) (height node_right))
  | UnaryOp _ operand => S (height operand)
  | Compare node_left _ comparators =>
      S (Nat.max (height node_left) (foldr Nat.max 0 (map height comparators)))
  | Call func args =>
      S (Nat.max (height func) (foldr Nat.max 0 (map height args)))
  | Attribute value _ _ => S (height value)
  | Constant _ | Name _ _ => 1
  end.

Fixpoint height_stmt (node : stmt) : nat :=
  match node with
  | FunctionDef _ body => S (foldr Nat.max 0 (map height_stmt body))
  | Return value => S (from_option height 0 value)
  | Assign targets value =>
      S (Nat.max (foldr Nat.max 0 (map height targets)) (height value))
  | If test body orelse =>
      S (Nat.max (height test)
           (Nat.max (foldr Nat.max 0 (map height_stmt body))
                    (foldr Nat.max 0 (map height_stmt orelse))))
  | Expr value => S (height value)
  end.

Definition height_module (tree : py_module) : nat :=
  match tree with
  | PyModule body => S (foldr Nat.max 0 (map height_stmt body))
  end.

(** [y = 10 * 10] in the heap, the [Module] at reference [0]. *)
Definition product_heap : heap :=
  [OModule [1]; OAssign [2] 3; OName "y" Store; OBinOp 4 Mult 5;
   OConstant (CInt 10); OConstant (CInt 10)].

(** The references of [product_heap], as the region of the tree. *)
Definition product_region : gset nat :=
  {[0]} ∪ ({[1]} ∪ ({[2]} ∪ ∅ ∪ ({[3]} ∪ ({[4]} ∪ {[5]}))) ∪ ∅).

Local Open Scope Z_scope.

(** ** Programs of the notebook and of the scenarios *)

(** [name = value] and the statement [name()]. *)
Definition assign (name : string) (value : expr) : stmt :=
  Assign [Name name Store] value.
Definition call (name : string) : stmt :=
  Expr (Call (Name name Load) []).
Definition num (n : Z) : expr := Constant (CInt n).

(** [cf_code] of the notebook. *)
Definition cf_code : py_module :=
  PyModule [FunctionDef "main" [
    assign "x" (num 5);
    assign "y" (BinOp (BinOp (num 1) Add (num 1)) Add (num 3));
    If (Compare (Name "x" Load) [cmpop.Gt] [num 0])
      [assign "y" (BinOp (num 10) Mult (num 10))]
      [assign "y" (num 20)];
    Return (Some (Name "y" Load))]].

Definition product_code : py_module :=
  PyModule [assign "y" (BinOp (num 10) Mult (num 10))].

(** [x = 1 / 0] *)
Definition division_code : py_module :=
  PyModule [assign "x" (BinOp (num 1) Div (num 0))].

(** [sr_code] of the notebook: [if x % 2 == 0: print("even")]
    [else: print("odd")]. *)
Definition sr_code : py_module :=
  PyModule [
    If (Compare (BinOp (Name "x" Load) Mod (num 2)) [cmpop.Eq] [num 0])
      [Expr (Call (Name "print" Load) [Constant (CStr "even")])]
      [Expr (Call (Name "print" Load) [Constant (CStr "odd")])]].

(** [if False: y = 100] [else: y = 20] *)
Definition branch_code : py_module :=
  PyModule [If (Constant (CBool false)) [assign "y" (num 100)] [assign "y" (num 20)]].

(** [db_code] of the notebook: the [if False] is in the body of [main]. *)
Definition db_code : py_module :=
  PyModule [FunctionDef "main" [
    assign "x" (num 5);
    assign "y" (BinOp (BinOp (num 1) Add (num 1)) Add (num 3));
    If (Constant (CBool false))
      [assign "y" (BinOp (num 10) Mult (num 10))]
      [assign "y" (num 20)];
    Return (Some (Name "y" Load))]].

(** A constant [If] in a branch of an [If] whose test is not a constant, in
    the body of a function. *)
Definition nested_branch_code : py_module :=
  PyModule [FunctionDef "f" [
    If (Name "x" Load)
      [If (Constant (CInt 1)) [assign "a" (num 1); assign "b" (num 2)] [];
       If (Constant CNone) [assign "c" (num 3)] []]
      [If (Constant (CStr "")) [] [call "g"]]]].

(** Scenario 4: [h] calls nothing, [f], [g] and [main] call [h], the top
    level calls [main]. *)
Definition dc_scenario_body : list stmt :=
  [FunctionDef "h" [Return None];
   FunctionDef "f" [call "h"];
   FunctionDef "g" [call "h"];
   FunctionDef "main" [call "h"];
   call "main"].
Definition dc_scenario : py_module := PyModule dc_scenario_body.

(** [dc_code] of the notebook, where [h] calls [g]. *)
Definition dc_code : py_module :=
  PyModule [
    FunctionDef "h" [call "g"];
    FunctionDef "f" [call "h"];
    FunctionDef "g" [call "h"];
    FunctionDef "main" [call "h"];
    call "main"].

(** [f] is called from the top level; [g] and [h] only call each other. *)
Definition mutual_code (g h : string) : py_module :=
  PyModule [
    FunctionDef "f" [Return None];
    FunctionDef g [call h];
    FunctionDef h [call g];
    call "f"].

(** A dead function that defines a local [helper] of its own, next to the
    [helper] of the module that the top level calls. *)
Definition nested_code : py_module :=
  PyModule [
    FunctionDef "helper" [Return None];
    FunctionDef "unused" [FunctionDef "helper" [Return None]; call "helper"];
    call "helper"].

(** A dead function that calls a name no [FunctionDef] defines. *)
Definition undefined_code : py_module :=
  PyModule [
    FunctionDef "main" [Return None];
    FunctionDef "unused" [call "missing"];
    call "main";
    call "absent"].

(** *** Programs of the further properties *)

(** A function that is only passed as a value. *)
Definition callback_code : py_module :=
  PyModule [
    FunctionDef "on_event" [Return None];
    Expr (Call (Name "register" Load) [Name "on_event" Load])
  ].

(** A nested function called from the top level, whose enclosing function
    is dead. *)
Definition nested_call_code : py_module :=
  PyModule [
    FunctionDef "f" [FunctionDef "g" [call "k"]];
    FunctionDef "k" [Return None];
    call "g"
  ].

(** [y = x + (1 - 1)]: folding leaves [x + 0]. *)
Definition order_code : py_module :=
  PyModule [assign "y" (BinOp (Name "x" Load) Add (BinOp (num 1) Sub (num 1)))].

(** [(0 + g)()]: the callee is not a [Name] before strength reduction. *)
Definition indirect_call_code : py_module :=
  PyModule [
    FunctionDef "g" [Return None];
    Expr (Call (BinOp (num 0) Add (Name "g" Load)) [])
  ].

(** A call of [f] in a branch that is never taken. *)
Definition guarded_call_code : py_module :=
  PyModule [
    FunctionDef "f" [Return None];
    If (Constant (CBool false)) [call "f"] []
  ].

Local Close Scope Z_scope.
#[local] Set Warnings "-clear-no-such-hyp".

(** ** Induction over trees *)

Section expr_induction.
Variable P : expr → Prop.
Hypothesis HBinOp : ∀ l op r, P l → P r → P (BinOp l op r).
Hypothesis HUnaryOp : ∀ op e, P e → P (UnaryOp op e).
Hypothesis HCompare : ∀ l ops cs, P l → Forall P cs → P (Compare l ops cs).
Hypothesis HCall : ∀ f args, P f → Forall P args → P (Call f args).
Hypothesis HAttribute : ∀ v a c, P v → P (Attribute v a c).
Hypothesis HConstant : ∀ v, P (Constant v).
Hypothesis HName : ∀ id c, P (Name id c).

Fixpoint expr_ind (e : expr) : P e :=
  let all := fix all (l : list expr) : Forall P l :=
    match l with
    | [] => Forall_nil_2 P
    | x :: l => Forall_cons_2 P x l (expr_ind x) (all l)
    end in
  match e with
  | BinOp l op r => HBinOp l op r (expr_ind l) (expr_ind r)
  | UnaryOp op e => HUnaryOp op e (expr_ind e)
  | Compare l ops cs => HCompare l ops cs (expr_ind l) (all cs)
  | Call f args => HCall f args (expr_ind f) (all args)
  | Attribute v a c => HAttribute v a c (expr_ind v)
  | Constant v => HConstant v
  | Name id c => HName id c
  end.
End expr_induction.

Section stmt_induction.
Variable P : stmt → Prop.
Hypothesis HFunctionDef : ∀ name body, Forall P body → P (FunctionDef name body).
Hypothesis HReturn : ∀ v, P (Return v).
Hypothesis HAssign : ∀ ts v, P (Assign ts v).
Hypothesis HIf : ∀ t body orelse, Forall P body → Forall P orelse → P (If t body orelse).
Hypothesis HExpr : ∀ v, P (Expr v).

Fixpoint stmt_ind (s : stmt) : P s :=
  let all := fix all (l : list stmt) : Forall P l :=
    match l with
    | [] => Forall_nil_2 P
    | x :: l => Forall_cons_2 P x l (stmt_ind x) (all l)
    end in
  match s with
  | FunctionDef name body => HFunctionDef name body (all body)
  | Return v => HReturn v
  | Assign ts v => HAssign ts v
  | If t body orelse => HIf t body orelse (all body) (all orelse)
  | Expr v => HExpr v
  end.
End stmt_induction.

(** * Properties *)

(** ** The exception monad *)

Lemma bind_OK {A B} (f : A → result B) (a : A) : (OK a ≫= f) = f a.
Proof. reflexivity. Qed.

Lemma mapM_OK_id {A} (f : A → result A) (l : list A) :
  Forall (λ x, f x = OK x) l → mapM f l = OK l.
Proof.
  induction 1 as [|x l Hx _ IH]; [done|].
  cbn. rewrite Hx. cbn. rewrite IH. done.
Qed.

Lemma mapM_OK_Forall {A B} (f : A → result B) (P : B → Prop) (l : list A) (k : list B) :
  Forall (λ x, ∀ y, f x = OK y → P y) l → mapM f l = OK k → Forall P k.
Proof.
  intros Hl. revert k. induction Hl as [|x l Hx _ IH]; intros k; cbn.
  - intros [= <-]. constructor.
  - destruct (f x) as [y|] eqn:Hy; cbn; [|done].
    destruct (mapM f l) as [k'|]; cbn; [|done].
    intros [= <-]. constructor; eauto.
Qed.

Lemma mapM_total {A B} (f : A → result B) (l : list A) :
  Forall (λ x, ∃ y, f x = OK y) l → ∃ k, mapM f l = OK k.
Proof.
  induction 1 as [|x l [y Hy] _ [k IH]]; [by exists []|].
  exists (y :: k). cbn. rewrite Hy. cbn. rewrite IH. done.
Qed.

Lemma visit_list_cons {A} (f : A → result (list A)) x l :
  visit_list f (x :: l) = (v ← f x; vs ← visit_list f l; OK (v ++ vs)).
Proof. reflexivity. Qed.

Lemma visit_list_app {A} (f : A → result (list A)) (l1 l2 : list A) :
  visit_list f (l1 ++ l2) =
    (v1 ← visit_list f l1; v2 ← visit_list f l2; OK (v1 ++ v2)).
Proof.
  induction l1 as [|x l1 IH]; cbn [app].
  - cbn. by destruct (visit_list f l2).
  - rewrite !visit_list_cons, IH.
    destruct (f x) as [v|]; [|done]. rewrite !bind_OK.
    destruct (visit_list f l1) as [v1|]; [|done]. rewrite !bind_OK.
    destruct (visit_list f l2) as [v2|]; [|done]. rewrite !bind_OK.
    by rewrite (assoc_L (++)).
Qed.

Lemma visit_list_flat_map {A} (f : A → result (list A)) (g : A → list A) (l : list A) :
  Forall (λ x, f x = OK (g x)) l → visit_list f l = OK (flat_map g l).
Proof.
  induction 1 as [|x l Hx _ IH]; [done|].
  rewrite visit_list_cons, Hx, bind_OK, IH. done.
Qed.

Lemma visit_list_id {A} (f : A → result (list A)) (l : list A) :
  Forall (λ x, f x = OK [x]) l → visit_list f l = OK l.
Proof.
  induction 1 as [|x l Hx _ IH]; [done|].
  rewrite visit_list_cons, Hx, bind_OK, IH. done.
Qed.

Lemma visit_list_OK_Forall {A} (f : A → result (list A)) (P : A → Prop) (l k : list A) :
  Forall (λ x, ∀ ys, f x = OK ys → Forall P ys) l →
  visit_list f l = OK k → Forall P k.
Proof.
  intros Hl. revert k. induction Hl as [|x l Hx _ IH]; intros k.
  - intros [= <-]. constructor.
  - rewrite visit_list_cons.
    destruct (f x) as [ys|] eqn:Hy; [|done]. rewrite bind_OK.
    destruct (visit_list f l) as [k'|]; [|done]. rewrite bind_OK.
    intros [= <-]. apply Forall_app; eauto.
Qed.

Lemma visit_list_total {A} (f : A → result (list A)) (l : list A) :
  Forall (λ x, ∃ ys, f x = OK ys) l → ∃ k, visit_list f l = OK k.
Proof.
  induction 1 as [|x l [ys Hy] _ [k IH]]; [by exists []|].
  exists (ys ++ k). rewrite visit_list_cons, Hy, bind_OK, IH. done.
Qed.

(** ** Constant folding *)

Lemma ConstantFolder_visit_BinOp_redex left op right :
  ConstantFolder_visit_BinOp left op right =
    match left, right with
    | Constant l, Constant r =>
        if folds op then Constant <$> binop_eval op l r
        else OK (BinOp left op right)
    | _, _ => OK (BinOp left op right)
    end.
Proof. destruct left, op, right; reflexivity. Qed.

Lemma ConstantFolder_visit_BinOp_not_redex left op right :
  redex left op right = false →
  ConstantFolder_visit_BinOp left op right = OK (BinOp left op right).
Proof.
  rewrite ConstantFolder_visit_BinOp_redex. unfold redex.
  destruct left, right; try done. by intros ->.
Qed.

Lemma ConstantFolder_visit_BinOp_folded left op right node :
  folded left = true → folded right = true →
  ConstantFolder_visit_BinOp left op right = OK node → folded node = true.
Proof.
  intros Hl Hr. destruct (redex left op right) eqn:Hredex.
  - rewrite ConstantFolder_visit_BinOp_redex. unfold redex in Hredex.
    destruct left as [| | | | |lv|], right as [| | | | |rv|]; try done.
    rewrite Hredex.
    destruct (binop_eval op lv rv); [|done]. by intros [= <-].
  - rewrite ConstantFolder_visit_BinOp_not_redex by done.
    intros [= <-]. cbn. by rewrite Hl, Hr, Hredex.
Qed.

Lemma forallb_Forall_true {A} (f : A → bool) (l : list A) :
  forallb f l = true ↔ Forall (λ x, f x = true) l.
Proof. rewrite forallb_forall, Forall_forall. by setoid_rewrite list_elem_of_In. Qed.

Lemma Forall_mp {A} (P Q : A → Prop) (l : list A) :
  Forall (λ x, P x → Q x) l → Forall P l → Forall Q l.
Proof. induction 1; inversion 1; subst; constructor; auto. Qed.

Lemma ConstantFolder_folded_expr node node' :
  visit_expr ConstantFolder node = OK node' → folded node' = true.
Proof.
  revert node'. induction node as [l op r IHl IHr|op e IH|l ops cs IHl IHcs
    |f args IHf IHargs|v a c IH|v|id c] using expr_ind; intros node'; cbn.
  - destruct (visit_expr ConstantFolder l) as [l'|]; [|done]. rewrite bind_OK.
    destruct (visit_expr ConstantFolder r) as [r'|]; [|done]. rewrite bind_OK.
    apply ConstantFolder_visit_BinOp_folded; eauto.
  - destruct (visit_expr ConstantFolder e) as [e'|]; [|done]. rewrite bind_OK.
    intros [= <-]. cbn. eauto.
  - destruct (visit_expr ConstantFolder l) as [l'|]; [|done]. rewrite bind_OK.
    destruct (mapM _ cs) as [cs'|] eqn:Hcs; [|done]. rewrite bind_OK.
    intros [= <-]. cbn. rewrite (IHl l') by done. cbn.
    apply forallb_Forall_true. eapply mapM_OK_Forall; [|exact Hcs]. done.
  - destruct (visit_expr ConstantFolder f) as [f'|]; [|done]. rewrite bind_OK.
    destruct (mapM _ args) as [args'|] eqn:Hargs; [|done]. rewrite bind_OK.
    intros [= <-]. cbn. rewrite (IHf f') by done. cbn.
    apply forallb_Forall_true. eapply mapM_OK_Forall; [|exact Hargs]. done.
  - destruct (visit_expr ConstantFolder v) as [v'|]; [|done]. rewrite bind_OK.
    intros [= <-]. cbn. eauto.
  - by intros [= <-].
  - by intros [= <-].
Qed.

Lemma ConstantFolder_id_expr node :
  folded node = true → visit_expr ConstantFolder node = OK node.
Proof.
  induction node as [l op r IHl IHr|op e IH|l ops cs IHl IHcs
    |f args IHf IHargs|v a c IH|v|id c] using expr_ind; cbn; intros H.
  - apply andb_prop in H as [H Hredex]. apply andb_prop in H as [Hl Hr].
    rewrite IHl, bind_OK, IHr, bind_OK by done.
    apply ConstantFolder_visit_BinOp_not_redex. by destruct (redex l op r).
  - by rewrite IH.
  - apply andb_prop in H as [Hl Hcs]. rewrite IHl, bind_OK by done.
    rewrite mapM_OK_id; [done|].
    apply forallb_Forall_true in Hcs.
    exact (Forall_mp _ _ _ IHcs Hcs).
  - apply andb_prop in H as [Hf Hargs]. rewrite IHf, bind_OK by done.
    rewrite mapM_OK_id; [done|].
    apply forallb_Forall_true in Hargs.
    exact (Forall_mp _ _ _ IHargs Hargs).
  - by rewrite IH.
  - done.
  - done.
Qed.

Lemma ConstantFolder_folded_stmt node nodes' :
  visit_stmt ConstantFolder node = OK nodes' →
  Forall (λ s, folded_stmt s = true) nodes'.
Proof.
  revert nodes'. induction node as [name body IH|v|ts v|t body orelse IHb IHo|v]
    using stmt_ind; intros nodes'; cbn.
  - destruct (visit_list _ body) as [body'|] eqn:Hbody; [|done]. rewrite bind_OK.
    intros [= <-]. repeat constructor. cbn. apply forallb_Forall_true.
    eapply visit_list_OK_Forall; [|exact Hbody]. done.
  - destruct v as [v|]; [|by intros [= <-]; repeat constructor].
    destruct (visit_expr ConstantFolder v) as [v'|] eqn:Hv; [|done].
    rewrite bind_OK. intros [= <-]. repeat constructor. cbn.
    eauto using ConstantFolder_folded_expr.
  - destruct (mapM _ ts) as [ts'|] eqn:Hts; [|done]. rewrite bind_OK.
    destruct (visit_expr ConstantFolder v) as [v'|] eqn:Hv; [|done].
    rewrite bind_OK. intros [= <-]. repeat constructor. cbn.
    apply andb_true_intro; split; [|eauto using ConstantFolder_folded_expr].
    apply forallb_Forall_true. eapply mapM_OK_Forall; [|exact Hts].
    apply Forall_forall. eauto using ConstantFolder_folded_expr.
  - destruct (visit_expr ConstantFolder t) as [t'|] eqn:Ht; [|done].
    rewrite bind_OK.
    destruct (visit_list _ body) as [body'|] eqn:Hbody; [|done]. rewrite bind_OK.
    destruct (visit_list _ orelse) as [orelse'|] eqn:Horelse; [|done].
    rewrite bind_OK. intros [= <-]. repeat constructor. cbn.
    rewrite (ConstantFolder_folded_expr _ _ Ht). cbn.
    apply andb_true_intro; split; apply forallb_Forall_true.
    + eapply visit_list_OK_Forall; [|exact Hbody]. done.
    + eapply visit_list_OK_Forall; [|exact Horelse]. done.
  - destruct (visit_expr ConstantFolder v) as [v'|] eqn:Hv; [|done].
    rewrite bind_OK. intros [= <-]. repeat constructor. cbn.
    eauto using ConstantFolder_folded_expr.
Qed.

Lemma ConstantFolder_id_stmt node :
  folded_stmt node = true → visit_stmt ConstantFolder node = OK [node].
Proof.
  induction node as [name body IH|v|ts v|t body orelse IHb IHo|v]
    using stmt_ind; cbn; intros H.
  - apply forallb_Forall_true in H.
    rewrite (visit_list_id _ body); [done|]. exact (Forall_mp _ _ _ IH H).
  - destruct v as [v|]; [|done]. cbn in H. by rewrite ConstantFolder_id_expr.
  - apply andb_prop in H as [Hts Hv]. apply forallb_Forall_true in Hts.
    rewrite mapM_OK_id, bind_OK.
    + by rewrite ConstantFolder_id_expr.
    + eapply Forall_impl; [exact Hts|]. apply ConstantFolder_id_expr.
  - apply andb_prop in H as [H Ho]. apply andb_prop in H as [Ht Hb].
    apply forallb_Forall_true in Hb, Ho.
    rewrite ConstantFolder_id_expr, bind_OK by done.
    rewrite (visit_list_id _ body), bind_OK by exact (Forall_mp _ _ _ IHb Hb).
    rewrite (visit_list_id _ orelse), bind_OK by exact (Forall_mp _ _ _ IHo Ho).
    done.
  - by rewrite ConstantFolder_id_expr.
Qed.



(** ** Reachability in the call graph *)

Lemma elem_of_successors G (S : gset string) y :
  y ∈ successors G S ↔ ∃ x, x ∈ S ∧ edge G x y.
Proof.
  unfold successors, edge. rewrite elem_of_map. split.
  - intros [[a b] [-> H]]. apply elem_of_filter in H as [H1 H2]. eauto.
  - intros (x & Hx & He). exists (x, y). split; [done|].
    apply elem_of_filter. done.
Qed.

Lemma search_subseteq fuel G seen : seen ⊆ search fuel G seen.
Proof.
  revert seen. induction fuel as [|fuel IH]; intros seen; cbn; [done|].
  etrans; [|apply IH]. set_solver.
Qed.

Lemma search_sound fuel G source seen x :
  (∀ y, y ∈ seen → rtc (edge G) source y) →
  x ∈ search fuel G seen → rtc (edge G) source x.
Proof.
  revert seen. induction fuel as [|fuel IH]; intros seen Hseen; cbn; [auto|].
  apply IH. intros y [Hy|Hy]%elem_of_union; [auto|].
  apply elem_of_successors in Hy as (z & Hz & He).
  eapply rtc_r; eauto.
Qed.

Lemma search_fixpoint fuel G seen :
  successors G seen ⊆ seen → search fuel G seen = seen.
Proof.
  intros H. induction fuel as [|fuel IH]; cbn; [done|].
  by rewrite (union_comm_L seen), (subseteq_union_1_L _ _ H).
Qed.

(** Every round of the search adds a node or has reached a closed set, so
    as many rounds as there are nodes end in a closed set. *)
Lemma search_closed fuel G (V seen : gset string) :
  (∀ a b, edge G a b → b ∈ V) → seen ⊆ V →
  size V ≤ fuel + size seen →
  successors G (search fuel G seen) ⊆ search fuel G seen.
Proof.
  intros HV. revert seen. induction fuel as [|fuel IH]; intros seen Hseen Hsize.
  - cbn in *. assert (seen = V) as ->.
    { apply set_eq. intros x. split; [set_solver|]. intros Hx.
      destruct (decide (x ∈ seen)) as [|Hn]; [done|].
      assert (seen ⊂ V) as Hlt%subset_size by set_solver. lia. }
    intros y (x & _ & He)%elem_of_successors. eauto.
  - destruct (decide (successors G seen ⊆ seen)) as [Hc|Hc].
    + by rewrite search_fixpoint.
    + cbn. apply IH.
      * intros y [Hy|Hy]%elem_of_union; [auto|].
        apply elem_of_successors in Hy as (x & _ & He). eauto.
      * assert (seen ⊂ seen ∪ successors G seen) as Hlt%subset_size
          by set_solver.
        lia.
Qed.

Lemma closed_reachable G (S : gset string) source x :
  source ∈ S → successors G S ⊆ S → rtc (edge G) source x → x ∈ S.
Proof.
  intros Hs Hc Hr. revert x Hr. apply rtc_ind_r; [done|].
  intros y z _ He Hy. apply Hc, elem_of_successors. eauto.
Qed.

(** [nx.descendants(G, source) | {source}] is the set of the nodes reachable
    from [source]. *)
Lemma descendants_reachable G source x :
  graph_wf G → source ∈ nodes G →
  x ∈ descendants G source ∪ {[source]} ↔ rtc (edge G) source x.
Proof.
  intros Hwf Hs. unfold descendants. split.
  - intros [[Hx _]%elem_of_difference| ->%elem_of_singleton]%elem_of_union;
      [|done].
    eapply search_sound; [|exact Hx]. by intros y ->%elem_of_singleton.
  - intros Hr.
    destruct (decide (x = source)) as [->|Hne]; [set_solver|].
    apply elem_of_union_l, elem_of_difference. split; [|set_solver].
    eapply closed_reachable; [| |exact Hr].
    + apply search_subseteq. set_solver.
    + apply (search_closed _ _ (nodes G)).
      * intros a b He. exact (proj2 (Hwf a b He)).
      * set_solver.
      * lia.
Qed.

(** ** The graph built by [DeadFunctionIdentifier] *)

Lemma grows_refl sources G : grows sources G G.
Proof. unfold grows. naive_solver. Qed.

Lemma grows_trans sources G1 G2 G3 :
  grows sources G1 G2 → grows sources G2 G3 → grows sources G1 G3.
Proof.
  intros (Hn1 & He1 & Hw1 & Hs1) (Hn2 & He2 & Hw2 & Hs2).
  split_and!; [set_solver|set_solver|auto|].
  intros a b [H|H]%Hs2; [|by right]. by apply Hs1.
Qed.

Lemma grows_weaken sources sources' G G' :
  sources ⊆ sources' → grows sources G G' → grows sources' G G'.
Proof.
  intros Hsub (Hn & He & Hw & Hs). split_and!; [done..|].
  intros a b [H|H]%Hs; [by left|right; by apply Hsub].
Qed.

Lemma grows_add_node n G : grows [] G (add_node n G).
Proof.
  split_and!; cbn; [set_solver|done| |by left].
  intros Hw a b He. destruct (Hw a b He). cbn. set_solver.
Qed.

Lemma grows_add_edge u v G : grows [u] G (add_edge u v G).
Proof.
  split_and!; cbn; [set_solver|set_solver| |].
  - intros Hw a b. unfold edge. cbn.
    intros [[= -> ->]%elem_of_singleton|He]%elem_of_union; [set_solver|].
    destruct (Hw a b He). set_solver.
  - intros a b. unfold edge. cbn.
    intros [[= -> ->]%elem_of_singleton|He]%elem_of_union; [right|by left].
    set_solver.
Qed.

Lemma fold_left_grows {A} sources (f : DiGraph → A → DiGraph) (l : list A) G :
  Forall (λ x, ∀ G, grows sources G (f G x)) l →
  grows sources G (fold_left f l G).
Proof.
  intros Hl. revert G. induction Hl as [|x l Hx _ IH]; intros G; cbn.
  - apply grows_refl.
  - eapply grows_trans; [apply Hx|apply IH].
Qed.

Lemma DeadFunctionIdentifier_visit_expr_grows current_fn node G :
  grows [cursor_name current_fn] G (DeadFunctionIdentifier_visit_expr current_fn node G).
Proof.
  revert G. induction node as [l op r IHl IHr|op e IH|l ops cs IHl IHcs
    |f args IHf IHargs|v a c IH|v|id c] using expr_ind; intros G; cbn.
  - eapply grows_trans; [apply IHl|apply IHr].
  - apply IH.
  - eapply grows_trans; [apply IHl|]. by apply fold_left_grows.
  - eapply grows_trans; [|by apply fold_left_grows].
    eapply grows_trans; [|apply IHf].
    destruct f; try apply grows_refl. apply grows_add_edge.
  - apply IH.
  - apply grows_refl.
  - apply grows_refl.
Qed.

Lemma DeadFunctionIdentifier_visit_exprs_grows current_fn (l : list expr) G :
  grows [cursor_name current_fn] G
    (fold_left (λ g e, DeadFunctionIdentifier_visit_expr current_fn e g) l G).
Proof.
  apply fold_left_grows, Forall_forall. intros e _ G'.
  apply DeadFunctionIdentifier_visit_expr_grows.
Qed.

(** The statements of a list are visited in turn; the edges added leave the
    current function or a function defined in the list. *)
Lemma DeadFunctionIdentifier_visit_stmts_grows_aux current_fn (body : list stmt) :
  Forall (λ s, ∀ c G, grows (cursor_name c :: FunctionDef_names s) G
                        (DeadFunctionIdentifier_visit_stmt c s G)) body →
  ∀ G, grows (cursor_name current_fn :: flat_map FunctionDef_names body) G
         (DeadFunctionIdentifier_visit_stmts current_fn body G).
Proof.
  unfold DeadFunctionIdentifier_visit_stmts.
  induction 1 as [|s body Hs _ IH]; intros G; cbn; [apply grows_refl|].
  eapply grows_trans.
  - eapply grows_weaken; [|apply (Hs current_fn)]. set_solver.
  - eapply grows_weaken; [|apply IH]. set_solver.
Qed.

Lemma DeadFunctionIdentifier_visit_stmt_grows current_fn node G :
  grows (cursor_name current_fn :: FunctionDef_names node) G
    (DeadFunctionIdentifier_visit_stmt current_fn node G).
Proof.
  revert current_fn G.
  induction node as [name body IH|v|ts v|t body orelse IHb IHo|v]
    using stmt_ind; intros current_fn G; cbn [DeadFunctionIdentifier_visit_stmt FunctionDef_names].
  - eapply grows_trans.
    + eapply grows_weaken; [|apply grows_add_node]. set_solver.
    + eapply grows_weaken;
        [|apply (DeadFunctionIdentifier_visit_stmts_grows_aux (InFunctionDef name) body IH)].
      cbn. set_solver.
  - destruct v as [v|]; [apply DeadFunctionIdentifier_visit_expr_grows|apply grows_refl].
  - eapply grows_trans; [apply DeadFunctionIdentifier_visit_exprs_grows|apply DeadFunctionIdentifier_visit_expr_grows].
  - eapply grows_trans; [|eapply grows_trans].
    + eapply grows_weaken; [|apply (DeadFunctionIdentifier_visit_expr_grows current_fn)].
      set_solver.
    + eapply grows_weaken;
        [|apply (DeadFunctionIdentifier_visit_stmts_grows_aux current_fn body IHb)].
      set_solver.
    + eapply grows_weaken;
        [|apply (DeadFunctionIdentifier_visit_stmts_grows_aux current_fn orelse IHo)].
      set_solver.
  - apply DeadFunctionIdentifier_visit_expr_grows.
Qed.

Lemma DeadFunctionIdentifier_visit_stmts_grows current_fn (body : list stmt) G :
  grows (cursor_name current_fn :: flat_map FunctionDef_names body) G
    (DeadFunctionIdentifier_visit_stmts current_fn body G).
Proof.
  apply DeadFunctionIdentifier_visit_stmts_grows_aux, Forall_forall. intros s _ c G'.
  apply DeadFunctionIdentifier_visit_stmt_grows.
Qed.

(** Every [FunctionDef] name of the tree is a node of the graph. *)
Lemma DeadFunctionIdentifier_visit_stmts_defs_aux current_fn (body : list stmt) :
  Forall (λ s, ∀ c G n, n ∈ FunctionDef_names s →
                 n ∈ nodes (DeadFunctionIdentifier_visit_stmt c s G)) body →
  ∀ G n, n ∈ flat_map FunctionDef_names body →
    n ∈ nodes (DeadFunctionIdentifier_visit_stmts current_fn body G).
Proof.
  unfold DeadFunctionIdentifier_visit_stmts.
  induction 1 as [|s body Hs _ IH]; intros G n; cbn; [by intros ?%elem_of_nil|].
  intros [Hn|Hn]%elem_of_app; [|by apply IH].
  apply (DeadFunctionIdentifier_visit_stmts_grows current_fn body). by apply Hs.
Qed.

Lemma DeadFunctionIdentifier_visit_stmt_defs current_fn node G n :
  n ∈ FunctionDef_names node → n ∈ nodes (DeadFunctionIdentifier_visit_stmt current_fn node G).
Proof.
  revert current_fn G n.
  induction node as [name body IH|v|ts v|t body orelse IHb IHo|v]
    using stmt_ind; intros current_fn G n;
    cbn [DeadFunctionIdentifier_visit_stmt FunctionDef_names]; try by intros ?%elem_of_nil.
  - intros [->|Hn]%elem_of_cons.
    + apply (DeadFunctionIdentifier_visit_stmts_grows (InFunctionDef name) body). cbn. set_solver.
    + by apply (DeadFunctionIdentifier_visit_stmts_defs_aux (InFunctionDef name) body IH).
  - intros [Hn|Hn]%elem_of_app.
    + apply (DeadFunctionIdentifier_visit_stmts_grows current_fn orelse).
      by apply (DeadFunctionIdentifier_visit_stmts_defs_aux current_fn body IHb).
    + by apply (DeadFunctionIdentifier_visit_stmts_defs_aux current_fn orelse IHo).
Qed.

Lemma call_graph_grows tree :
  grows ("start" :: defined tree) (add_node "start" empty_graph) (call_graph tree).
Proof. destruct tree as [body]. apply (DeadFunctionIdentifier_visit_stmts_grows AtStart). Qed.

Lemma call_graph_wf tree : graph_wf (call_graph tree).
Proof.
  apply call_graph_grows. intros a b He. unfold edge in He. cbn in He.
  set_solver.
Qed.

Lemma call_graph_start tree : "start" ∈ nodes (call_graph tree).
Proof. apply call_graph_grows. cbn. set_solver. Qed.

Lemma call_graph_defined tree n : n ∈ defined tree → n ∈ nodes (call_graph tree).
Proof.
  destruct tree as [body]. cbn. apply DeadFunctionIdentifier_visit_stmts_defs_aux, Forall_forall.
  intros s _ c G n'. apply DeadFunctionIdentifier_visit_stmt_defs.
Qed.

(** Calls are made by the entry or by a defined function. *)
Lemma calls_source tree a b : calls tree a b → a = "start" ∨ a ∈ defined tree.
Proof.
  intros He. destruct (call_graph_grows tree) as (_ & _ & _ & Hs).
  destruct (Hs a b He) as [H|H].
  - unfold edge in H. cbn in H. set_solver.
  - by apply elem_of_cons in H.
Qed.

Lemma elem_of_get_unreachable tree x :
  x ∈ get_unreachable tree ↔
    x ∈ nodes (call_graph tree) ∧ ¬ rtc (calls tree) "start" x.
Proof.
  unfold get_unreachable. cbn zeta. rewrite elem_of_difference.
  rewrite descendants_reachable
    by auto using call_graph_wf, call_graph_start.
  done.
Qed.

(** ** [FunctionEliminator] *)

(** [FunctionEliminator] has no method for expressions: every expression,
    and so every [Call], is returned as it is. *)
Lemma FunctionEliminator_visit_expr fns node :
  visit_expr (FunctionEliminator fns) node = OK node.
Proof.
  induction node as [l op r IHl IHr|op e IH|l ops cs IHl IHcs
    |f args IHf IHargs|v a c IH|v|id c] using expr_ind; cbn.
  - by rewrite IHl, IHr.
  - by rewrite IH.
  - by rewrite IHl, bind_OK, mapM_OK_id.
  - by rewrite IHf, bind_OK, mapM_OK_id.
  - by rewrite IH.
  - done.
  - done.
Qed.

Lemma FunctionEliminator_visit_exprs fns (l : list expr) :
  mapM (visit_expr (FunctionEliminator fns)) l = OK l.
Proof.
  apply mapM_OK_id, Forall_forall. intros e _.
  apply FunctionEliminator_visit_expr.
Qed.

Lemma FunctionEliminator_visit_stmt fns node :
  visit_stmt (FunctionEliminator fns) node = OK (delete_dead fns node).
Proof.
  induction node as [name body IH|v|ts v|t body orelse IHb IHo|v]
    using stmt_ind; cbn.
  - destruct (bool_decide (name ∈ fns)); [done|].
    by rewrite (visit_list_flat_map _ (delete_dead fns)).
  - destruct v as [v|]; [|done]. by rewrite FunctionEliminator_visit_expr.
  - by rewrite FunctionEliminator_visit_exprs, bind_OK,
      FunctionEliminator_visit_expr.
  - rewrite FunctionEliminator_visit_expr, bind_OK.
    rewrite (visit_list_flat_map _ (delete_dead fns) body) by done.
    by rewrite (visit_list_flat_map _ (delete_dead fns) orelse).
  - by rewrite FunctionEliminator_visit_expr.
Qed.

Lemma FunctionEliminator_visit fns body :
  visit (FunctionEliminator fns) (PyModule body) =
    OK (PyModule (flat_map (delete_dead fns) body)).
Proof.
  cbn. unfold visit_stmts.
  rewrite (visit_list_flat_map _ (delete_dead fns)); [done|].
  apply Forall_forall. intros s _. apply FunctionEliminator_visit_stmt.
Qed.

Lemma flat_map_singleton {A} (f : A → list A) (l : list A) :
  Forall (λ x, f x = [x]) l → flat_map f l = l.
Proof. induction 1 as [|x l Hx _ IH]; cbn; [done|]. by rewrite Hx, IH. Qed.

Lemma flat_map_nil_Forall {A B} (f : A → list B) (l : list A) :
  flat_map f l = [] → Forall (λ x, f x = []) l.
Proof.
  induction l as [|x l IH]; cbn; [constructor|].
  intros [? ?]%app_eq_nil. constructor; auto.
Qed.

(** A statement without function definitions is kept as it is. *)
Lemma delete_dead_no_defs dead node :
  no_defs node = true → delete_dead dead node = [node].
Proof.
  unfold no_defs. rewrite bool_decide_eq_true.
  induction node as [name body IH|v|ts v|t body orelse IHb IHo|v]
    using stmt_ind; cbn; try done.
  intros [Hb Ho]%app_eq_nil.
  rewrite !flat_map_singleton; [done|..].
  - exact (Forall_mp _ _ _ IHo (flat_map_nil_Forall _ _ Ho)).
  - exact (Forall_mp _ _ _ IHb (flat_map_nil_Forall _ _ Hb)).
Qed.

Lemma delete_dead_no_defs_list dead (body : list stmt) :
  forallb no_defs body = true → flat_map (delete_dead dead) body = body.
Proof.
  intros H%forallb_Forall_true. apply flat_map_singleton.
  eapply Forall_impl; [exact H|]. apply delete_dead_no_defs.
Qed.

(** With all the definitions at the top level, the pass filters the
    statements of the module. *)
Lemma delete_dead_top_level dead body :
  top_level_defs_only (PyModule body) = true →
  flat_map (delete_dead dead) body = filter (λ s, dead_def dead s = false) body.
Proof.
  unfold top_level_defs_only. induction body as [|s body IH]; [done|].
  cbn [forallb flat_map]. intros [Hs Hbody]%andb_prop.
  rewrite filter_cons, IH by done.
  destruct s as [name inner| | | |];
    try (rewrite delete_dead_no_defs by done; by rewrite decide_True).
  cbn [delete_dead dead_def]. destruct (bool_decide (name ∈ dead)).
  - by rewrite decide_False.
  - rewrite decide_True by done. by rewrite delete_dead_no_defs_list.
Qed.

Lemma elem_of_flat_map {A B} (f : A → list B) (l : list A) (x : B) :
  x ∈ flat_map f l ↔ ∃ y, x ∈ f y ∧ y ∈ l.
Proof.
  rewrite list_elem_of_In, in_flat_map. setoid_rewrite list_elem_of_In.
  naive_solver.
Qed.

(** A definition left in the output is one of the input and is not dead. *)
Lemma delete_dead_names dead node n :
  n ∈ flat_map FunctionDef_names (delete_dead dead node) →
  n ∈ FunctionDef_names node ∧ n ∉ dead.
Proof.
  revert n. induction node as [name body IH|v|ts v|t body orelse IHb IHo|v]
    using stmt_ind; intros n; cbn; try by intros ?%elem_of_nil.
  - case_bool_decide as Hd; cbn; [by intros ?%elem_of_nil|].
    rewrite app_nil_r.
    intros [->|Hn]%elem_of_cons; [split; [set_solver|done]|].
    apply elem_of_flat_map in Hn as (s' & Hn & Hs').
    apply elem_of_flat_map in Hs' as (s & Hs' & Hs).
    rewrite Forall_forall in IH.
    destruct (IH s Hs n) as [H1 H2]; [apply elem_of_flat_map; eauto|].
    split; [|done]. apply elem_of_cons. right.
    apply elem_of_flat_map. eauto.
  - rewrite app_nil_r. rewrite Forall_forall in IHb, IHo.
    intros [Hn|Hn]%elem_of_app;
      apply elem_of_flat_map in Hn as (s' & Hn & Hs');
      apply elem_of_flat_map in Hs' as (s & Hs' & Hs).
    + destruct (IHb s Hs n) as [H1 H2]; [apply elem_of_flat_map; eauto|].
      split; [|done]. apply elem_of_app. left. apply elem_of_flat_map. eauto.
    + destruct (IHo s Hs n) as [H1 H2]; [apply elem_of_flat_map; eauto|].
      split; [|done]. apply elem_of_app. right. apply elem_of_flat_map. eauto.
Qed.

Lemma delete_dead_names_list dead (body : list stmt) n :
  n ∈ flat_map FunctionDef_names (flat_map (delete_dead dead) body) →
  n ∈ flat_map FunctionDef_names body ∧ n ∉ dead.
Proof.
  intros (s' & Hn & Hs')%elem_of_flat_map.
  apply elem_of_flat_map in Hs' as (s & Hs' & Hs).
  destruct (delete_dead_names dead s n) as [H1 H2];
    [apply elem_of_flat_map; eauto|].
  split; [|done]. apply elem_of_flat_map. eauto.
Qed.

(** A defined function is deleted exactly when the entry does not reach it. *)
Lemma defined_unreachable tree name :
  name ∈ defined tree →
  name ∈ get_unreachable tree ↔ ¬ rtc (calls tree) "start" name.
Proof.
  intros Hd. rewrite elem_of_get_unreachable.
  split; [by intros [_ ?]|]. split; [by apply call_graph_defined|done].
Qed.

(** A set of names that is only called from inside itself and does not hold
    the entry is not reached. *)
Lemma closed_under_callers_unreachable tree (S : gset string) x :
  (∀ a b, calls tree a b → b ∈ S → a ∈ S) → "start" ∉ S →
  x ∈ S → ¬ rtc (calls tree) "start" x.
Proof.
  intros Hclosed Hstart Hx Hr. revert x Hr Hx.
  apply (rtc_ind_r (λ x, x ∈ S → False)); [done|].
  intros y z _ He IH Hz. eauto.
Qed.

(** Edges to names without a definition do not change what is reached. *)
Lemma reachable_calls_defined tree name :
  name ∈ defined tree ∨ name = "start" →
  rtc (calls tree) "start" name ↔ rtc (calls_defined tree) "start" name.
Proof.
  intros Hname. split.
  - intros Hr. revert name Hr Hname.
    apply (rtc_ind_r (λ z, z ∈ defined tree ∨ z = "start" →
                           rtc (calls_defined tree) "start" z)); [done|].
    intros y z _ He IH Hz. eapply rtc_r; [apply IH|by split].
    destruct (calls_source _ _ _ He); auto.
  - apply rtc_subrel. by intros a b [? _].
Qed.

(** ** The rules of the passes other than constant folding raise nothing *)

Lemma visit_BinOp_total self left op right :
  self ≠ ConstantFolder → ∃ node, visit_BinOp self left op right = OK node.
Proof. destruct self; cbn; eauto. done. Qed.

Lemma visit_expr_total self node :
  self ≠ ConstantFolder → ∃ node', visit_expr self node = OK node'.
Proof.
  intros Hself.
  induction node as [l op r [l' IHl] [r' IHr]|op e [e' IH]|l ops cs [l' IHl] IHcs
    |f args [f' IHf] IHargs|v a c [v' IH]|v|id c] using expr_ind; cbn.
  - rewrite IHl, IHr. cbn -[visit_BinOp]. by apply visit_BinOp_total.
  - rewrite IH. eauto.
  - rewrite IHl. destruct (mapM_total _ _ IHcs) as [cs' ->]. eauto.
  - rewrite IHf. destruct (mapM_total _ _ IHargs) as [args' ->]. eauto.
  - rewrite IH. eauto.
  - eauto.
  - eauto.
Qed.

Lemma visit_exprs_total self (l : list expr) :
  self ≠ ConstantFolder → ∃ l', mapM (visit_expr self) l = OK l'.
Proof.
  intros Hself. apply mapM_total, Forall_forall. intros e _.
  by apply visit_expr_total.
Qed.

Lemma visit_stmt_total self node :
  self ≠ ConstantFolder → ∃ nodes', visit_stmt self node = OK nodes'.
Proof.
  intros Hself.
  induction node as [name body IH|v|ts v|t body orelse IHb IHo|v]
    using stmt_ind; cbn.
  - destruct (drops_FunctionDef self name); [eauto|].
    destruct (visit_list_total _ _ IH) as [body' ->]. eauto.
  - destruct v as [v|]; [|eauto].
    destruct (visit_expr_total self v Hself) as [v' ->]. eauto.
  - destruct (visit_exprs_total self ts Hself) as [ts' ->].
    destruct (visit_expr_total self v Hself) as [v' ->]. eauto.
  - destruct (visit_expr_total self t Hself) as [t' ->].
    destruct (visit_list_total _ _ IHb) as [body' ->].
    destruct (visit_list_total _ _ IHo) as [orelse' ->]. eauto.
  - destruct (visit_expr_total self v Hself) as [v' ->]. eauto.
Qed.

Lemma visit_stmts_total self (body : list stmt) :
  self ≠ ConstantFolder → ∃ body', visit_stmts self body = OK body'.
Proof.
  intros Hself. apply visit_list_total, Forall_forall. intros s _.
  by apply visit_stmt_total.
Qed.

Lemma visit_total self tree :
  self ≠ ConstantFolder → ∃ tree', visit self tree = OK tree'.
Proof.
  intros Hself. destruct tree as [body]. cbn.
  destruct (visit_stmts_total self body Hself) as [body' ->]. eauto.
Qed.

(** ** Dead-branch elimination *)

(** [DeadBranchEliminator] has no method for expressions. *)
Lemma DeadBranchEliminator_visit_expr node :
  visit_expr DeadBranchEliminator node = OK node.
Proof.
  induction node as [l op r IHl IHr|op e IH|l ops cs IHl IHcs
    |f args IHf IHargs|v a c IH|v|id c] using expr_ind; cbn.
  - by rewrite IHl, IHr.
  - by rewrite IH.
  - by rewrite IHl, bind_OK, mapM_OK_id.
  - by rewrite IHf, bind_OK, mapM_OK_id.
  - by rewrite IH.
  - done.
  - done.
Qed.

Lemma DeadBranchEliminator_visit_exprs (l : list expr) :
  mapM (visit_expr DeadBranchEliminator) l = OK l.
Proof.
  apply mapM_OK_id, Forall_forall. intros e _.
  apply DeadBranchEliminator_visit_expr.
Qed.

Lemma DeadBranchEliminator_visit_If_stmt test body orelse :
  visit_stmt DeadBranchEliminator (If test body orelse) =
    (body' ← visit_stmts DeadBranchEliminator body;
     orelse' ← visit_stmts DeadBranchEliminator orelse;
     OK (DeadBranchEliminator_visit_If test body' orelse')).
Proof. cbn. by rewrite DeadBranchEliminator_visit_expr. Qed.

(** The pass computes the rule of the specification on every statement. *)
Lemma DeadBranchEliminator_visit_stmt_prune node :
  visit_stmt DeadBranchEliminator node = OK (prune node).
Proof.
  induction node as [name body IH|v|ts v|t body orelse IHb IHo|v]
    using stmt_ind; cbn.
  - by rewrite (visit_list_flat_map _ prune body IH).
  - destruct v as [v|]; [|done]. by rewrite DeadBranchEliminator_visit_expr.
  - by rewrite DeadBranchEliminator_visit_exprs, bind_OK,
      DeadBranchEliminator_visit_expr.
  - rewrite DeadBranchEliminator_visit_expr, bind_OK.
    rewrite (visit_list_flat_map _ prune body IHb), bind_OK.
    rewrite (visit_list_flat_map _ prune orelse IHo), bind_OK.
    by destruct t.
  - by rewrite DeadBranchEliminator_visit_expr.
Qed.

Lemma DeadBranchEliminator_visit_stmts_prune (body : list stmt) :
  visit_stmts DeadBranchEliminator body = OK (flat_map prune body).
Proof.
  apply visit_list_flat_map, Forall_forall. intros s _.
  apply DeadBranchEliminator_visit_stmt_prune.
Qed.

Lemma forallb_flat_map {A B} (P : B → bool) (f : A → list B) (l : list A) :
  Forall (λ x, forallb P (f x) = true) l → forallb P (flat_map f l) = true.
Proof.
  induction 1 as [|x l Hx _ IH]; cbn; [done|]. by rewrite forallb_app, Hx, IH.
Qed.

(** No [If] with a constant test is left. *)
Lemma prune_no_constant_If node : forallb no_constant_If (prune node) = true.
Proof.
  induction node as [name body IH|v|ts v|t body orelse IHb IHo|v]
    using stmt_ind; cbn; try done.
  - by rewrite (forallb_flat_map _ _ _ IH).
  - pose proof (forallb_flat_map _ _ _ IHb) as Hb.
    pose proof (forallb_flat_map _ _ _ IHo) as Ho.
    destruct t as [| | | | |condition|]; cbn; rewrite ?Hb, ?Ho; try done.
    by destruct (truthy condition).
Qed.

Lemma DeadBranchEliminator_id_stmt node :
  no_constant_If node = true → visit_stmt DeadBranchEliminator node = OK [node].
Proof.
  induction node as [name body IH|v|ts v|t body orelse IHb IHo|v]
    using stmt_ind; cbn; intros H.
  - apply forallb_Forall_true in H.
    by rewrite (visit_list_id _ body) by exact (Forall_mp _ _ _ IH H).
  - destruct v as [v|]; [|done]. by rewrite DeadBranchEliminator_visit_expr.
  - by rewrite DeadBranchEliminator_visit_exprs, bind_OK,
      DeadBranchEliminator_visit_expr.
  - apply andb_prop in H as [H Ho]. apply andb_prop in H as [Ht Hb].
    apply forallb_Forall_true in Hb, Ho.
    rewrite DeadBranchEliminator_visit_expr, bind_OK.
    rewrite (visit_list_id _ body), bind_OK by exact (Forall_mp _ _ _ IHb Hb).
    rewrite (visit_list_id _ orelse), bind_OK by exact (Forall_mp _ _ _ IHo Ho).
    by destruct t.
  - by rewrite DeadBranchEliminator_visit_expr.
Qed.

Lemma DeadBranchEliminator_id_stmts (body : list stmt) :
  forallb no_constant_If body = true →
  visit_stmts DeadBranchEliminator body = OK body.
Proof.
  intros H%forallb_Forall_true. apply visit_list_id.
  eapply Forall_impl; [exact H|]. apply DeadBranchEliminator_id_stmt.
Qed.

(** ** Strength reduction *)

Lemma StrengthReducer_literal_rules left op right :
  plain left = true → plain right = true →
  StrengthReducer_visit_BinOp left op right = literal_rules left op right.
Proof.
  intros Hl Hr. unfold StrengthReducer_visit_BinOp.
  destruct op; cbn [operator_eqb andb]; try done;
    destruct left as [| | | | |[| |[|[[]|[]|]|]| |]|]; try done;
    destruct right as [| | | | |[| |[|[[]|[]|]|]| |]|]; try done.
Qed.

(** ** The store layer *)

Lemma bind_Done {A B} (m : M A) (k : A → M B) h h' a :
  m h = Done h' a → (m ≫= k) h = k a h'.
Proof. unfold mbind, M_bind. by intros ->. Qed.

Lemma bind_Raised {A B} (m : M A) (k : A → M B) h h' e :
  m h = Raised h' e → (m ≫= k) h = Raised h' e.
Proof. unfold mbind, M_bind. by intros ->. Qed.

Lemma refines_bind {A A' B B'} (m : M A) (k : A → M A') h (p : result B)
    (kp : B → result B') Q1 Q2 :
  refines m h p Q1 →
  (∀ h1 a b, Q1 h1 a b → refines (k a) h1 (kp b) Q2) →
  refines (m ≫= k) h (p ≫= kp) Q2.
Proof.
  destruct p as [b|e]; cbn.
  - intros (h1 & a & Hm & HQ) Hk. specialize (Hk h1 a b HQ).
    unfold refines in *. rewrite (bind_Done _ _ _ _ _ Hm).
    destruct (kp b); exact Hk.
  - intros (h1 & Hm) _. exists h1. by apply bind_Raised.
Qed.

Lemma refines_ret {A B} (a : A) (b : B) h (Q : heap → A → B → Prop) :
  Q h a b → refines (mret a) h (OK b) Q.
Proof. intros HQ. exists h, a. done. Qed.

Lemma refines_load {A B} (k : object → M A) h l obj (p : result B) Q :
  h !! l = Some obj → refines (k obj) h p Q → refines (load l ≫= k) h p Q.
Proof.
  intros Hl. assert (load l h = Done h obj) as Hload by (unfold load; by rewrite Hl).
  unfold refines. rewrite (bind_Done _ _ _ _ _ Hload). done.
Qed.

Lemma refines_store {A B} (k : unit → M A) h l obj (p : result B) Q :
  is_Some (h !! l) → refines (k ()) (<[l := obj]> h) p Q →
  refines (store l obj ≫= k) h p Q.
Proof.
  intros [o Hl].
  assert (store l obj h = Done (<[l := obj]> h) ()) as Hstore
    by (unfold store; by rewrite Hl).
  unfold refines. rewrite (bind_Done _ _ _ _ _ Hstore). done.
Qed.

(** *** Heaps that agree on a region *)

Lemma elem_of_below h k : k ∈ below h ↔ k < length h.
Proof. unfold below. rewrite elem_of_set_seq. lia. Qed.

Lemma elem_of_fresh h h' k : k ∈ fresh h h' ↔ length h ≤ k < length h'.
Proof. unfold fresh. rewrite elem_of_set_seq. lia. Qed.

Lemma modifies_refl F h : modifies F h h.
Proof. by split. Qed.

Lemma modifies_trans F h1 h2 h3 :
  modifies F h1 h2 → modifies F h2 h3 → modifies F h1 h3.
Proof.
  intros [Hl1 H1] [Hl2 H2]. split; [lia|].
  intros k Hk HF. rewrite H2 by (done || lia). by apply H1.
Qed.

Lemma modifies_weaken F F' h h' : F ⊆ F' → modifies F h h' → modifies F' h h'.
Proof. intros Hsub [Hl H]. split; [done|]. intros k Hk HF. apply H; set_solver. Qed.

Lemma modifies_store F h l obj : l ∈ F → modifies F h (<[l := obj]> h).
Proof.
  intros Hl. split; [by rewrite length_insert|].
  intros k _ Hk. apply list_lookup_insert_ne. by intros ->.
Qed.

Lemma modifies_alloc F h obj : modifies F h (h ++ [obj]).
Proof.
  split; [rewrite length_app; lia|]. intros k Hk _. by apply lookup_app_l.
Qed.

Lemma modifies_length F h h' : modifies F h h' → length h ≤ length h'.
Proof. by intros [? _]. Qed.

(** *** Representation of trees *)

Lemma represents_list_frame {A} (R R' : A → loc → gset loc → Prop) (P : gset loc → Prop)
    (xs : list A) :
  (∀ F1 F2, P (F1 ∪ F2) → P F1 ∧ P F2) →
  Forall (λ x, ∀ l F, R x l F → P F → R' x l F) xs →
  ∀ ls F, represents_list R xs ls F → P F → represents_list R' xs ls F.
Proof.
  intros HP. induction 1 as [|x xs Hx _ IH]; intros [|l ls] F; cbn; try done.
  intros (F1 & F2 & H1 & H2 & Hdisj & ->) [HP1 HP2]%HP.
  exists F1, F2. split_and!; auto.
Qed.

Lemma represents_list_footprint {A} (R : A → loc → gset loc → Prop)
    (G : gset loc) (xs : list A) :
  Forall (λ x, ∀ l F, R x l F → F ⊆ G) xs →
  ∀ ls F, represents_list R xs ls F → F ⊆ G.
Proof.
  induction 1 as [|x xs Hx _ IH]; intros [|l ls] F; cbn; try done.
  - by intros ->.
  - intros (F1 & F2 & H1 & H2 & Hdisj & ->).
    apply union_least; eauto.
Qed.

Lemma represents_list_app {A} (R : A → loc → gset loc → Prop)
    (xs ys : list A) (ls ks : list loc) (F1 F2 : gset loc) :
  represents_list R xs ls F1 → represents_list R ys ks F2 → F1 ## F2 →
  represents_list R (xs ++ ys) (ls ++ ks) (F1 ∪ F2).
Proof.
  revert ls F1. induction xs as [|x xs IH]; intros [|l ls] F1; cbn; try done.
  - intros -> H2 _. by rewrite (left_id_L ∅ (∪)).
  - intros (Fx & Fxs & Hx & Hxs & Hdisj & ->) H2 Hdisj2.
    exists Fx, (Fxs ∪ F2). split_and!; [done| |set_solver|set_solver].
    apply IH; [done..|set_solver].
Qed.

Lemma represents_list_singleton {A} (R : A → loc → gset loc → Prop) x l F :
  R x l F → represents_list R [x] [l] F.
Proof.
  intros H. exists F, ∅. split_and!; [done..|set_solver|set_solver].
Qed.

Lemma agree_union h h' F1 F2 :
  agree h h' (F1 ∪ F2) → agree h h' F1 ∧ agree h h' F2.
Proof. unfold agree. intros H. split; intros k Hk; apply H; set_solver. Qed.

Lemma agree_lookup h h' F l obj :
  agree h h' F → l ∈ F → h !! l = Some obj → h' !! l = Some obj.
Proof. intros H Hl <-. by apply H. Qed.

Lemma represents_expr_frame h h' node l F :
  represents_expr h node l F → agree h h' F → represents_expr h' node l F.
Proof.
  revert l F. induction node as [x op y IHx IHy|op e IH|x ops cs IHx IHcs
    |f args IHf IHargs|v attr ctx IH|v|id ctx] using expr_ind; intros l F; cbn.
  - intros (a & b & Fa & Fb & Hl & Hx & Hy & Hdisj & Hnot & ->) Hagree.
    apply agree_union in Hagree as [Hagl [Haga Hagb]%agree_union].
    exists a, b, Fa, Fb. split_and!; eauto.
    eapply agree_lookup; [exact Hagl|set_solver|done].
  - intros (a & Fa & Hl & Ha & Hnot & ->) [Hagl Haga]%agree_union.
    exists a, Fa. split_and!; eauto.
    eapply agree_lookup; [exact Hagl|set_solver|done].
  - intros (a & bs & Fa & Fb & Hl & Hx & Hcs & Hdisj & Hnot & ->) Hagree.
    apply agree_union in Hagree as [Hagl [Haga Hagb]%agree_union].
    exists a, bs, Fa, Fb. split_and!; eauto.
    + eapply agree_lookup; [exact Hagl|set_solver|done].
    + eapply (represents_list_frame _ _ (agree h h'));
        [apply agree_union|exact IHcs|exact Hcs|exact Hagb].
  - intros (a & bs & Fa & Fb & Hl & Hx & Hcs & Hdisj & Hnot & ->) Hagree.
    apply agree_union in Hagree as [Hagl [Haga Hagb]%agree_union].
    exists a, bs, Fa, Fb. split_and!; eauto.
    + eapply agree_lookup; [exact Hagl|set_solver|done].
    + eapply (represents_list_frame _ _ (agree h h'));
        [apply agree_union|exact IHargs|exact Hcs|exact Hagb].
  - intros (a & Fa & Hl & Ha & Hnot & ->) [Hagl Haga]%agree_union.
    exists a, Fa. split_and!; eauto.
    eapply agree_lookup; [exact Hagl|set_solver|done].
  - intros [Hl ->] Hagree. split; [|done].
    eapply agree_lookup; [exact Hagree|set_solver|done].
  - intros [Hl ->] Hagree. split; [|done].
    eapply agree_lookup; [exact Hagree|set_solver|done].
Qed.

Lemma represents_exprs_frame h h' (xs : list expr) ls F :
  represents_list (represents_expr h) xs ls F → agree h h' F →
  represents_list (represents_expr h') xs ls F.
Proof.
  apply (represents_list_frame _ _ (agree h h')); [apply agree_union|].
  apply Forall_forall. intros x _ l F'. apply represents_expr_frame.
Qed.

Lemma represents_stmt_frame h h' node l F :
  represents_stmt h node l F → agree h h' F → represents_stmt h' node l F.
Proof.
  revert l F. induction node as [name body IH|v|ts v|t body orelse IHb IHo|v]
    using stmt_ind; intros l F; cbn.
  - intros (bs & Fb & Hl & Hb & Hnot & ->) [Hagl Hagb]%agree_union.
    exists bs, Fb. split_and!; eauto.
    + eapply agree_lookup; [exact Hagl|set_solver|done].
    + eapply (represents_list_frame _ _ (agree h h'));
        [apply agree_union|exact IH|exact Hb|exact Hagb].
  - destruct v as [v|].
    + intros (a & Fa & Hl & Ha & Hnot & ->) [Hagl Haga]%agree_union.
      exists a, Fa. split_and!; eauto using represents_expr_frame.
      eapply agree_lookup; [exact Hagl|set_solver|done].
    + intros [Hl ->] Hagree. split; [|done].
      eapply agree_lookup; [exact Hagree|set_solver|done].
  - intros (bs & a & Fb & Fa & Hl & Hts & Hv & Hdisj & Hnot & ->) Hagree.
    apply agree_union in Hagree as [Hagl [Hagb Haga]%agree_union].
    exists bs, a, Fb, Fa.
    split_and!; eauto using represents_expr_frame, represents_exprs_frame.
    eapply agree_lookup; [exact Hagl|set_solver|done].
  - intros (a & bs & cs & Fa & Fb & Fc & Hl & Ht & Hb & Ho & Hd1 & Hd2 & Hd3
            & Hnot & ->) Hagree.
    apply agree_union in Hagree as [Hagl [[Haga Hagb]%agree_union Hagc]%agree_union].
    exists a, bs, cs, Fa, Fb, Fc.
    split_and!; eauto using represents_expr_frame.
    + eapply agree_lookup; [exact Hagl|set_solver|done].
    + eapply (represents_list_frame _ _ (agree h h'));
        [apply agree_union|exact IHb|exact Hb|exact Hagb].
    + eapply (represents_list_frame _ _ (agree h h'));
        [apply agree_union|exact IHo|exact Ho|exact Hagc].
  - intros (a & Fa & Hl & Ha & Hnot & ->) [Hagl Haga]%agree_union.
    exists a, Fa. split_and!; eauto using represents_expr_frame.
    eapply agree_lookup; [exact Hagl|set_solver|done].
Qed.

Lemma represents_stmts_frame h h' (xs : list stmt) ls F :
  represents_list (represents_stmt h) xs ls F → agree h h' F →
  represents_list (represents_stmt h') xs ls F.
Proof.
  apply (represents_list_frame _ _ (agree h h')); [apply agree_union|].
  apply Forall_forall. intros x _ l F'. apply represents_stmt_frame.
Qed.

Lemma lookup_below (h : list object) l obj : h !! l = Some obj → l ∈ below h.
Proof. intros H%lookup_lt_Some. by apply elem_of_below. Qed.

Lemma represents_expr_below h node l F :
  represents_expr h node l F → F ⊆ below h.
Proof.
  revert l F. induction node as [x op y IHx IHy|op e IH|x ops cs IHx IHcs
    |f args IHf IHargs|v attr ctx IH|v|id ctx] using expr_ind; intros l F; cbn.
  - intros (a & b & Fa & Fb & Hl%lookup_below & Hx%IHx & Hy%IHy & _ & _ & ->).
    set_solver.
  - intros (a & Fa & Hl%lookup_below & Ha%IH & _ & ->). set_solver.
  - intros (a & bs & Fa & Fb & Hl%lookup_below & Hx%IHx & Hcs & _ & _ & ->).
    apply (represents_list_footprint _ (below h)) in Hcs; [set_solver|done].
  - intros (a & bs & Fa & Fb & Hl%lookup_below & Hx%IHf & Hcs & _ & _ & ->).
    apply (represents_list_footprint _ (below h)) in Hcs; [set_solver|done].
  - intros (a & Fa & Hl%lookup_below & Ha%IH & _ & ->). set_solver.
  - intros [Hl%lookup_below ->]. set_solver.
  - intros [Hl%lookup_below ->]. set_solver.
Qed.

Lemma represents_exprs_below h (xs : list expr) ls F :
  represents_list (represents_expr h) xs ls F → F ⊆ below h.
Proof.
  apply represents_list_footprint, Forall_forall. intros x _ l F'.
  apply represents_expr_below.
Qed.

Lemma represents_stmt_below h node l F :
  represents_stmt h node l F → F ⊆ below h.
Proof.
  revert l F. induction node as [name body IH|v|ts v|t body orelse IHb IHo|v]
    using stmt_ind; intros l F; cbn.
  - intros (bs & Fb & Hl%lookup_below & Hb & _ & ->).
    apply (represents_list_footprint _ (below h)) in Hb; [set_solver|done].
  - destruct v as [v|].
    + intros (a & Fa & Hl%lookup_below & Ha%represents_expr_below & _ & ->).
      set_solver.
    + intros [Hl%lookup_below ->]. set_solver.
  - intros (bs & a & Fb & Fa & Hl%lookup_below & Hts%represents_exprs_below
            & Hv%represents_expr_below & _ & _ & ->).
    set_solver.
  - intros (a & bs & cs & Fa & Fb & Fc & Hl%lookup_below
            & Ht%represents_expr_below & Hb & Ho & _ & _ & _ & _ & ->).
    apply (represents_list_footprint _ (below h)) in Hb; [|done].
    apply (represents_list_footprint _ (below h)) in Ho; [|done].
    set_solver.
  - intros (a & Fa & Hl%lookup_below & Ha%represents_expr_below & _ & ->).
    set_solver.
Qed.

Lemma represents_stmts_below h (xs : list stmt) ls F :
  represents_list (represents_stmt h) xs ls F → F ⊆ below h.
Proof.
  apply represents_list_footprint, Forall_forall. intros x _ l F'.
  apply represents_stmt_below.
Qed.

#[global] Instance set_unfold_below (h : list object) k :
  SetUnfoldElemOf k (below h) (k < length h).
Proof. constructor. apply elem_of_below. Qed.

#[global] Instance set_unfold_fresh (h h' : list object) k :
  SetUnfoldElemOf k (fresh h h') (length h ≤ k < length h').
Proof. constructor. apply elem_of_fresh. Qed.

Lemma modifies_agree G F h h' :
  modifies G h h' → F ## G → F ⊆ below h → agree h h' F.
Proof.
  intros [_ H] Hdisj Hbelow k Hk. apply H; [|set_solver].
  apply elem_of_below. set_solver.
Qed.

Lemma agree_trans h1 h2 h3 F : agree h1 h2 F → agree h2 h3 F → agree h1 h3 F.
Proof. intros H1 H2 k Hk. by rewrite H2, H1. Qed.

(** Side conditions on regions: keep the facts about sets and lengths,
    unfold them at the element in question and decide the rest. *)
Ltac keep_regions :=
  repeat match goal with
  | H : ?T |- _ =>
      lazymatch T with
      | _ ⊆ _ => fail
      | _ ## _ => fail
      | _ ∈ _ => fail
      | _ ∉ _ => fail
      | _ ≤ _ => fail
      | _ < _ => fail
      | @eq nat _ _ => fail
      | _ => clear H
      end
  end.
Ltac instantiate_regions k :=
  repeat match goal with
  | H : ∀ x : nat, _ |- _ => specialize (H k)
  end.
Ltac regions :=
  keep_regions; set_unfold;
  lazymatch goal with
  | |- ∀ x, _ => let k := fresh "k" in intros k; instantiate_regions k
  | |- context [?k ∈ _] => instantiate_regions k
  | |- _ => idtac
  end;
  naive_solver lia.

(** *** Fields *)

Lemma node_field_refines self fuel node h l F :
  visit_expr_spec self fuel node → represents_expr h node l F →
  refines (node_field (store_visit self fuel) l) h (visit_expr self node)
    (returned represents_expr F h).
Proof.
  intros Hspec Hrep. specialize (Hspec h l F Hrep). unfold refines in *.
  destruct (visit_expr self node) as [node'|e].
  - destruct Hspec as (h' & v & Hrun & l' & -> & Hret).
    exists h', l'. split; [|done]. unfold node_field.
    by rewrite (bind_Done _ _ _ _ _ Hrun).
  - destruct Hspec as (h' & Hrun). exists h'. unfold node_field.
    by rewrite (bind_Raised _ _ _ _ _ Hrun).
Qed.

Lemma list_field_exprs_refines self fuel (xs : list expr) :
  Forall (visit_expr_spec self fuel) xs →
  ∀ h ls F, represents_list (represents_expr h) xs ls F →
    refines (list_field (store_visit self fuel) ls) h (mapM (visit_expr self) xs)
      (returned_list represents_expr F h).
Proof.
  induction 1 as [|x xs Hx _ IH]; intros h [|l ls] F; cbn [represents_list];
    try done.
  - intros ->. apply refines_ret. split; [apply modifies_refl|].
    exists ∅. split; [done|set_solver].
  - intros (F1 & F2 & H1 & H2 & Hdisj & ->).
    pose proof (represents_expr_below _ _ _ _ H1) as Hb1.
    pose proof (represents_exprs_below _ _ _ _ H2) as Hb2.
    cbn [list_field mapM].
    eapply refines_bind; [exact (Hx h l F1 H1)|].
    intros h1 v x' (l' & -> & Hmod1 & F1' & Hrep1 & Hsub1); cbn beta.
    pose proof (modifies_length _ _ _ Hmod1) as Hlen1.
    pose proof (represents_expr_below _ _ _ _ Hrep1) as Hb1'.
    eapply refines_bind.
    { apply (IH h1 ls F2). eapply represents_exprs_frame; [exact H2|].
      eapply modifies_agree; [exact Hmod1|set_solver|done]. }
    intros h2 ls' xs' (Hmod2 & F2' & Hrep2 & Hsub2); cbn beta.
    pose proof (modifies_length _ _ _ Hmod2) as Hlen2.
    apply refines_ret. split.
    + eapply modifies_trans; eapply modifies_weaken; [|exact Hmod1| |exact Hmod2];
        set_solver.
    + exists (F1' ∪ F2'). split; [|regions].
      exists F1', F2'. split_and!; [|done|regions|done].
      eapply represents_expr_frame; [exact Hrep1|].
      eapply modifies_agree; [exact Hmod2|regions|done].
Qed.

Lemma splice_value_nodes (v : value) (new_values : list nat) :
  match v with
  | VNone => new_values
  | VNode value' => value' :: new_values
  | VList values => values ++ new_values
  end = value_nodes v ++ new_values.
Proof. by destruct v. Qed.

Lemma list_field_stmts_refines self fuel (xs : list stmt) :
  Forall (visit_stmt_spec self fuel) xs →
  ∀ h ls F, represents_list (represents_stmt h) xs ls F →
    refines (list_field (store_visit self fuel) ls) h (visit_stmts self xs)
      (returned_list represents_stmt F h).
Proof.
  unfold visit_stmts.
  induction 1 as [|x xs Hx _ IH]; intros h [|l ls] F; cbn [represents_list];
    try done.
  - intros ->. apply refines_ret. split; [apply modifies_refl|].
    exists ∅. split; [done|set_solver].
  - intros (F1 & F2 & H1 & H2 & Hdisj & ->).
    pose proof (represents_stmt_below _ _ _ _ H1) as Hb1.
    pose proof (represents_stmts_below _ _ _ _ H2) as Hb2.
    cbn [list_field]. rewrite visit_list_cons.
    eapply refines_bind; [exact (Hx h l F1 H1)|].
    intros h1 v x' (Hmod1 & F1' & Hrep1 & Hsub1); cbn beta.
    pose proof (modifies_length _ _ _ Hmod1) as Hlen1.
    pose proof (represents_stmts_below _ _ _ _ Hrep1) as Hb1'.
    eapply refines_bind.
    { apply (IH h1 ls F2). eapply represents_stmts_frame; [exact H2|].
      eapply modifies_agree; [exact Hmod1|set_solver|done]. }
    intros h2 ls' xs' (Hmod2 & F2' & Hrep2 & Hsub2); cbn beta.
    pose proof (modifies_length _ _ _ Hmod2) as Hlen2.
    rewrite splice_value_nodes.
    apply refines_ret. split.
    + eapply modifies_trans; eapply modifies_weaken; [|exact Hmod1| |exact Hmod2];
        set_solver.
    + exists (F1' ∪ F2'). split; [|regions].
      apply represents_list_app; [|done|regions].
      eapply represents_stmts_frame; [exact Hrep1|].
      eapply modifies_agree; [exact Hmod2|regions|done].
Qed.

Lemma heights_Forall {A} (f : A → nat) (l : list A) (n : nat) :
  foldr Nat.max 0 (map f l) ≤ n → Forall (λ x, f x ≤ n) l.
Proof.
  induction l as [|x l IH]; cbn; [constructor|].
  intros H. constructor; [lia|apply IH; lia].
Qed.

(** *** The methods of the classes *)

Lemma represents_expr_object h node l F n :
  represents_expr h node l F →
  ∃ obj, h !! l = Some obj
    ∧ is_OConstant n obj = is_Constant n node
    ∧ match node with
      | Constant v => obj = OConstant v
      | _ => ∀ v, obj ≠ OConstant v
      end.
Proof.
  destruct node; cbn; intros H; decompose [ex and] H; subst; eauto.
Qed.

Lemma agree_alloc (h : list object) obj F : F ⊆ below h → agree h (h ++ [obj]) F.
Proof.
  intros HF k Hk. apply lookup_app_l. apply elem_of_below. set_solver.
Qed.

Lemma lookup_alloc (h : list object) obj : (h ++ [obj]) !! length h = Some obj.
Proof. by rewrite lookup_app_r, Nat.sub_diag. Qed.

Lemma length_alloc (h : list object) obj : length (h ++ [obj]) = S (length h).
Proof. rewrite length_app. cbn. lia. Qed.

Lemma store_ConstantFolder_visit_BinOp_redex node left op right h objl objr :
  h !! left = Some objl → h !! right = Some objr →
  store_ConstantFolder_visit_BinOp node left op right h =
    match objl, objr with
    | OConstant lv, OConstant rv =>
        if folds op then new_Constant (binop_eval op lv rv) h
        else Done h (VNode node)
    | _, _ => Done h (VNode node)
    end.
Proof.
  intros Hl Hr. unfold store_ConstantFolder_visit_BinOp.
  assert (load left h = Done h objl) as Hloadl by (unfold load; by rewrite Hl).
  assert (load right h = Done h objr) as Hloadr by (unfold load; by rewrite Hr).
  rewrite (bind_Done _ _ _ _ _ Hloadl), (bind_Done _ _ _ _ _ Hloadr).
  destruct objl, op, objr; reflexivity.
Qed.

Lemma store_StrengthReducer_visit_BinOp_loaded node left op right h objl objr :
  h !! left = Some objl → h !! right = Some objr →
  store_StrengthReducer_visit_BinOp node left op right h =
    (if operator_eqb op Mod && is_OConstant 2 objr then
       one ← alloc (OConstant (CInt 1));
       new ← alloc (OBinOp left BitAnd one);
       mret (VNode new)
     else if operator_eqb op Add && is_OConstant 0 objl then mret (VNode right)
     else if operator_eqb op Add && is_OConstant 0 objr then mret (VNode left)
     else if operator_eqb op Mult && is_OConstant 1 objl then mret (VNode right)
     else if operator_eqb op Mult && is_OConstant 1 objr then mret (VNode left)
     else if operator_eqb op Sub && is_OConstant 0 objl then
       new ← alloc (OUnaryOp USub right);
       mret (VNode new)
     else mret (VNode node)) h.
Proof.
  intros Hl Hr. unfold store_StrengthReducer_visit_BinOp.
  assert (load left h = Done h objl) as Hloadl by (unfold load; by rewrite Hl).
  assert (load right h = Done h objr) as Hloadr by (unfold load; by rewrite Hr).
  by rewrite (bind_Done _ _ _ _ _ Hloadl), (bind_Done _ _ _ _ _ Hloadr).
Qed.

Section BinOp.
Context (h0 h : list object) (F Fa Fb : gset nat) (l a b : nat) (op : operator)
  (x y : expr).
Hypothesis Hmod : modifies F h0 h.
Hypothesis HlF : l ∈ F.
Hypothesis Hl : h !! l = Some (OBinOp a op b).
Hypothesis Hx : represents_expr h x a Fa.
Hypothesis Hy : represents_expr h y b Fb.
Hypothesis Hdisj : Fa ## Fb.
Hypothesis Hnot : l ∉ Fa ∪ Fb.
Hypothesis Hsub : Fa ∪ Fb ⊆ F ∪ fresh h0 h.

Lemma returned_node : returned represents_expr F h0 h l (BinOp x op y).
Proof.
  split; [done|]. exists ({[l]} ∪ (Fa ∪ Fb)). split; [|set_solver].
  exists a, b, Fa, Fb. done.
Qed.

Lemma returned_left : returned represents_expr F h0 h a x.
Proof. split; [done|]. exists Fa. split; [done|set_solver]. Qed.

Lemma returned_right : returned represents_expr F h0 h b y.
Proof. split; [done|]. exists Fb. split; [done|set_solver]. Qed.

Lemma returned_Constant v :
  returned represents_expr F h0 (h ++ [OConstant v]) (length h) (Constant v).
Proof.
  pose proof (modifies_length _ _ _ Hmod) as Hlen.
  pose proof (length_alloc h (OConstant v)) as Hlen'.
  split; [eapply modifies_trans; [exact Hmod|apply modifies_alloc]|].
  exists {[length h]}. split; [|regions].
  split; [apply lookup_alloc|done].
Qed.

Lemma returned_UnaryOp :
  returned represents_expr F h0 (h ++ [OUnaryOp USub b]) (length h) (UnaryOp USub y).
Proof.
  pose proof (modifies_length _ _ _ Hmod) as Hlen.
  pose proof (length_alloc h (OUnaryOp USub b)) as Hlen'.
  pose proof (represents_expr_below _ _ _ _ Hy) as Hby.
  split; [eapply modifies_trans; [exact Hmod|apply modifies_alloc]|].
  exists ({[length h]} ∪ Fb). split; [|regions].
  exists b, Fb. split_and!; [apply lookup_alloc| |regions|done].
  eapply represents_expr_frame; [exact Hy|by apply agree_alloc].
Qed.

Lemma returned_BitAnd :
  returned represents_expr F h0
    ((h ++ [OConstant (CInt 1)]) ++ [OBinOp a BitAnd (length h)])
    (length (h ++ [OConstant (CInt 1)])) (BinOp x BitAnd (Constant (CInt 1))).
Proof.
  pose proof (modifies_length _ _ _ Hmod) as Hlen.
  pose proof (length_alloc h (OConstant (CInt 1))) as Hlen1.
  pose proof (length_alloc (h ++ [OConstant (CInt 1)]) (OBinOp a BitAnd (length h)))
    as Hlen2.
  pose proof (represents_expr_below _ _ _ _ Hx) as Hbx.
  split.
  { eapply modifies_trans; [exact Hmod|].
    eapply modifies_trans; apply modifies_alloc. }
  exists ({[length (h ++ [OConstant (CInt 1)])]} ∪ (Fa ∪ {[length h]})).
  split; [|regions].
  exists a, (length h), Fa, {[length h]}.
  split_and!; [apply lookup_alloc| | |regions|regions|done].
  - eapply represents_expr_frame; [exact Hx|].
    eapply agree_trans; apply agree_alloc; regions.
  - split; [|done]. rewrite lookup_app_l by lia. apply lookup_alloc.
Qed.

End BinOp.

Lemma store_visit_BinOp_refines self h0 h F Fa Fb l a b op x y :
  modifies F h0 h → l ∈ F → h !! l = Some (OBinOp a op b) →
  represents_expr h x a Fa → represents_expr h y b Fb →
  Fa ## Fb → l ∉ Fa ∪ Fb → Fa ∪ Fb ⊆ F ∪ fresh h0 h →
  refines (store_visit_BinOp self l a op b) h (visit_BinOp self x op y)
    (λ h' v node', ∃ l', v = VNode l' ∧ returned represents_expr F h0 h' l' node').
Proof.
  intros Hmod HlF Hl Hx Hy Hdisj Hnot Hsub.
  destruct self as [| | |fns]; cbn [store_visit_BinOp visit_BinOp];
    try (apply refines_ret; eauto using returned_node).
  - destruct (represents_expr_object _ _ _ _ 0 Hx) as (objl & Hobjl & _ & Hcl).
    destruct (represents_expr_object _ _ _ _ 0 Hy) as (objr & Hobjr & _ & Hcr).
    unfold refines.
    rewrite (store_ConstantFolder_visit_BinOp_redex _ _ _ _ _ _ _ Hobjl Hobjr).
    rewrite ConstantFolder_visit_BinOp_redex.
    assert (∃ h' v, Done h (VNode l) = Done h' v
              ∧ ∃ l', v = VNode l' ∧ returned represents_expr F h0 h' l' (BinOp x op y))
      as Hdefault by eauto 10 using returned_node.
    destruct x as [| | | | |lv|];
      try (destruct objl; first [exact Hdefault|exfalso; by eapply Hcl]).
    subst objl.
    destruct y as [| | | | |rv|];
      try (destruct objr; first [exact Hdefault|exfalso; by eapply Hcr]).
    subst objr.
    destruct (folds op); [|done].
    destruct (binop_eval op lv rv) as [v|e]; cbn.
    + eauto 10 using returned_Constant.
    + eauto.
  - destruct (represents_expr_object _ _ _ _ 0 Hx) as (objl & Hobjl & Hl0 & _).
    destruct (represents_expr_object _ _ _ _ 1 Hx) as (? & ? & Hl1 & _).
    destruct (represents_expr_object _ _ _ _ 0 Hy) as (objr & Hobjr & Hr0 & _).
    destruct (represents_expr_object _ _ _ _ 1 Hy) as (? & ? & Hr1 & _).
    destruct (represents_expr_object _ _ _ _ 2 Hy) as (? & ? & Hr2 & _).
    simplify_eq.
    unfold refines, StrengthReducer_visit_BinOp.
    rewrite (store_StrengthReducer_visit_BinOp_loaded _ _ _ _ _ _ _ Hobjl Hobjr).
    rewrite Hl0, Hl1, Hr0, Hr1, Hr2.
    repeat case_match;
      eauto 10 using returned_node, returned_left, returned_right,
        returned_UnaryOp, returned_BitAnd.
Qed.


Lemma refines_store_next {A B} (k : unit → M A) (h : list object) l obj
    (p : result B) Q :
  l ∈ below h →
  (∀ h', modifies {[l]} h h' → length h' = length h → h' !! l = Some obj →
     refines (k ()) h' p Q) →
  refines (store l obj ≫= k) h p Q.
Proof.
  intros Hl%elem_of_below Hk.
  apply refines_store; [by apply lookup_lt_is_Some|].
  apply Hk.
  - apply modifies_store. set_solver.
  - apply length_insert.
  - by apply list_lookup_insert_eq.
Qed.

Lemma represents_expr_modifies G h h' node l F :
  represents_expr h node l F → modifies G h h' → F ## G →
  represents_expr h' node l F.
Proof.
  intros Hrep Hmod Hdisj. eapply represents_expr_frame; [exact Hrep|].
  eapply modifies_agree; eauto using represents_expr_below.
Qed.

Lemma represents_exprs_modifies G h h' (xs : list expr) ls F :
  represents_list (represents_expr h) xs ls F → modifies G h h' → F ## G →
  represents_list (represents_expr h') xs ls F.
Proof.
  intros Hrep Hmod Hdisj. eapply represents_exprs_frame; [exact Hrep|].
  eapply modifies_agree; eauto using represents_exprs_below.
Qed.

Lemma represents_stmts_modifies G h h' (xs : list stmt) ls F :
  represents_list (represents_stmt h) xs ls F → modifies G h h' → F ## G →
  represents_list (represents_stmt h') xs ls F.
Proof.
  intros Hrep Hmod Hdisj. eapply represents_stmts_frame; [exact Hrep|].
  eapply modifies_agree; eauto using represents_stmts_below.
Qed.

(** *** The traversal *)

Lemma modifies_step F G h1 h2 h3 :
  modifies F h1 h2 → modifies G h2 h3 → G ⊆ F → modifies F h1 h3.
Proof.
  intros H1 H2 Hsub. eapply modifies_trans; [exact H1|].
  eapply modifies_weaken; [exact Hsub|exact H2].
Qed.

(** The steps of [generic_visit] on an object, as steps of a proof.  [Hm]
    is the fact that the heap has so far only changed in the region of the
    node; the facts on the regions and lengths stay in the context, where
    [regions] finds them. *)
Ltac start Hl Hm :=
  lazymatch type of Hl with
  | ?h !! ?l = Some _ =>
      pose proof (lookup_below _ _ _ Hl);
      lazymatch goal with
      | |- context [returned _ ?F h] => pose proof (modifies_refl F h) as Hm
      | |- context [returned_list _ ?F h] => pose proof (modifies_refl F h) as Hm
      end;
      eapply refines_load; [exact Hl|]; cbn beta iota
  end.
Ltac advance Hm Hstep :=
  let H := fresh in
  pose proof (modifies_step _ _ _ _ _ Hm Hstep) as H;
  lazymatch type of H with
  | ?P → _ =>
      let Hsub := fresh in
      assert P as Hsub by regions; specialize (H Hsub); clear Hsub
  end;
  clear Hm; rename H into Hm.
Ltac carry_expr H Hstep :=
  eapply represents_expr_modifies in H; [|exact Hstep|regions].
Ltac carry_exprs H Hstep :=
  eapply represents_exprs_modifies in H; [|exact Hstep|regions].
Ltac carry_stmts H Hstep :=
  eapply represents_stmts_modifies in H; [|exact Hstep|regions].
Ltac visit_node spec Hrep h' a' x' Hmod F' Hrep' Hsub :=
  eapply refines_bind; [eapply node_field_refines; [spec|exact Hrep]|];
  intros h' a' x' (Hmod & F' & Hrep' & Hsub);
  pose proof (modifies_length _ _ _ Hmod);
  pose proof (represents_expr_below _ _ _ _ Hrep').
Ltac visit_exprs spec Hrep h' ls' xs' Hmod F' Hrep' Hsub :=
  eapply refines_bind; [eapply list_field_exprs_refines; [spec|exact Hrep]|];
  intros h' ls' xs' (Hmod & F' & Hrep' & Hsub);
  pose proof (modifies_length _ _ _ Hmod);
  pose proof (represents_exprs_below _ _ _ _ Hrep').
Ltac visit_body spec Hrep h' ls' xs' Hmod F' Hrep' Hsub :=
  eapply refines_bind; [eapply list_field_stmts_refines; [spec|exact Hrep]|];
  intros h' ls' xs' (Hmod & F' & Hrep' & Hsub);
  pose proof (modifies_length _ _ _ Hmod);
  pose proof (represents_stmts_below _ _ _ _ Hrep').
Ltac assign h' Hst Hl :=
  eapply refines_store_next; [regions|];
  let Hlen := fresh "Hlen" in intros h' Hst Hlen Hl.

Lemma children_spec {A} (spec : nat → A → Prop) (size : A → nat) (l : list A) fuel :
  Forall (λ x, ∀ fuel, size x ≤ fuel → spec fuel x) l →
  foldr Nat.max 0 (map size l) ≤ fuel →
  Forall (spec fuel) l.
Proof.
  intros IH Hsize%heights_Forall. apply (Forall_mp _ _ _ (Forall_impl _ _ _ IH
    (λ x Hx, Hx fuel)) Hsize).
Qed.

Lemma store_visit_expr_refines self node :
  ∀ fuel, height node ≤ fuel → visit_expr_spec self fuel node.
Proof.
  induction node as [x op y IHx IHy|op x IHx|x ops cs IHx IHcs
    |x cs IHx IHcs|x attr ctx IHx|v|id ctx] using expr_ind;
    intros [|fuel] Hfuel h l F Hrep; cbn in Hfuel; try lia;
    cbn [store_visit visit_expr]; cbn zeta.
  - (* BinOp *)
    destruct Hrep as (a & b & Fa & Fb & Hl & Hx & Hy & Hdisj & Hnot & ->).
    pose proof (represents_expr_below _ _ _ _ Hx).
    pose proof (represents_expr_below _ _ _ _ Hy).
    start Hl Hm.
    visit_node ltac:(apply IHx; lia) Hx h1 a' x' Hmod1 Fa' Hx' Hsub1.
    advance Hm Hmod1. carry_expr Hy Hmod1.
    assign h1' Hst1 Hl1.
    advance Hm Hst1. carry_expr Hx' Hst1. carry_expr Hy Hst1.
    visit_node ltac:(apply IHy; lia) Hy h2 b' y' Hmod2 Fb' Hy' Hsub2.
    advance Hm Hmod2. carry_expr Hx' Hmod2.
    assign h2' Hst2 Hl2.
    advance Hm Hst2. carry_expr Hx' Hst2. carry_expr Hy' Hst2.
    eapply (store_visit_BinOp_refines self h h2' _ Fa' Fb');
      [exact Hm|regions|exact Hl2|exact Hx'|exact Hy'|regions|regions|regions].
  - (* UnaryOp *)
    destruct Hrep as (a & Fa & Hl & Hx & Hnot & ->).
    pose proof (represents_expr_below _ _ _ _ Hx).
    start Hl Hm.
    visit_node ltac:(apply IHx; lia) Hx h1 a' x' Hmod1 Fa' Hx' Hsub1.
    advance Hm Hmod1.
    assign h1' Hst1 Hl1.
    advance Hm Hst1. carry_expr Hx' Hst1.
    apply refines_ret. exists l. split; [done|]. split; [exact Hm|].
    exists ({[l]} ∪ Fa'). split; [|regions].
    exists a', Fa'. split_and!; [done|done|regions|done].
  - (* Compare *)
    destruct Hrep as (a & bs & Fa & Fb & Hl & Hx & Hcs & Hdisj & Hnot & ->).
    pose proof (represents_expr_below _ _ _ _ Hx).
    pose proof (represents_exprs_below _ _ _ _ Hcs).
    start Hl Hm.
    visit_node ltac:(apply IHx; lia) Hx h1 a' x' Hmod1 Fa' Hx' Hsub1.
    advance Hm Hmod1. carry_exprs Hcs Hmod1.
    assign h1' Hst1 Hl1.
    advance Hm Hst1. carry_expr Hx' Hst1. carry_exprs Hcs Hst1.
    visit_exprs ltac:(apply (children_spec _ height); [exact IHcs|lia])
      Hcs h2 bs' cs' Hmod2 Fb' Hcs' Hsub2.
    advance Hm Hmod2. carry_expr Hx' Hmod2.
    assign h2' Hst2 Hl2.
    advance Hm Hst2. carry_expr Hx' Hst2. carry_exprs Hcs' Hst2.
    apply refines_ret. exists l. split; [done|]. split; [exact Hm|].
    exists ({[l]} ∪ (Fa' ∪ Fb')). split; [|regions].
    exists a', bs', Fa', Fb'. split_and!; [done|done|done|regions|regions|done].
  - (* Call *)
    destruct Hrep as (a & bs & Fa & Fb & Hl & Hx & Hcs & Hdisj & Hnot & ->).
    pose proof (represents_expr_below _ _ _ _ Hx).
    pose proof (represents_exprs_below _ _ _ _ Hcs).
    start Hl Hm.
    visit_node ltac:(apply IHx; lia) Hx h1 a' x' Hmod1 Fa' Hx' Hsub1.
    advance Hm Hmod1. carry_exprs Hcs Hmod1.
    assign h1' Hst1 Hl1.
    advance Hm Hst1. carry_expr Hx' Hst1. carry_exprs Hcs Hst1.
    visit_exprs ltac:(apply (children_spec _ height); [exact IHcs|lia])
      Hcs h2 bs' cs' Hmod2 Fb' Hcs' Hsub2.
    advance Hm Hmod2. carry_expr Hx' Hmod2.
    assign h2' Hst2 Hl2.
    advance Hm Hst2. carry_expr Hx' Hst2. carry_exprs Hcs' Hst2.
    apply refines_ret. exists l. split; [done|]. split; [exact Hm|].
    exists ({[l]} ∪ (Fa' ∪ Fb')). split; [|regions].
    exists a', bs', Fa', Fb'. split_and!; [done|done|done|regions|regions|done].
  - (* Attribute *)
    destruct Hrep as (a & Fa & Hl & Hx & Hnot & ->).
    pose proof (represents_expr_below _ _ _ _ Hx).
    start Hl Hm.
    visit_node ltac:(apply IHx; lia) Hx h1 a' x' Hmod1 Fa' Hx' Hsub1.
    advance Hm Hmod1.
    assign h1' Hst1 Hl1.
    advance Hm Hst1. carry_expr Hx' Hst1.
    apply refines_ret. exists l. split; [done|]. split; [exact Hm|].
    exists ({[l]} ∪ Fa'). split; [|regions].
    exists a', Fa'. split_and!; [done|done|regions|done].
  - (* Constant *)
    destruct Hrep as [Hl ->]. start Hl Hm.
    apply refines_ret. exists l. split; [done|]. split; [exact Hm|].
    exists {[l]}. split; [done|regions].
  - (* Name *)
    destruct Hrep as [Hl ->]. start Hl Hm.
    apply refines_ret. exists l. split; [done|]. split; [exact Hm|].
    exists {[l]}. split; [done|regions].
Qed.

(** *** Statements *)

Lemma store_visit_If_refines self h0 h F Fa Fb Fc l a bs cs t body orelse :
  modifies F h0 h → l ∈ F → h !! l = Some (OIf a bs cs) →
  represents_expr h t a Fa →
  represents_list (represents_stmt h) body bs Fb →
  represents_list (represents_stmt h) orelse cs Fc →
  Fa ## Fb → Fa ## Fc → Fb ## Fc → l ∉ Fa ∪ Fb ∪ Fc →
  Fa ∪ Fb ∪ Fc ⊆ F ∪ fresh h0 h →
  refines (store_visit_If self l a bs cs) h (OK (visit_If self t body orelse))
    (λ h' v nodes', returned_list represents_stmt F h0 h' (value_nodes v) nodes').
Proof.
  intros Hmod HlF Hl Ht Hb Ho Hd1 Hd2 Hd3 Hnot Hsub.
  assert (returned_list represents_stmt F h0 h [l] [If t body orelse]) as Hnode.
  { split; [done|]. exists ({[l]} ∪ (Fa ∪ Fb ∪ Fc)). split; [|set_solver].
    apply represents_list_singleton. exists a, bs, cs, Fa, Fb, Fc. done. }
  destruct self as [| | |fns]; cbn [store_visit_If visit_If];
    try (by apply refines_ret).
  destruct (represents_expr_object _ _ _ _ 0 Ht) as (obj & Hobj & _ & Hc).
  unfold store_DeadBranchEliminator_visit_If.
  eapply refines_load; [exact Hobj|].
  destruct t as [| | | | |condition|]; cbn [DeadBranchEliminator_visit_If];
    try (destruct obj; first [by apply refines_ret|exfalso; by eapply Hc]).
  subst obj. apply refines_ret. cbn [value_nodes]. split; [done|].
  destruct (truthy condition); [exists Fb|exists Fc]; (split; [done|set_solver]).
Qed.

Lemma store_visit_stmt_refines self node :
  ∀ fuel, height_stmt node ≤ fuel → visit_stmt_spec self fuel node.
Proof.
  induction node as [name body IH|v|ts v|t body orelse IHb IHo|v]
    using stmt_ind;
    intros [|fuel] Hfuel h l F Hrep; cbn in Hfuel; try lia;
    cbn [store_visit visit_stmt]; cbn zeta.
  - (* FunctionDef *)
    destruct Hrep as (bs & Fb & Hl & Hb & Hnot & ->).
    pose proof (represents_stmts_below _ _ _ _ Hb).
    start Hl Hm.
    destruct (drops_FunctionDef self name).
    { apply refines_ret. split; [exact Hm|]. exists ∅. split; [done|regions]. }
    visit_body ltac:(apply (children_spec _ height_stmt); [exact IH|lia])
      Hb h1 bs' body' Hmod1 Fb' Hb' Hsub1.
    advance Hm Hmod1.
    assign h1' Hst1 Hl1.
    advance Hm Hst1. carry_stmts Hb' Hst1.
    apply refines_ret. split; [exact Hm|].
    exists ({[l]} ∪ Fb'). split; [|regions].
    apply represents_list_singleton.
    exists bs', Fb'. split_and!; [done|done|regions|done].
  - (* Return *)
    destruct v as [v|]; cbn in Hfuel.
    + destruct Hrep as (a & Fa & Hl & Hv & Hnot & ->).
      pose proof (represents_expr_below _ _ _ _ Hv).
      start Hl Hm.
      visit_node ltac:(apply store_visit_expr_refines; lia)
        Hv h1 a' v' Hmod1 Fa' Hv' Hsub1.
      advance Hm Hmod1.
      assign h1' Hst1 Hl1.
      advance Hm Hst1. carry_expr Hv' Hst1.
      apply refines_ret. split; [exact Hm|].
      exists ({[l]} ∪ Fa'). split; [|regions].
      apply represents_list_singleton.
      exists a', Fa'. split_and!; [done|done|regions|done].
    + destruct Hrep as [Hl ->]. start Hl Hm.
      apply refines_ret. split; [exact Hm|].
      exists {[l]}. split; [|regions]. by apply represents_list_singleton.
  - (* Assign *)
    destruct Hrep as (bs & a & Fb & Fa & Hl & Hts & Hv & Hdisj & Hnot & ->).
    pose proof (represents_exprs_below _ _ _ _ Hts).
    pose proof (represents_expr_below _ _ _ _ Hv).
    start Hl Hm.
    visit_exprs
      ltac:(apply (children_spec _ height);
            [apply Forall_forall; intros; by apply store_visit_expr_refines|lia])
      Hts h1 bs' ts' Hmod1 Fb' Hts' Hsub1.
    advance Hm Hmod1. carry_expr Hv Hmod1.
    assign h1' Hst1 Hl1.
    advance Hm Hst1. carry_exprs Hts' Hst1. carry_expr Hv Hst1.
    visit_node ltac:(apply store_visit_expr_refines; lia)
      Hv h2 a' v' Hmod2 Fa' Hv' Hsub2.
    advance Hm Hmod2. carry_exprs Hts' Hmod2.
    assign h2' Hst2 Hl2.
    advance Hm Hst2. carry_exprs Hts' Hst2. carry_expr Hv' Hst2.
    apply refines_ret. split; [exact Hm|].
    exists ({[l]} ∪ (Fb' ∪ Fa')). split; [|regions].
    apply represents_list_singleton. exists bs', a', Fb', Fa'.
    split_and!; [done|done|done|regions|regions|done].
  - (* If *)
    destruct Hrep as (a & bs & cs & Fa & Fb & Fc & Hl & Ht & Hb & Ho
                      & Hd1 & Hd2 & Hd3 & Hnot & ->).
    pose proof (represents_expr_below _ _ _ _ Ht).
    pose proof (represents_stmts_below _ _ _ _ Hb).
    pose proof (represents_stmts_below _ _ _ _ Ho).
    start Hl Hm.
    visit_node ltac:(apply store_visit_expr_refines; lia)
      Ht h1 a' t' Hmod1 Fa' Ht' Hsub1.
    advance Hm Hmod1. carry_stmts Hb Hmod1. carry_stmts Ho Hmod1.
    assign h1' Hst1 Hl1.
    advance Hm Hst1. carry_expr Ht' Hst1. carry_stmts Hb Hst1. carry_stmts Ho Hst1.
    visit_body ltac:(apply (children_spec _ height_stmt); [exact IHb|lia])
      Hb h2 bs' body' Hmod2 Fb' Hb' Hsub2.
    advance Hm Hmod2. carry_expr Ht' Hmod2. carry_stmts Ho Hmod2.
    assign h2' Hst2 Hl2.
    advance Hm Hst2. carry_expr Ht' Hst2. carry_stmts Hb' Hst2. carry_stmts Ho Hst2.
    visit_body ltac:(apply (children_spec _ height_stmt); [exact IHo|lia])
      Ho h3 cs' orelse' Hmod3 Fc' Ho' Hsub3.
    advance Hm Hmod3. carry_expr Ht' Hmod3. carry_stmts Hb' Hmod3.
    assign h3' Hst3 Hl3.
    advance Hm Hst3. carry_expr Ht' Hst3. carry_stmts Hb' Hst3. carry_stmts Ho' Hst3.
    eapply (store_visit_If_refines self h h3' _ Fa' Fb' Fc');
      [exact Hm|regions|exact Hl3|exact Ht'|exact Hb'|exact Ho'
       |regions|regions|regions|regions|regions].
  - (* Expr *)
    destruct Hrep as (a & Fa & Hl & Hv & Hnot & ->).
    pose proof (represents_expr_below _ _ _ _ Hv).
    start Hl Hm.
    visit_node ltac:(apply store_visit_expr_refines; lia)
      Hv h1 a' v' Hmod1 Fa' Hv' Hsub1.
    advance Hm Hmod1.
    assign h1' Hst1 Hl1.
    advance Hm Hst1. carry_expr Hv' Hst1.
    apply refines_ret. split; [exact Hm|].
    exists ({[l]} ∪ Fa'). split; [|regions].
    apply represents_list_singleton.
    exists a', Fa'. split_and!; [done|done|regions|done].
Qed.

(** The [Module]: the same object is returned, with the rewritten body. *)
Lemma store_visit_module_refines self body fuel h root F :
  represents h (PyModule body) root F → height_module (PyModule body) ≤ fuel →
  refines (store_visit self fuel root) h (visit self (PyModule body))
    (λ h' v tree', v = VNode root ∧ modifies F h h'
                   ∧ ∃ F', represents h' tree' root F').
Proof.
  intros (bs & Fb & Hl & Hb & Hnot & ->) Hfuel.
  destruct fuel as [|fuel]; cbn in Hfuel; [lia|].
  pose proof (represents_stmts_below _ _ _ _ Hb).
  pose proof (lookup_below _ _ _ Hl).
  pose proof (modifies_refl ({[root]} ∪ Fb) h) as Hm.
  cbn [store_visit visit]; cbn zeta.
  eapply refines_load; [exact Hl|]. cbn beta iota.
  visit_body
    ltac:(apply (children_spec _ height_stmt);
          [apply Forall_forall; intros; by apply store_visit_stmt_refines|lia])
    Hb h1 bs' body' Hmod1 Fb' Hb' Hsub1.
  advance Hm Hmod1.
  assign h1' Hst1 Hl1.
  advance Hm Hst1. carry_stmts Hb' Hst1.
  apply refines_ret. split; [done|]. split; [exact Hm|].
  exists ({[root]} ∪ Fb'), bs', Fb'. split_and!; [done|done|regions|done].
Qed.

(** * The claims *)

(** ** Dead-function elimination *)

(** C1, as amended.  In a module that defines no function named ["start"],
    dead-function elimination returns the module without the [FunctionDef]
    statements whose name is in [dead], together with everything inside them,
    and with every other node as it was; a defined name is in [dead] exactly
    when it is not reachable from the entry node ["start"] of the call graph;
    when every [FunctionDef] is at the top level the output is the input
    filtered by that test.  In scenario 4 the output keeps [h], [main] and the
    top-level call and drops [f] and [g]. *)
Theorem dead_function_elimination :
  (∀ body : list stmt,
     "start" ∉ defined (PyModule body) →
     let dead := get_unreachable (PyModule body) in
     DeadFunctionEliminator_visit (PyModule body) =
       OK (PyModule (flat_map (delete_dead dead) body))
     ∧ (∀ name, name ∈ defined (PyModule body) →
          name ∈ dead ↔ ¬ rtc (calls (PyModule body)) "start" name)
     ∧ (top_level_defs_only (PyModule body) = true →
          DeadFunctionEliminator_visit (PyModule body) =
            OK (PyModule (filter (λ s, dead_def dead s = false) body))))
  ∧ DeadFunctionEliminator_visit dc_scenario =
      OK (PyModule [FunctionDef "h" [Return None];
                    FunctionDef "main" [call "h"];
                    call "main"]).
Proof.
  split; [|vm_compute; reflexivity].
  intros body _ dead. split_and!.
  - apply FunctionEliminator_visit.
  - intros name. apply defined_unreachable.
  - intros Htop. rewrite <- (delete_dead_top_level dead body Htop).
    apply FunctionEliminator_visit.
Qed.

Lemma dead_function_elimination_witness :
  ("start" ∉ defined (PyModule dc_scenario_body))
  ∧ DeadFunctionEliminator_visit (PyModule dc_scenario_body) =
      OK (PyModule
            (filter (λ s, dead_def (get_unreachable (PyModule dc_scenario_body)) s
                          = false) dc_scenario_body)).
Proof.
  assert ("start" ∉ defined (PyModule dc_scenario_body)) as Hstart.
  { apply (bool_decide_unpack _). vm_compute. reflexivity. }
  split; [exact Hstart|].
  destruct (proj1 dead_function_elimination dc_scenario_body Hstart)
    as (_ & _ & Hfilter).
  apply Hfilter. reflexivity.
Defined.

(** C1 as stated fails: in [nested_code] the name [helper] is not in
    [dead], yet of the two [FunctionDef helper] statements of the input only
    one is left: the one inside the dead function [unused] is deleted with
    it. *)
Lemma dead_function_elimination_counterexample :
  ("helper" ∉ get_unreachable nested_code)
  ∧ defined nested_code = ["helper"; "unused"; "helper"]
  ∧ ∃ out, DeadFunctionEliminator_visit nested_code = OK out
      ∧ defined out = ["helper"].
Proof.
  split; [|split; [reflexivity|]].
  - apply (bool_decide_unpack _). vm_compute. reflexivity.
  - eexists. split; [vm_compute; reflexivity|reflexivity].
Qed.

(** Functions that are only called from each other, and are not the entry
    node, are deleted: no definition of theirs is left in the output, while
    a top-level definition that the entry calls is kept. *)
Lemma unreached_functions_deleted (body : list stmt) (S : gset string) f f_body :
  (∀ a b, calls (PyModule body) a b → b ∈ S → a ∈ S) →
  "start" ∉ S →
  (∀ n, n ∈ S → n ∈ defined (PyModule body)) →
  calls (PyModule body) "start" f →
  FunctionDef f f_body ∈ body →
  ∃ out, DeadFunctionEliminator_visit (PyModule body) = OK (PyModule out)
    ∧ (∀ n, n ∈ S → n ∉ defined (PyModule out))
    ∧ FunctionDef f (flat_map (delete_dead (get_unreachable (PyModule body))) f_body)
        ∈ out.
Proof.
  intros Hclosed Hstart Hdef Hf Hin. eexists. split_and!.
  - apply FunctionEliminator_visit.
  - intros n Hn Hout. apply delete_dead_names_list in Hout as [_ Hout].
    apply Hout, defined_unreachable; [by apply Hdef|].
    by apply (closed_under_callers_unreachable _ S).
  - apply elem_of_flat_map. exists (FunctionDef f f_body). split; [|done].
    cbn. rewrite bool_decide_eq_false_2; [by apply list_elem_of_singleton|].
    rewrite elem_of_get_unreachable. intros [_ Hn]. apply Hn.
    by apply rtc_once.
Qed.

(** The scenario of the specification: [g] and [h] call each other, [f] is
    called from the top level. *)
Lemma mutual_recursion_deleted :
  DeadFunctionEliminator_visit (mutual_code "g" "h") =
    OK (PyModule [FunctionDef "f" [Return None]; call "f"]).
Proof. vm_compute. reflexivity. Qed.

(** [dc_code] of the notebook: [h] calls [g], so only [f] is deleted. *)
Lemma dc_code_deleted :
  DeadFunctionEliminator_visit dc_code =
    OK (PyModule [FunctionDef "h" [call "g"]; FunctionDef "g" [call "h"];
                  FunctionDef "main" [call "h"]; call "main"]).
Proof. vm_compute. reflexivity. Qed.

(** C2 fails on the code when one of the two functions is named ["start"],
    the name of the entry node of the graph: the calls made by the function
    [start] are recorded as calls of the entry, so [start] and [h], which
    only call each other, are both kept (nothing is deleted). *)
Theorem mutual_recursion_start_kept :
  get_unreachable (mutual_code "start" "h") = ∅
  ∧ calls (mutual_code "start" "h") "start" "h"
  ∧ DeadFunctionEliminator_visit (mutual_code "start" "h") =
      OK (mutual_code "start" "h").
Proof.
  split_and!.
  - apply set_eq. intros x. split; [|by intros ?%not_elem_of_empty].
    intros Hx%elem_of_elements. vm_compute in Hx. by apply elem_of_nil in Hx.
  - unfold calls. apply (bool_decide_unpack _). vm_compute. reflexivity.
  - vm_compute. reflexivity.
Qed.

(** C10, as amended.  Dead-function elimination deletes [FunctionDef]
    statements only, each with all that is inside it: the module it returns
    is the input without the [FunctionDef]s named in [dead], every other
    statement and every expression as it was.  So a [Call] of a name without
    a [FunctionDef] is in the output untouched unless it lies inside a
    deleted [FunctionDef]: a top-level statement without definitions is in
    the output as it is, and so is a function that is not dead, with its
    body, calls of undefined names included.  Such a call changes nothing
    about which defined functions are deleted: they are those the entry does
    not reach through calls of defined functions alone. *)
Theorem undefined_callee_ignored :
  (∀ body,
     DeadFunctionEliminator_visit (PyModule body) =
       OK (PyModule (flat_map (delete_dead (get_unreachable (PyModule body)))
                       body)))
  ∧ (∀ fns node, visit_expr (FunctionEliminator fns) node = OK node)
  ∧ (∀ fns node, no_defs node = true →
       visit_stmt (FunctionEliminator fns) node = OK [node])
  ∧ (∀ body out s,
       DeadFunctionEliminator_visit (PyModule body) = OK (PyModule out) →
       s ∈ body → no_defs s = true → s ∈ out)
  ∧ (∀ body out name f_body,
       DeadFunctionEliminator_visit (PyModule body) = OK (PyModule out) →
       FunctionDef name f_body ∈ body →
       name ∉ get_unreachable (PyModule body) →
       forallb no_defs f_body = true →
       FunctionDef name f_body ∈ out)
  ∧ (∀ body name,
       name ∈ defined (PyModule body) →
       name ∈ get_unreachable (PyModule body) ↔
         ¬ rtc (calls_defined (PyModule body)) "start" name)
  ∧ DeadFunctionEliminator_visit undefined_code =
      OK (PyModule [FunctionDef "main" [Return None]; call "main"; call "absent"]).
Proof.
  split_and!.
  - intros body. apply FunctionEliminator_visit.
  - apply FunctionEliminator_visit_expr.
  - intros fns node Hnode.
    by rewrite FunctionEliminator_visit_stmt, delete_dead_no_defs.
  - intros body out s Hout Hs Hdefs.
    unfold DeadFunctionEliminator_visit in Hout.
    rewrite FunctionEliminator_visit in Hout. injection Hout as <-.
    apply elem_of_flat_map. exists s. split; [|done].
    rewrite delete_dead_no_defs by done. by apply list_elem_of_singleton.
  - intros body out name f_body Hout Hs Hlive Hdefs.
    unfold DeadFunctionEliminator_visit in Hout.
    rewrite FunctionEliminator_visit in Hout. injection Hout as <-.
    apply elem_of_flat_map. exists (FunctionDef name f_body). split; [|done].
    cbn. rewrite bool_decide_eq_false_2 by done.
    rewrite delete_dead_no_defs_list by done. by apply list_elem_of_singleton.
  - intros body name Hname.
    rewrite defined_unreachable, reachable_calls_defined by auto. done.
  - vm_compute. reflexivity.
Qed.

Lemma undefined_callee_ignored_witness :
  call "absent" ∈
    [FunctionDef "main" [Return None]; call "main"; call "absent"]
  ∧ ("unused" ∈ get_unreachable undefined_code ↔
       ¬ rtc (calls_defined undefined_code) "start" "unused").
Proof.
  destruct undefined_callee_ignored as (_ & _ & _ & Hkeep & _ & Hdead & Hout).
  split.
  - apply (Hkeep [FunctionDef "main" [Return None];
                  FunctionDef "unused" [call "missing"];
                  call "main"; call "absent"] _ (call "absent") Hout).
    + do 3 right. left.
    + reflexivity.
  - apply (Hdead _ "unused"). apply (bool_decide_unpack _). vm_compute. reflexivity.
Defined.

(** C10 as stated fails: in [undefined_code] the dead function [unused]
    calls [missing], a name without a [FunctionDef]; the call is deleted
    with [unused], and no call of [missing] is left in the output. *)
Lemma undefined_callee_ignored_counterexample :
  undefined_code =
    PyModule [FunctionDef "main" [Return None];
              FunctionDef "unused" [call "missing"];
              call "main"; call "absent"]
  ∧ ("missing" ∉ defined undefined_code)
  ∧ calls undefined_code "unused" "missing"
  ∧ ∃ out, DeadFunctionEliminator_visit undefined_code = OK out
      ∧ out = PyModule [FunctionDef "main" [Return None]; call "main"; call "absent"]
      ∧ ∀ caller, ¬ calls out caller "missing".
Proof.
  split_and!; [reflexivity| | |].
  - apply (bool_decide_unpack _). vm_compute. reflexivity.
  - unfold calls. apply (bool_decide_unpack _). vm_compute. reflexivity.
  - eexists. split; [vm_compute; reflexivity|]. split; [reflexivity|].
    intros caller Hc. unfold calls in Hc. apply elem_of_elements in Hc.
    vm_compute in Hc. set_solver.
Qed.

(** ** Constant folding *)

(** C3 fails on the code: folding a division whose right operand is the
    constant [0] raises, whatever the left operand, instead of returning a
    tree; on the module [x = 1 / 0] the pass raises [ZeroDivisionError]. *)
Theorem constant_folding_division_by_zero :
  (∀ l, ∃ e, ConstantFolder_visit_BinOp (Constant l) Div (num 0) = Raise e)
  ∧ visit ConstantFolder division_code = Raise ZeroDivisionError.
Proof.
  split; [|reflexivity].
  intros [| |z|f|]; cbn; eauto.
Qed.



(** C9.  Constant folding applied to a tree it returned returns that tree
    unchanged. *)
Theorem constant_folding_idempotent (tree tree' : py_module) :
  visit ConstantFolder tree = OK tree' →
  visit ConstantFolder tree' = OK tree'.
Proof.
  destruct tree as [body], tree' as [body']. cbn. unfold visit_stmts.
  destruct (visit_list _ body) as [out|] eqn:Hout; [|done]. rewrite bind_OK.
  intros [= <-]. rewrite (visit_list_id _ out); [done|].
  eapply Forall_impl; [|apply ConstantFolder_id_stmt].
  eapply visit_list_OK_Forall; [|exact Hout].
  apply Forall_forall. intros s _ ys. apply ConstantFolder_folded_stmt.
Qed.

Lemma constant_folding_idempotent_witness :
  ∃ tree', visit ConstantFolder cf_code = OK tree'
    ∧ visit ConstantFolder tree' = OK tree'.
Proof.
  eexists. split; [reflexivity|].
  apply (constant_folding_idempotent cf_code). reflexivity.
Defined.

(** ** Strength reduction *)

(** C6, as amended.  The pass applies the first of its rules that matches,
    where the constants [0], [1] and [2] of the rules match every [Constant]
    whose value compares equal to that number in Python ([False], [0.0] and
    [-0.0] for [0]; [True] and [1.0] for [1]; [2.0] for [2]): [x % 2] becomes
    [x & 1]; [0 + e] becomes [e], and otherwise [e + 0] becomes [e]; [1 * e]
    becomes [e], and otherwise [e * 1] becomes [e]; [0 - e] becomes [-e];
    every other [BinOp] is returned as it is.  When neither operand is a bool
    or float constant these are the rules on the literal constants. *)
Theorem strength_reduction_rules :
  (∀ x two, is_Constant 2 two = true →
     StrengthReducer_visit_BinOp x Mod two = BinOp x BitAnd (num 1))
  ∧ (∀ zero e, is_Constant 0 zero = true →
       StrengthReducer_visit_BinOp zero Add e = e)
  ∧ (∀ e zero, is_Constant 0 e = false → is_Constant 0 zero = true →
       StrengthReducer_visit_BinOp e Add zero = e)
  ∧ (∀ one e, is_Constant 1 one = true →
       StrengthReducer_visit_BinOp one Mult e = e)
  ∧ (∀ e one, is_Constant 1 e = false → is_Constant 1 one = true →
       StrengthReducer_visit_BinOp e Mult one = e)
  ∧ (∀ zero e, is_Constant 0 zero = true →
       StrengthReducer_visit_BinOp zero Sub e = UnaryOp USub e)
  ∧ (∀ left op right,
       (op = Mod → is_Constant 2 right = false) →
       (op = Add → is_Constant 0 left = false ∧ is_Constant 0 right = false) →
       (op = Mult → is_Constant 1 left = false ∧ is_Constant 1 right = false) →
       (op = Sub → is_Constant 0 left = false) →
       StrengthReducer_visit_BinOp left op right = BinOp left op right)
  ∧ (∀ left op right, plain left = true → plain right = true →
       StrengthReducer_visit_BinOp left op right = literal_rules left op right)
  ∧ (∀ left op right,
       visit_expr StrengthReducer (BinOp left op right) =
         (left' ← visit_expr StrengthReducer left;
          right' ← visit_expr StrengthReducer right;
          OK (StrengthReducer_visit_BinOp left' op right'))).
Proof.
  unfold StrengthReducer_visit_BinOp. split_and!; try reflexivity.
  - by intros x two ->.
  - by intros zero e ->.
  - by intros e zero -> ->.
  - by intros one e ->.
  - by intros e one -> ->.
  - by intros zero e ->.
  - intros left op right HMod HAdd HMult HSub.
    destruct op; cbn [operator_eqb andb]; try done.
    + destruct HAdd as [-> ->]; done.
    + by rewrite HSub.
    + destruct HMult as [-> ->]; done.
    + by rewrite HMod.
  - apply StrengthReducer_literal_rules.
Qed.

Lemma strength_reduction_rules_witness :
  visit StrengthReducer sr_code =
    OK (PyModule [
      If (Compare (BinOp (Name "x" Load) BitAnd (num 1)) [cmpop.Eq] [num 0])
        [Expr (Call (Name "print" Load) [Constant (CStr "even")])]
        [Expr (Call (Name "print" Load) [Constant (CStr "odd")])]])
  ∧ StrengthReducer_visit_BinOp (Name "x" Load) Add (num 0) = Name "x" Load
  ∧ StrengthReducer_visit_BinOp (num 0) Sub (Name "x" Load) =
      UnaryOp USub (Name "x" Load)
  ∧ StrengthReducer_visit_BinOp (Name "x" Load) Sub (num 0) =
      BinOp (Name "x" Load) Sub (num 0).
Proof.
  destruct strength_reduction_rules
    as (HMod & _ & HAdd & _ & _ & HSub & Hother & _ & _).
  split_and!.
  - cbn -[StrengthReducer_visit_BinOp].
    rewrite (HMod (Name "x" Load) (Constant (CInt 2))) by reflexivity.
    reflexivity.
  - apply HAdd; reflexivity.
  - apply HSub; reflexivity.
  - apply Hother; try discriminate. reflexivity.
Defined.

(** C6 as stated fails: [True * x] is none of the listed shapes, whose
    constant is the integer [1], and is rewritten to [x]; likewise [x % 2.0]
    is rewritten to [x & 1]. *)
Lemma strength_reduction_rules_counterexample :
  literal_rules (Constant (CBool true)) Mult (Name "x" Load) =
    BinOp (Constant (CBool true)) Mult (Name "x" Load)
  ∧ visit_expr StrengthReducer (BinOp (Constant (CBool true)) Mult (Name "x" Load)) =
      OK (Name "x" Load)
  ∧ visit_expr StrengthReducer
      (BinOp (Name "x" Load) Mod
         (Constant (CFloat (S754_finite false 4503599627370496 (-51))))) =
      OK (BinOp (Name "x" Load) BitAnd (num 1)).
Proof. split_and!; reflexivity. Qed.

(** C8.  For an operand [x] whose value is a non-negative integer,
    [x % 2] is rewritten to [x & 1] and both evaluate to the same value. *)
Theorem mod_2_bitand_1 (env : gmap string constant) (x : expr) (n : Z) :
  (0 ≤ n)%Z → eval env x = OK (CInt n) →
  StrengthReducer_visit_BinOp x Mod (num 2) = BinOp x BitAnd (num 1)
  ∧ eval env (BinOp x Mod (num 2)) = OK (CInt (n mod 2))
  ∧ eval env (BinOp x BitAnd (num 1)) = eval env (BinOp x Mod (num 2)).
Proof.
  intros Hn Hx. split_and!; [done|by cbn; rewrite Hx|].
  cbn. rewrite Hx. cbn. do 2 f_equal. exact (Z.land_ones n 1 ltac:(lia)).
Qed.

Lemma mod_2_bitand_1_witness :
  eval {["x" := CInt 7]} (BinOp (Name "x" Load) BitAnd (num 1)) =
    eval {["x" := CInt 7]} (BinOp (Name "x" Load) Mod (num 2)).
Proof.
  apply (mod_2_bitand_1 {["x" := CInt 7]} (Name "x" Load) 7); [lia|reflexivity].
Defined.

(** ** Dead-branch elimination *)

(** C7.  Dead-branch elimination returns the module in which every [If]
    whose test is a constant, at every depth (in the module, in the body of
    a function, in a branch of another [If]) is replaced in its enclosing
    list by the statements of its [body] when the constant is truthy and of
    its [orelse] otherwise, themselves rewritten in the same way and spliced
    between the statements before and after it (none, one or several
    statements); an [If] whose test is not a constant stays in its place,
    with its branches rewritten, and a list without an [If] of constant test
    is returned as it is.  This is the tree the traversal of the objects
    leaves at the root whenever its depth budget is at least the height of
    the tree.  [if False: y = 100] [else: y = 20] becomes [y = 20], also
    inside [def main] as in the notebook's [db_code]. *)
Theorem dead_branch_elimination :
  (∀ body, visit DeadBranchEliminator (PyModule body) =
             OK (PyModule (flat_map prune body)))
  ∧ (∀ name body, visit_stmt DeadBranchEliminator (FunctionDef name body) =
                    OK [FunctionDef name (flat_map prune body)])
  ∧ (∀ condition before body orelse after,
       visit_stmts DeadBranchEliminator
         (before ++ If (Constant condition) body orelse :: after) =
         OK (flat_map prune before
             ++ (if truthy condition then flat_map prune body
                 else flat_map prune orelse)
             ++ flat_map prune after))
  ∧ (∀ test before body orelse after,
       (∀ condition, test ≠ Constant condition) →
       visit_stmts DeadBranchEliminator (before ++ If test body orelse :: after) =
         OK (flat_map prune before
             ++ If test (flat_map prune body) (flat_map prune orelse)
             :: flat_map prune after))
  ∧ (∀ body, forallb no_constant_If body = true → flat_map prune body = body)
  ∧ (∀ body, forallb no_constant_If (flat_map prune body) = true)
  ∧ (∀ body h root F fuel,
       represents h (PyModule body) root F →
       height_module (PyModule body) ≤ fuel →
       ∃ h' F',
         store_visit DeadBranchEliminator fuel root h = Done h' (VNode root)
         ∧ represents h' (PyModule (flat_map prune body)) root F'
         ∧ modifies F h h')
  ∧ visit DeadBranchEliminator branch_code = OK (PyModule [assign "y" (num 20)])
  ∧ visit DeadBranchEliminator db_code =
      OK (PyModule [FunctionDef "main" [
            assign "x" (num 5);
            assign "y" (BinOp (BinOp (num 1) Add (num 1)) Add (num 3));
            assign "y" (num 20);
            Return (Some (Name "y" Load))]]).
Proof.
  assert (∀ body, visit DeadBranchEliminator (PyModule body) =
                    OK (PyModule (flat_map prune body))) as Hvisit.
  { intros body. cbn. by rewrite DeadBranchEliminator_visit_stmts_prune. }
  split_and!; [exact Hvisit| | | | | | |reflexivity|reflexivity].
  - intros name body. apply DeadBranchEliminator_visit_stmt_prune.
  - intros condition before body orelse after.
    rewrite DeadBranchEliminator_visit_stmts_prune, flat_map_app. done.
  - intros test before body orelse after Htest.
    rewrite DeadBranchEliminator_visit_stmts_prune, flat_map_app. cbn.
    destruct test as [| | | | |condition|]; try done.
    by destruct (Htest condition).
  - intros body Hbody.
    pose proof (DeadBranchEliminator_id_stmts body Hbody) as Hid.
    rewrite DeadBranchEliminator_visit_stmts_prune in Hid. by injection Hid.
  - intros body. apply forallb_flat_map, Forall_forall. intros s _.
    apply prune_no_constant_If.
  - intros body h root F fuel Hrep Hfuel.
    pose proof (store_visit_module_refines DeadBranchEliminator body fuel h
                  root F Hrep Hfuel) as Href.
    rewrite Hvisit in Href. destruct Href as (h' & v & Hrun & -> & Hmod & F' & Hrep').
    eauto.
Qed.

Lemma dead_branch_elimination_witness :
  visit DeadBranchEliminator nested_branch_code =
    OK (PyModule [FunctionDef "f" [
          If (Name "x" Load)
            [assign "a" (num 1); assign "b" (num 2)]
            [call "g"]]])
  ∧ visit_stmts DeadBranchEliminator
      [assign "x" (num 0);
       If (Name "x" Load) [If (Constant CNone) [assign "c" (num 3)] []] []] =
      OK [assign "x" (num 0); If (Name "x" Load) [] []].
Proof.
  destruct dead_branch_elimination as (Hvisit & _ & _ & Hother & _). split.
  - exact (Hvisit [FunctionDef "f" [
             If (Name "x" Load)
               [If (Constant (CInt 1)) [assign "a" (num 1); assign "b" (num 2)] [];
                If (Constant CNone) [assign "c" (num 3)] []]
               [If (Constant (CStr "")) [] [call "g"]]]]).
  - apply (Hother (Name "x" Load) [assign "x" (num 0)]
             [If (Constant CNone) [assign "c" (num 3)] []] [] []).
    discriminate.
Defined.

(** ** In-place rewriting *)

(** C4, as amended.  A pass rewrites the tree it is given in place.  When
    the [Module] object at [root] and the objects it refers to represent
    [tree], no object referred to twice, a pass that returns [tree'] on trees
    returns [root] itself, in a heap where [root] represents [tree'] and
    where only objects of the input tree were assigned to and new objects
    added; a pass that raises on trees raises the same exception.  [self] is
    any of the transformer classes; for dead-function elimination it is
    [FunctionEliminator] with the names [DeadFunctionIdentifier], which only
    reads the tree, has computed. *)
Theorem transformer_in_place (self : transformer) (tree : py_module)
    (h : list object) (root : nat) (F : gset nat) (fuel : nat) :
  represents h tree root F → height_module tree ≤ fuel →
  match visit self tree with
  | OK tree' =>
      ∃ h' F', store_visit self fuel root h = Done h' (VNode root)
        ∧ represents h' tree' root F' ∧ modifies F h h'
  | Raise e => ∃ h', store_visit self fuel root h = Raised h' e
  end.
Proof.
  destruct tree as [body]. intros Hrep Hfuel.
  pose proof (store_visit_module_refines self body fuel h root F Hrep Hfuel)
    as Href.
  unfold refines in Href. destruct (visit self (PyModule body)); [|done].
  destruct Href as (h' & v & Hrun & -> & Hmod & F' & Hrep'). eauto.
Qed.

Lemma product_heap_represents :
  represents product_heap product_code 0 product_region.
Proof.
  exists [1], ({[1]} ∪ ({[2]} ∪ ∅ ∪ ({[3]} ∪ ({[4]} ∪ {[5]}))) ∪ ∅).
  split_and!; [done| |set_solver|done].
  exists ({[1]} ∪ ({[2]} ∪ ∅ ∪ ({[3]} ∪ ({[4]} ∪ {[5]})))), ∅.
  split_and!; [|done|set_solver|done].
  exists [2], 3, ({[2]} ∪ ∅), ({[3]} ∪ ({[4]} ∪ {[5]})).
  split_and!; [done| | |set_solver|set_solver|done].
  - exists {[2]}, ∅. split_and!; [done|done|set_solver|done].
  - exists 4, 5, {[4]}, {[5]}. split_and!; try done; set_solver.
Qed.

Lemma transformer_in_place_witness :
  ∃ h' F', store_visit ConstantFolder 4 0 product_heap = Done h' (VNode 0)
    ∧ represents h' (PyModule [assign "y" (num 100)]) 0 F'
    ∧ modifies product_region product_heap h'.
Proof.
  apply (transformer_in_place ConstantFolder product_code product_heap 0 _ 4
           product_heap_represents).
  cbn. lia.
Defined.

(** C4 as stated fails: constant folding of [y = 10 * 10] assigns a new
    [Constant] to the field [value] of the [Assign] object of the input
    tree, and the [Module] it was given no longer represents [y = 10 * 10]. *)
Lemma transformer_in_place_counterexample :
  (∃ F, represents product_heap product_code 0 F)
  ∧ product_heap !! 1 = Some (OAssign [2] 3)
  ∧ ∃ h', store_visit ConstantFolder 4 0 product_heap = Done h' (VNode 0)
      ∧ h' !! 1 = Some (OAssign [2] 6)
      ∧ h' !! 6 = Some (OConstant (CInt 100))
      ∧ ¬ ∃ F, represents h' product_code 0 F.
Proof.
  split; [eexists; apply product_heap_represents|]. split; [done|].
  eexists. split; [vm_compute; reflexivity|]. split; [done|]. split; [done|].
  intros (F & bs & Fb & Hl & Hb & _). cbn in Hl. injection Hl as <-.
  destruct Hb as (F1 & F2 & Hassign & _).
  destruct Hassign as (ts & a & Fts & Fa & Hl & _ & Hv & _).
  cbn in Hl. injection Hl as <- <-.
  destruct Hv as (a & b & ? & ? & Hl & _). cbn in Hl. discriminate.
Qed.

(** * Further properties *)

(** ** One traversal reaches the normal form *)

Lemma visit_BinOp_normal_id self left op right :
  rewrites_BinOp self left op right = false →
  visit_BinOp self left op right = OK (BinOp left op right).
Proof.
  destruct self; cbn; try done.
  - apply ConstantFolder_visit_BinOp_not_redex.
  - unfold reducible, StrengthReducer_visit_BinOp.
    destruct (operator_eqb op Mod && is_Constant 2 right); [done|].
    destruct (operator_eqb op Add); cbn [andb orb].
    { destruct (is_Constant 0 left), (is_Constant 0 right); try done.
      cbn. destruct (operator_eqb op Mult); cbn [andb orb].
      - destruct (is_Constant 1 left), (is_Constant 1 right); try done.
        cbn. by destruct (operator_eqb op Sub).
      - by destruct (operator_eqb op Sub). }
    destruct (operator_eqb op Mult); cbn [andb orb].
    { destruct (is_Constant 1 left), (is_Constant 1 right); try done.
      cbn. by destruct (operator_eqb op Sub && is_Constant 0 left). }
    by destruct (operator_eqb op Sub && is_Constant 0 left).
Qed.

Lemma visit_BinOp_normal self left op right node :
  normal self left = true → normal self right = true →
  visit_BinOp self left op right = OK node → normal self node = true.
Proof.
  intros Hl Hr. destruct (rewrites_BinOp self left op right) eqn:Hrw.
  - destruct self; cbn in Hrw; try done; cbn [visit_BinOp].
    + rewrite ConstantFolder_visit_BinOp_redex. unfold redex in Hrw.
      destruct left as [| | | | |lv|], right as [| | | | |rv|]; try done.
      rewrite Hrw. destruct (binop_eval op lv rv); [|done]. by intros [= <-].
    + intros [= <-]. unfold reducible in Hrw.
      unfold StrengthReducer_visit_BinOp.
      destruct (operator_eqb op Mod), (is_Constant 2 right),
        (operator_eqb op Add), (is_Constant 0 left), (is_Constant 0 right),
        (operator_eqb op Mult), (is_Constant 1 left), (is_Constant 1 right),
        (operator_eqb op Sub); cbn in *; rewrite ?Hl, ?Hr; done.
  - rewrite visit_BinOp_normal_id by done. intros [= <-]. cbn.
    by rewrite Hl, Hr, Hrw.
Qed.

Lemma visit_expr_normal self node node' :
  visit_expr self node = OK node' → normal self node' = true.
Proof.
  revert node'. induction node as [l op r IHl IHr|op e IH|l ops cs IHl IHcs
    |f args IHf IHargs|v a c IH|v|id c] using expr_ind; intros node'; cbn.
  - destruct (visit_expr self l) as [l'|]; [|done]. rewrite bind_OK.
    destruct (visit_expr self r) as [r'|]; [|done]. rewrite bind_OK.
    apply visit_BinOp_normal; eauto.
  - destruct (visit_expr self e) as [e'|]; [|done]. rewrite bind_OK.
    intros [= <-]. cbn. eauto.
  - destruct (visit_expr self l) as [l'|]; [|done]. rewrite bind_OK.
    destruct (mapM _ cs) as [cs'|] eqn:Hcs; [|done]. rewrite bind_OK.
    intros [= <-]. cbn. rewrite (IHl l') by done. cbn.
    apply forallb_Forall_true. eapply mapM_OK_Forall; [|exact Hcs]. done.
  - destruct (visit_expr self f) as [f'|]; [|done]. rewrite bind_OK.
    destruct (mapM _ args) as [args'|] eqn:Hargs; [|done]. rewrite bind_OK.
    intros [= <-]. cbn. rewrite (IHf f') by done. cbn.
    apply forallb_Forall_true. eapply mapM_OK_Forall; [|exact Hargs]. done.
  - destruct (visit_expr self v) as [v'|]; [|done]. rewrite bind_OK.
    intros [= <-]. cbn. eauto.
  - by intros [= <-].
  - by intros [= <-].
Qed.

Lemma visit_exprs_normal self (l l' : list expr) :
  mapM (visit_expr self) l = OK l' → forallb (normal self) l' = true.
Proof.
  intros H. apply forallb_Forall_true. eapply mapM_OK_Forall; [|exact H].
  apply Forall_forall. intros e _ e'. apply visit_expr_normal.
Qed.

Lemma normal_visit_expr self node :
  normal self node = true → visit_expr self node = OK node.
Proof.
  induction node as [l op r IHl IHr|op e IH|l ops cs IHl IHcs
    |f args IHf IHargs|v a c IH|v|id c] using expr_ind; cbn; intros H.
  - apply andb_prop in H as [H Hrw]. apply andb_prop in H as [Hl Hr].
    rewrite IHl, bind_OK, IHr, bind_OK by done.
    apply visit_BinOp_normal_id. by destruct (rewrites_BinOp self l op r).
  - by rewrite IH.
  - apply andb_prop in H as [Hl Hcs]. rewrite IHl, bind_OK by done.
    rewrite mapM_OK_id; [done|].
    apply forallb_Forall_true in Hcs.
    exact (Forall_mp _ _ _ IHcs Hcs).
  - apply andb_prop in H as [Hf Hargs]. rewrite IHf, bind_OK by done.
    rewrite mapM_OK_id; [done|].
    apply forallb_Forall_true in Hargs.
    exact (Forall_mp _ _ _ IHargs Hargs).
  - by rewrite IH.
  - done.
  - done.
Qed.

Lemma normal_visit_exprs self (l : list expr) :
  forallb (normal self) l = true → mapM (visit_expr self) l = OK l.
Proof.
  intros H%forallb_Forall_true. apply mapM_OK_id.
  eapply Forall_impl; [exact H|]. apply normal_visit_expr.
Qed.

Lemma visit_If_normal self test body orelse :
  normal self test = true →
  forallb (normal_stmt self) body = true →
  forallb (normal_stmt self) orelse = true →
  forallb (normal_stmt self) (visit_If self test body orelse) = true.
Proof.
  intros Ht Hb Ho.
  destruct self; cbn; rewrite ?Ht, ?Hb, ?Ho; try done.
  destruct test as [| | | | |condition|]; cbn in *; rewrite ?Ht, ?Hb, ?Ho; try done.
  by destruct (truthy condition).
Qed.

Lemma visit_stmt_normal self node nodes' :
  visit_stmt self node = OK nodes' → forallb (normal_stmt self) nodes' = true.
Proof.
  revert nodes'. induction node as [name body IH|v|ts v|t body orelse IHb IHo|v]
    using stmt_ind; intros nodes'; cbn.
  - destruct (drops_FunctionDef self name) eqn:Hdrop; [by intros [= <-]|].
    destruct (visit_list _ body) as [body'|] eqn:Hbody; [|done]. rewrite bind_OK.
    intros [= <-]. cbn. rewrite Hdrop, andb_true_r. cbn.
    apply forallb_Forall_true. eapply visit_list_OK_Forall; [|exact Hbody].
    eapply Forall_impl; [exact IH|]. intros s Hs ys Hys.
    by apply forallb_Forall_true, Hs.
  - destruct v as [v|]; [|by intros [= <-]].
    destruct (visit_expr self v) as [v'|] eqn:Hv; [|done].
    rewrite bind_OK. intros [= <-]. cbn.
    by rewrite (visit_expr_normal _ _ _ Hv).
  - destruct (mapM _ ts) as [ts'|] eqn:Hts; [|done]. rewrite bind_OK.
    destruct (visit_expr self v) as [v'|] eqn:Hv; [|done].
    rewrite bind_OK. intros [= <-]. cbn.
    by rewrite (visit_exprs_normal _ _ _ Hts), (visit_expr_normal _ _ _ Hv).
  - destruct (visit_expr self t) as [t'|] eqn:Ht; [|done].
    rewrite bind_OK.
    destruct (visit_list _ body) as [body'|] eqn:Hbody; [|done]. rewrite bind_OK.
    destruct (visit_list _ orelse) as [orelse'|] eqn:Horelse; [|done].
    rewrite bind_OK. intros [= <-].
    apply visit_If_normal; [by eapply visit_expr_normal|..];
      apply forallb_Forall_true.
    + eapply visit_list_OK_Forall; [|exact Hbody].
      eapply Forall_impl; [exact IHb|]. intros s Hs ys Hys.
      by apply forallb_Forall_true, Hs.
    + eapply visit_list_OK_Forall; [|exact Horelse].
      eapply Forall_impl; [exact IHo|]. intros s Hs ys Hys.
      by apply forallb_Forall_true, Hs.
  - destruct (visit_expr self v) as [v'|] eqn:Hv; [|done].
    rewrite bind_OK. intros [= <-]. cbn.
    by rewrite (visit_expr_normal _ _ _ Hv).
Qed.

Lemma visit_stmts_normal self (body body' : list stmt) :
  visit_stmts self body = OK body' → forallb (normal_stmt self) body' = true.
Proof.
  intros H. apply forallb_Forall_true.
  eapply visit_list_OK_Forall; [|exact H].
  apply Forall_forall. intros s _ ys Hys.
  by apply forallb_Forall_true, (visit_stmt_normal self s).
Qed.

Lemma normal_visit_stmt self node :
  normal_stmt self node = true → visit_stmt self node = OK [node].
Proof.
  induction node as [name body IH|v|ts v|t body orelse IHb IHo|v]
    using stmt_ind; cbn; intros H.
  - apply andb_prop in H as [Hdrop H]. apply forallb_Forall_true in H.
    destruct (drops_FunctionDef self name); [done|].
    rewrite (visit_list_id _ body); [done|]. exact (Forall_mp _ _ _ IH H).
  - destruct v as [v|]; [|done]. cbn in H. by rewrite normal_visit_expr.
  - apply andb_prop in H as [Hts Hv].
    by rewrite normal_visit_exprs, bind_OK, normal_visit_expr.
  - apply andb_prop in H as [H Ho]. apply andb_prop in H as [H Hb].
    apply andb_prop in H as [Ht Hrw].
    apply forallb_Forall_true in Hb, Ho.
    rewrite normal_visit_expr, bind_OK by done.
    rewrite (visit_list_id _ body), bind_OK by exact (Forall_mp _ _ _ IHb Hb).
    rewrite (visit_list_id _ orelse), bind_OK by exact (Forall_mp _ _ _ IHo Ho).
    destruct self; try done. by destruct t.
  - by rewrite normal_visit_expr.
Qed.

Lemma normal_visit_stmts self (body : list stmt) :
  forallb (normal_stmt self) body = true → visit_stmts self body = OK body.
Proof.
  intros H%forallb_Forall_true. apply visit_list_id.
  eapply Forall_impl; [exact H|]. apply normal_visit_stmt.
Qed.

Lemma normal_visit self tree :
  normal_module self tree = true → visit self tree = OK tree.
Proof.
  destruct tree as [body]. cbn. intros H. by rewrite normal_visit_stmts.
Qed.

Lemma visit_normal self tree tree' :
  visit self tree = OK tree' → normal_module self tree' = true.
Proof.
  destruct tree as [body]. cbn.
  destruct (visit_stmts self body) as [body'|] eqn:Hbody; [|done].
  rewrite bind_OK. intros [= <-]. by apply (visit_stmts_normal self body).
Qed.

(** X1.  One traversal is enough, for every transformer class: the tree a
    pass returns is returned unchanged by a second run of the pass, and the
    trees a pass returns unchanged are exactly those with no node one of its
    rules matches (no [BinOp] a case of its [visit_BinOp] matches, no [If]
    with a constant test for [DeadBranchEliminator], no [FunctionDef] named
    in [fns] for [FunctionEliminator]). *)
Theorem one_traversal_suffices (self : transformer) :
  (∀ tree tree', visit self tree = OK tree' → visit self tree' = OK tree')
  ∧ (∀ tree, visit self tree = OK tree ↔ normal_module self tree = true).
Proof.
  split.
  - intros tree tree' H%visit_normal. by apply normal_visit.
  - intros tree. split; [apply visit_normal|apply normal_visit].
Qed.

Lemma one_traversal_suffices_witness :
  ∃ tree', visit StrengthReducer sr_code = OK tree'
    ∧ visit StrengthReducer tree' = OK tree'.
Proof.
  eexists. split; [reflexivity|].
  apply (proj1 (one_traversal_suffices StrengthReducer) sr_code). reflexivity.
Defined.

(** ** No pass adds nodes *)

Lemma visit_BinOp_count self left op right node :
  visit_BinOp self left op right = OK node →
  count node ≤ S (count left + count right).
Proof.
  destruct self; cbn [visit_BinOp]; try (intros [= <-]; cbn; lia).
  - rewrite ConstantFolder_visit_BinOp_redex.
    destruct left as [| | | | |lv|], right as [| | | | |rv|];
      try (intros [= <-]; cbn; lia).
    destruct (folds op); [|intros [= <-]; cbn; lia].
    destruct (binop_eval op lv rv); [|done]. intros [= <-]. cbn. lia.
  - intros [= <-]. unfold StrengthReducer_visit_BinOp.
    repeat case_match; cbn; try lia.
    destruct right; cbn in *; try done; lia.
Qed.

Lemma mapM_count (f : expr → result expr) (l l' : list expr) :
  Forall (λ x, ∀ y, f x = OK y → count y ≤ count x) l →
  mapM f l = OK l' →
  sum_list_with count l' ≤ sum_list_with count l.
Proof.
  intros Hl. revert l'. induction Hl as [|x l Hx _ IH]; intros l'; cbn.
  - by intros [= <-].
  - destruct (f x) as [y|] eqn:Hy; cbn; [|done].
    destruct (mapM f l) as [k|]; cbn; [|done].
    intros [= <-]. cbn. specialize (Hx y eq_refl). specialize (IH k eq_refl).
    lia.
Qed.

Lemma visit_list_count (f : stmt → result (list stmt)) (l l' : list stmt) :
  Forall (λ x, ∀ ys, f x = OK ys → sum_list_with count_stmt ys ≤ count_stmt x) l →
  visit_list f l = OK l' →
  sum_list_with count_stmt l' ≤ sum_list_with count_stmt l.
Proof.
  intros Hl. revert l'. induction Hl as [|x l Hx _ IH]; intros l'.
  - by intros [= <-].
  - rewrite visit_list_cons.
    destruct (f x) as [ys|] eqn:Hy; [|done]. rewrite bind_OK.
    destruct (visit_list f l) as [k|]; [|done]. rewrite bind_OK.
    intros [= <-]. rewrite sum_list_with_app. cbn [sum_list_with].
    specialize (Hx ys eq_refl). specialize (IH k eq_refl). lia.
Qed.

Lemma visit_expr_count self node node' :
  visit_expr self node = OK node' → count node' ≤ count node.
Proof.
  revert node'. induction node as [l op r IHl IHr|op e IH|l ops cs IHl IHcs
    |f args IHf IHargs|v a c IH|v|id c] using expr_ind; intros node'; cbn.
  - destruct (visit_expr self l) as [l'|]; [|done]. rewrite bind_OK.
    destruct (visit_expr self r) as [r'|]; [|done]. rewrite bind_OK.
    intros H%visit_BinOp_count.
    specialize (IHl l' eq_refl). specialize (IHr r' eq_refl). lia.
  - destruct (visit_expr self e) as [e'|]; [|done]. rewrite bind_OK.
    intros [= <-]. cbn. specialize (IH e' eq_refl). lia.
  - destruct (visit_expr self l) as [l'|]; [|done]. rewrite bind_OK.
    destruct (mapM _ cs) as [cs'|] eqn:Hcs; [|done]. rewrite bind_OK.
    intros [= <-]. cbn. specialize (IHl l' eq_refl).
    pose proof (mapM_count _ _ _ IHcs Hcs). lia.
  - destruct (visit_expr self f) as [f'|]; [|done]. rewrite bind_OK.
    destruct (mapM _ args) as [args'|] eqn:Hargs; [|done]. rewrite bind_OK.
    intros [= <-]. cbn. specialize (IHf f' eq_refl).
    pose proof (mapM_count _ _ _ IHargs Hargs). lia.
  - destruct (visit_expr self v) as [v'|]; [|done]. rewrite bind_OK.
    intros [= <-]. cbn. specialize (IH v' eq_refl). lia.
  - by intros [= <-].
  - by intros [= <-].
Qed.

Lemma visit_exprs_count self (l l' : list expr) :
  mapM (visit_expr self) l = OK l' →
  sum_list_with count l' ≤ sum_list_with count l.
Proof.
  apply mapM_count, Forall_forall. intros e _ e'. apply visit_expr_count.
Qed.

Lemma visit_If_count self test body orelse :
  sum_list_with count_stmt (visit_If self test body orelse) ≤
    count_stmt (If test body orelse).
Proof.
  destruct self; cbn; try lia.
  destruct test as [| | | | |condition|]; cbn; try lia.
  destruct (truthy condition); lia.
Qed.

Lemma visit_stmt_count self node nodes' :
  visit_stmt self node = OK nodes' →
  sum_list_with count_stmt nodes' ≤ count_stmt node.
Proof.
  revert nodes'. induction node as [name body IH|v|ts v|t body orelse IHb IHo|v]
    using stmt_ind; intros nodes'; cbn [visit_stmt].
  - destruct (drops_FunctionDef self name); [intros [= <-]; cbn; lia|].
    destruct (visit_list _ body) as [body'|] eqn:Hbody; [|done]. rewrite bind_OK.
    intros [= <-]. cbn. pose proof (visit_list_count _ _ _ IH Hbody). lia.
  - destruct v as [v|]; [|intros [= <-]; cbn; lia].
    destruct (visit_expr self v) as [v'|] eqn:Hv; [|done].
    rewrite bind_OK. intros [= <-]. cbn.
    pose proof (visit_expr_count _ _ _ Hv). lia.
  - destruct (mapM _ ts) as [ts'|] eqn:Hts; [|done]. rewrite bind_OK.
    destruct (visit_expr self v) as [v'|] eqn:Hv; [|done].
    rewrite bind_OK. intros [= <-]. cbn.
    pose proof (visit_exprs_count _ _ _ Hts).
    pose proof (visit_expr_count _ _ _ Hv). lia.
  - destruct (visit_expr self t) as [t'|] eqn:Ht; [|done].
    rewrite bind_OK.
    destruct (visit_list _ body) as [body'|] eqn:Hbody; [|done]. rewrite bind_OK.
    destruct (visit_list _ orelse) as [orelse'|] eqn:Horelse; [|done].
    rewrite bind_OK. intros [= <-].
    pose proof (visit_If_count self t' body' orelse').
    pose proof (visit_expr_count _ _ _ Ht).
    pose proof (visit_list_count _ _ _ IHb Hbody).
    pose proof (visit_list_count _ _ _ IHo Horelse).
    cbn in *. lia.
  - destruct (visit_expr self v) as [v'|] eqn:Hv; [|done].
    rewrite bind_OK. intros [= <-]. cbn.
    pose proof (visit_expr_count _ _ _ Hv). lia.
Qed.

(** X2.  No pass adds nodes: the tree a pass returns has at most as many
    expression and statement nodes as the tree it was given. *)
Theorem pass_never_grows (self : transformer) (tree tree' : py_module) :
  visit self tree = OK tree' → count_module tree' ≤ count_module tree.
Proof.
  destruct tree as [body]. cbn.
  destruct (visit_stmts self body) as [body'|] eqn:Hbody; [|done].
  rewrite bind_OK. intros [= <-]. cbn.
  enough (sum_list_with count_stmt body' ≤ sum_list_with count_stmt body) by lia.
  eapply visit_list_count; [|exact Hbody].
  apply Forall_forall. intros s _ ys. apply visit_stmt_count.
Qed.

Lemma pass_never_grows_witness :
  ∃ tree', visit ConstantFolder cf_code = OK tree'
    ∧ count_module tree' ≤ count_module cf_code.
Proof.
  eexists. split; [reflexivity|].
  apply (pass_never_grows ConstantFolder cf_code). reflexivity.
Defined.

(** ** [FunctionEliminator] composes by union *)

Lemma flat_map_flat_map {A B C} (f : A → list B) (g : B → list C) (l : list A) :
  flat_map g (flat_map f l) = flat_map (λ x, flat_map g (f x)) l.
Proof.
  induction l as [|x l IH]; cbn; [done|]. by rewrite flat_map_app, IH.
Qed.

Lemma flat_map_ext_Forall {A B} (f g : A → list B) (l : list A) :
  Forall (λ x, f x = g x) l → flat_map f l = flat_map g l.
Proof. induction 1 as [|x l Hx _ IH]; cbn; [done|]. by rewrite Hx, IH. Qed.

Lemma delete_dead_union (A B : gset string) node :
  flat_map (delete_dead B) (delete_dead A node) = delete_dead (A ∪ B) node.
Proof.
  induction node as [name body IH|v|ts v|t body orelse IHb IHo|v]
    using stmt_ind; cbn; try done.
  - case_bool_decide as HA; cbn.
    + by rewrite bool_decide_eq_true_2 by set_solver.
    + rewrite app_nil_r. case_bool_decide as HB.
      * by rewrite bool_decide_eq_true_2 by set_solver.
      * rewrite bool_decide_eq_false_2 by set_solver.
        by rewrite flat_map_flat_map, (flat_map_ext_Forall _ _ _ IH).
  - by rewrite !flat_map_flat_map, (flat_map_ext_Forall _ _ _ IHb),
      (flat_map_ext_Forall _ _ _ IHo).
Qed.

Lemma delete_dead_empty node : delete_dead ∅ node = [node].
Proof.
  induction node as [name body IH|v|ts v|t body orelse IHb IHo|v]
    using stmt_ind; cbn; try done.
  - by rewrite (flat_map_singleton _ _ IH).
  - by rewrite (flat_map_singleton _ _ IHb), (flat_map_singleton _ _ IHo).
Qed.

Lemma FunctionEliminator_empty tree : visit (FunctionEliminator ∅) tree = OK tree.
Proof.
  destruct tree as [body]. rewrite FunctionEliminator_visit.
  rewrite flat_map_singleton; [done|].
  apply Forall_forall. intros s _. apply delete_dead_empty.
Qed.

(** [FunctionEliminator] reads [fns] at the names of the tree only. *)
Lemma delete_dead_ext (A B : gset string) node :
  (∀ n, n ∈ FunctionDef_names node → n ∈ A ↔ n ∈ B) →
  delete_dead A node = delete_dead B node.
Proof.
  induction node as [name body IH|v|ts v|t body orelse IHb IHo|v]
    using stmt_ind; cbn [delete_dead FunctionDef_names]; try done; intros H.
  - rewrite (bool_decide_ext (name ∈ A) (name ∈ B)) by (apply H; set_solver).
    case_bool_decide; [done|]. do 2 f_equal.
    apply flat_map_ext_Forall. rewrite Forall_forall in IH |- *.
    intros s Hs. apply IH; [done|]. intros n Hn. apply H.
    apply elem_of_cons. right. apply elem_of_flat_map. eauto.
  - f_equal. f_equal.
    + apply flat_map_ext_Forall. rewrite Forall_forall in IHb |- *.
      intros s Hs. apply IHb; [done|]. intros n Hn. apply H.
      apply elem_of_app. left. apply elem_of_flat_map. eauto.
    + apply flat_map_ext_Forall. rewrite Forall_forall in IHo |- *.
      intros s Hs. apply IHo; [done|]. intros n Hn. apply H.
      apply elem_of_app. right. apply elem_of_flat_map. eauto.
Qed.

Lemma FunctionEliminator_ext (A B : gset string) tree :
  (∀ n, n ∈ defined tree → n ∈ A ↔ n ∈ B) →
  visit (FunctionEliminator A) tree = visit (FunctionEliminator B) tree.
Proof.
  destruct tree as [body]. intros H. rewrite !FunctionEliminator_visit.
  do 2 f_equal. apply flat_map_ext_Forall, Forall_forall. intros s Hs.
  apply delete_dead_ext. intros n Hn. apply H. cbn.
  apply elem_of_flat_map. eauto.
Qed.

(** X3.  Deleting the functions named in [A] and then those named in [B]
    is deleting those named in [A ∪ B] at once, in either order; with the
    empty set nothing is deleted; and two sets that hold the same names among
    the [FunctionDef] names of the tree give the same result (names in [fns]
    that the tree does not define are ignored). *)
Theorem FunctionEliminator_union (A B : gset string) (tree : py_module) :
  visit (FunctionEliminator A) tree ≫= visit (FunctionEliminator B) =
    visit (FunctionEliminator (A ∪ B)) tree
  ∧ visit (FunctionEliminator A) tree ≫= visit (FunctionEliminator B) =
      visit (FunctionEliminator B) tree ≫= visit (FunctionEliminator A)
  ∧ visit (FunctionEliminator ∅) tree = OK tree
  ∧ ((∀ n, n ∈ defined tree → n ∈ A ↔ n ∈ B) →
       visit (FunctionEliminator A) tree = visit (FunctionEliminator B) tree).
Proof.
  destruct tree as [body].
  assert (∀ A B, visit (FunctionEliminator A) (PyModule body)
                   ≫= visit (FunctionEliminator B) =
                 visit (FunctionEliminator (A ∪ B)) (PyModule body)) as Hunion.
  { intros A' B'. rewrite !FunctionEliminator_visit, bind_OK.
    rewrite FunctionEliminator_visit. do 2 f_equal.
    rewrite flat_map_flat_map. apply flat_map_ext_Forall, Forall_forall.
    intros s _. apply delete_dead_union. }
  split_and!.
  - apply Hunion.
  - by rewrite !Hunion, (comm_L (∪) A B).
  - apply FunctionEliminator_empty.
  - apply FunctionEliminator_ext.
Qed.

Lemma FunctionEliminator_union_witness :
  visit (FunctionEliminator {["unused"; "missing"]}) undefined_code =
    visit (FunctionEliminator {["unused"]}) undefined_code.
Proof.
  apply (FunctionEliminator_union {["unused"; "missing"]} {["unused"]} undefined_code).
  intros n Hn. cbn in Hn.
  assert (n ≠ "missing") as Hne by (intros ->; set_solver).
  set_solver.
Defined.

(** ** Constant folding keeps the value of an expression *)

(** X4.  Constant folding keeps the value of an expression: in every
    environment the expression the pass returns evaluates as the expression
    it was given does (to the same value, or raising the same exception). *)
Theorem constant_folding_preserves_eval (env : gmap string constant)
    (node node' : expr) :
  visit_expr ConstantFolder node = OK node' → eval env node' = eval env node.
Proof.
  revert node'. induction node as [l op r IHl IHr|op e IH|l ops cs IHl IHcs
    |f args IHf IHargs|v a c IH|v|id c] using expr_ind; intros node';
    cbn [visit_expr].
  - destruct (visit_expr ConstantFolder l) as [l'|]; [|done]. rewrite bind_OK.
    destruct (visit_expr ConstantFolder r) as [r'|]; [|done]. rewrite bind_OK.
    cbn [visit_BinOp eval]. rewrite <- (IHl l'), <- (IHr r') by done.
    rewrite ConstantFolder_visit_BinOp_redex.
    destruct l' as [| | | | |lv|], r' as [| | | | |rv|];
      try by intros [= <-].
    destruct (folds op); [|by intros [= <-]].
    cbn. destruct (binop_eval op lv rv); [|done]. by intros [= <-].
  - destruct (visit_expr ConstantFolder e) as [e'|]; [|done]. rewrite bind_OK.
    intros [= <-]. destruct op; cbn; try done. by rewrite (IH e').
  - destruct (visit_expr ConstantFolder l) as [l'|]; [|done]. rewrite bind_OK.
    destruct (mapM _ cs) as [cs'|]; [|done]. by intros [= <-].
  - destruct (visit_expr ConstantFolder f) as [f'|]; [|done]. rewrite bind_OK.
    destruct (mapM _ args) as [args'|]; [|done]. by intros [= <-].
  - destruct (visit_expr ConstantFolder v) as [v'|]; [|done]. by intros [= <-].
  - by intros [= <-].
  - by intros [= <-].
Qed.

Lemma constant_folding_preserves_eval_witness :
  eval {["x" := CInt 3]} (BinOp (Name "x" Load) Add (num 3)) =
    eval {["x" := CInt 3]}
      (BinOp (Name "x" Load) Add (BinOp (num 1) Add (num 2))).
Proof.
  apply (constant_folding_preserves_eval {["x" := CInt 3]}
           (BinOp (Name "x" Load) Add (BinOp (num 1) Add (num 2)))).
  reflexivity.
Defined.

(** ** Strength reduction on integer expressions *)

Lemma int_expr_eval env node v :
  int_expr env node = true → eval env node = OK v → ∃ n, v = CInt n.
Proof.
  revert v. induction node as [l op r IHl IHr|op e IH|l ops cs IHl IHcs
    |f args IHf IHargs|c a ctx IH|c|id ctx] using expr_ind; intros v; cbn;
    try done.
  - intros H. apply andb_prop in H as [H Hop]. apply andb_prop in H as [Hl Hr].
    destruct (eval env l) as [a|]; [|done].
    destruct (eval env r) as [b|]; [|done]. cbn.
    destruct (IHl a Hl eq_refl) as [x ->], (IHr b Hr eq_refl) as [y ->].
    destruct op; try done; cbn.
    + intros [= <-]. eauto.
    + intros [= <-]. eauto.
    + intros [= <-]. eauto.
    + destruct (y =? 0)%Z; [done|]. intros [= <-]. eauto.
    + intros [= <-]. eauto.
  - destruct op; try done. intros He.
    destruct (eval env e) as [a|]; [|done]. cbn.
    destruct (IH a He eq_refl) as [x ->]. intros [= <-]. eauto.
  - destruct c; try done. intros _ [= <-]. eauto.
  - destruct (env !! id) as [[]|]; try done. intros _ [= <-]. eauto.
Qed.

Lemma is_Constant_int_expr env n node :
  int_expr env node = true → is_Constant n node = true → node = Constant (CInt n).
Proof.
  destruct node as [| | | | |[]|]; cbn; try done.
  intros _ ->%Z.eqb_eq. done.
Qed.

(** The rule applied to operands over the integers keeps the value. *)
Lemma StrengthReducer_visit_BinOp_int env left op right :
  int_expr env left = true → int_expr env right = true → int_operator op = true →
  int_expr env (StrengthReducer_visit_BinOp left op right) = true
  ∧ eval env (StrengthReducer_visit_BinOp left op right) =
      eval env (BinOp left op right).
Proof.
  intros Hl Hr Hop. unfold StrengthReducer_visit_BinOp.
  pose proof (int_expr_eval env left) as Hlv.
  pose proof (int_expr_eval env right) as Hrv.
  repeat case_match;
    repeat match goal with
    | H : _ && _ = true |- _ => apply andb_prop in H as [? ?]
    | H : is_Constant _ _ = true |- _ =>
        apply (is_Constant_int_expr env) in H; [subst|done]
    | H : operator_eqb ?o _ = true |- _ => destruct o; try done; clear H
    end; (split; [by cbn; rewrite ?Hl, ?Hr|]); cbn.
  - destruct (eval env left) as [a|]; [|done]. cbn.
    destruct (Hlv a Hl eq_refl) as [x ->]. cbn. do 2 f_equal.
    exact (Z.land_ones x 1 ltac:(lia)).
  - destruct (eval env right) as [b|]; [|done]. cbn.
    by destruct (Hrv b Hr eq_refl) as [y ->].
  - destruct (eval env left) as [a|]; [|done]. cbn.
    destruct (Hlv a Hl eq_refl) as [x ->]. cbn. by rewrite Z.add_0_r.
  - destruct (eval env right) as [b|]; [|done]. cbn.
    destruct (Hrv b Hr eq_refl) as [y ->]. cbn. by destruct y.
  - destruct (eval env left) as [a|]; [|done]. cbn.
    destruct (Hlv a Hl eq_refl) as [x ->]. cbn. by rewrite Z.mul_1_r.
  - destruct (eval env right) as [b|]; [|done]. cbn.
    by destruct (Hrv b Hr eq_refl) as [y ->].
  - done.
Qed.

(** X5.  On an expression over the integers (integer literals, variables
    bound to integers, [+ - * % &] and unary minus) strength reduction
    returns an expression over the integers that evaluates as the one it was
    given does, negative operands of [% 2] included. *)
Theorem strength_reduction_preserves_int_eval (env : gmap string constant)
    (node : expr) :
  int_expr env node = true →
  ∃ node', visit_expr StrengthReducer node = OK node'
    ∧ int_expr env node' = true
    ∧ eval env node' = eval env node.
Proof.
  induction node as [l op r IHl IHr|op e IH|l ops cs IHl IHcs
    |f args IHf IHargs|c a ctx IH|c|id ctx] using expr_ind; cbn [int_expr];
    try done.
  - intros H. apply andb_prop in H as [H Hop]. apply andb_prop in H as [Hl Hr].
    destruct (IHl Hl) as (l' & Hvl & Hil & Hel).
    destruct (IHr Hr) as (r' & Hvr & Hir & Her).
    exists (StrengthReducer_visit_BinOp l' op r').
    cbn [visit_expr]. rewrite Hvl, bind_OK, Hvr, bind_OK.
    destruct (StrengthReducer_visit_BinOp_int env l' op r' Hil Hir Hop)
      as [Hi He].
    split_and!; [done|done|]. rewrite He. cbn. by rewrite Hel, Her.
  - destruct op; try done. intros He.
    destruct (IH He) as (e' & Hv & Hi & Hev).
    exists (UnaryOp USub e'). cbn. rewrite Hv. cbn. by rewrite Hev.
  - intros H. by exists (Constant c).
  - intros H. by exists (Name id ctx).
Qed.

Lemma strength_reduction_preserves_int_eval_witness :
  ∃ node',
    visit_expr StrengthReducer
      (BinOp (BinOp (num 0) Add (Name "x" Load)) Mod (num 2)) = OK node'
    ∧ int_expr {["x" := CInt (-7)]} node' = true
    ∧ eval {["x" := CInt (-7)]} node' =
        eval {["x" := CInt (-7)]}
          (BinOp (BinOp (num 0) Add (Name "x" Load)) Mod (num 2)).
Proof.
  apply (strength_reduction_preserves_int_eval {["x" := CInt (-7)]}).
  reflexivity.
Defined.

(** ** The graph of a list is the union of the graphs of its elements *)

Lemma graph_eq (G H : DiGraph) : nodes G = nodes H → edges G = edges H → G = H.
Proof. destruct G, H. cbn. by intros -> ->. Qed.

Lemma graph_union_empty G : graph_union G empty_graph = G.
Proof. apply graph_eq; cbn; set_solver. Qed.

Lemma graph_union_assoc G1 G2 G3 :
  graph_union G1 (graph_union G2 G3) = graph_union (graph_union G1 G2) G3.
Proof. apply graph_eq; cbn; set_solver. Qed.

Lemma add_node_union n G : add_node n G = graph_union G (add_node n empty_graph).
Proof. apply graph_eq; cbn; set_solver. Qed.

Lemma add_edge_union u v G : add_edge u v G = graph_union G (add_edge u v empty_graph).
Proof. apply graph_eq; cbn; set_solver. Qed.

Lemma fold_left_union {A} (f : DiGraph → A → DiGraph) (l : list A) :
  Forall (λ x, ∀ G, f G x = graph_union G (f empty_graph x)) l →
  ∀ G, fold_left f l G = graph_union G (fold_left f l empty_graph).
Proof.
  induction 1 as [|x l Hx _ IH]; intros G; cbn.
  - by rewrite graph_union_empty.
  - rewrite IH, (IH (f empty_graph x)), Hx. by rewrite graph_union_assoc.
Qed.

Lemma DeadFunctionIdentifier_visit_expr_union current_fn node G :
  DeadFunctionIdentifier_visit_expr current_fn node G =
    graph_union G (DeadFunctionIdentifier_visit_expr current_fn node empty_graph).
Proof.
  revert G. induction node as [l op r IHl IHr|op e IH|l ops cs IHl IHcs
    |f args IHf IHargs|v a c IH|v|id c] using expr_ind; intros G; cbn.
  - rewrite IHr, IHl, (IHr (DeadFunctionIdentifier_visit_expr _ l _)).
    by rewrite graph_union_assoc.
  - apply IH.
  - rewrite (fold_left_union _ cs IHcs), IHl.
    rewrite (fold_left_union _ cs IHcs (DeadFunctionIdentifier_visit_expr _ l _)).
    by rewrite graph_union_assoc.
  - rewrite (fold_left_union _ args IHargs), IHf.
    rewrite (fold_left_union _ args IHargs (DeadFunctionIdentifier_visit_expr _ f _)).
    rewrite (IHf (match f with Name target _ => add_edge _ target empty_graph
                  | _ => empty_graph end)).
    rewrite !graph_union_assoc. do 2 f_equal.
    destruct f; rewrite ?graph_union_empty; try done. apply add_edge_union.
  - apply IH.
  - by rewrite graph_union_empty.
  - by rewrite graph_union_empty.
Qed.

Lemma DeadFunctionIdentifier_visit_exprs_union current_fn (l : list expr) G :
  fold_left (λ g e, DeadFunctionIdentifier_visit_expr current_fn e g) l G =
    graph_union G
      (fold_left (λ g e, DeadFunctionIdentifier_visit_expr current_fn e g) l empty_graph).
Proof.
  apply fold_left_union, Forall_forall. intros e _ G'.
  apply DeadFunctionIdentifier_visit_expr_union.
Qed.

Lemma DeadFunctionIdentifier_visit_stmt_union current_fn node G :
  DeadFunctionIdentifier_visit_stmt current_fn node G =
    graph_union G (DeadFunctionIdentifier_visit_stmt current_fn node empty_graph).
Proof.
  revert current_fn G.
  induction node as [name body IH|v|ts v|t body orelse IHb IHo|v]
    using stmt_ind; intros current_fn G; cbn [DeadFunctionIdentifier_visit_stmt].
  - assert (Forall (λ s, ∀ G, DeadFunctionIdentifier_visit_stmt (InFunctionDef name) s G =
        graph_union G (DeadFunctionIdentifier_visit_stmt (InFunctionDef name) s empty_graph))
        body) as IH' by (eapply Forall_impl; [exact IH|]; auto).
    rewrite (fold_left_union _ body IH').
    rewrite (fold_left_union _ body IH' (add_node name empty_graph)).
    by rewrite graph_union_assoc, <- add_node_union.
  - destruct v as [v|]; [apply DeadFunctionIdentifier_visit_expr_union|].
    by rewrite graph_union_empty.
  - rewrite DeadFunctionIdentifier_visit_expr_union.
    rewrite DeadFunctionIdentifier_visit_exprs_union.
    rewrite (DeadFunctionIdentifier_visit_expr_union _ _ (fold_left _ _ _)).
    by rewrite graph_union_assoc.
  - assert (∀ l, Forall (λ s, ∀ c G, DeadFunctionIdentifier_visit_stmt c s G =
        graph_union G (DeadFunctionIdentifier_visit_stmt c s empty_graph)) l →
        Forall (λ s, ∀ G, DeadFunctionIdentifier_visit_stmt current_fn s G =
        graph_union G (DeadFunctionIdentifier_visit_stmt current_fn s empty_graph)) l)
        as Hc by (intros l Hl; eapply Forall_impl; [exact Hl|]; auto).
    apply Hc in IHb, IHo.
    rewrite (fold_left_union _ orelse IHo), (fold_left_union _ body IHb).
    rewrite DeadFunctionIdentifier_visit_expr_union.
    rewrite (fold_left_union _ orelse IHo (fold_left _ _ _)).
    rewrite (fold_left_union _ body IHb (DeadFunctionIdentifier_visit_expr _ _ _)).
    by rewrite !graph_union_assoc.
  - apply DeadFunctionIdentifier_visit_expr_union.
Qed.

Lemma elem_of_edges_fold {A} (f : DiGraph → A → DiGraph) (l : list A) G e :
  (∀ x G, f G x = graph_union G (f empty_graph x)) →
  e ∈ edges (fold_left f l G) ↔
    e ∈ edges G ∨ ∃ x, x ∈ l ∧ e ∈ edges (f empty_graph x).
Proof.
  intros Hf. revert G. induction l as [|x l IH]; intros G; cbn.
  - split; [by left|]. intros [?|(x & ?%elem_of_nil & _)]; done.
  - rewrite IH, Hf. cbn. rewrite elem_of_union. split.
    + intros [[?|?]|(y & ? & ?)]; [by left|right..].
      * exists x. split; [left|done].
      * exists y. split; [by right|done].
    + intros [?|(y & [->|?]%elem_of_cons & ?)]; [by left; left|by left; right|].
      right. eauto.
Qed.

Lemma elem_of_nodes_fold {A} (f : DiGraph → A → DiGraph) (l : list A) G n :
  (∀ x G, f G x = graph_union G (f empty_graph x)) →
  n ∈ nodes (fold_left f l G) ↔
    n ∈ nodes G ∨ ∃ x, x ∈ l ∧ n ∈ nodes (f empty_graph x).
Proof.
  intros Hf. revert G. induction l as [|x l IH]; intros G; cbn.
  - split; [by left|]. intros [?|(x & ?%elem_of_nil & _)]; done.
  - rewrite IH, Hf. cbn. rewrite elem_of_union. split.
    + intros [[?|?]|(y & ? & ?)]; [by left|right..].
      * exists x. split; [left|done].
      * exists y. split; [by right|done].
    + intros [?|(y & [->|?]%elem_of_cons & ?)]; [by left; left|by left; right|].
      right. eauto.
Qed.

(** The edges of the call graph of a module are those of its statements. *)
Lemma elem_of_edges_call_graph body e :
  e ∈ edges (call_graph (PyModule body)) ↔
    ∃ s, s ∈ body ∧ e ∈ edges (DeadFunctionIdentifier_visit_stmt AtStart s empty_graph).
Proof.
  cbn. unfold DeadFunctionIdentifier_visit_stmts.
  rewrite elem_of_edges_fold
    by (intros; apply DeadFunctionIdentifier_visit_stmt_union).
  cbn. set_solver.
Qed.

Lemma elem_of_nodes_call_graph body n :
  n ∈ nodes (call_graph (PyModule body)) ↔
    n = "start" ∨
    ∃ s, s ∈ body ∧ n ∈ nodes (DeadFunctionIdentifier_visit_stmt AtStart s empty_graph).
Proof.
  cbn. unfold DeadFunctionIdentifier_visit_stmts.
  rewrite elem_of_nodes_fold
    by (intros; apply DeadFunctionIdentifier_visit_stmt_union).
  cbn. set_solver.
Qed.

(** ** The nodes of the call graph *)

(** A node added while visiting an expression is an end point of an edge. *)
Lemma DeadFunctionIdentifier_visit_expr_nodes current_fn node n :
  n ∈ nodes (DeadFunctionIdentifier_visit_expr current_fn node empty_graph) →
  ∃ a b, (a, b) ∈ edges (DeadFunctionIdentifier_visit_expr current_fn node empty_graph)
    ∧ (n = a ∨ n = b).
Proof.
  assert (∀ (l : list expr) n,
    Forall (λ e, ∀ n, n ∈ nodes (DeadFunctionIdentifier_visit_expr current_fn e empty_graph) →
      ∃ a b, (a, b) ∈ edges (DeadFunctionIdentifier_visit_expr current_fn e empty_graph)
        ∧ (n = a ∨ n = b)) l →
    n ∈ nodes (fold_left (λ g e, DeadFunctionIdentifier_visit_expr current_fn e g) l empty_graph) →
    ∃ a b, (a, b) ∈ edges (fold_left (λ g e, DeadFunctionIdentifier_visit_expr current_fn e g) l empty_graph)
      ∧ (n = a ∨ n = b)) as Hfold.
  { intros l m Hl. rewrite Forall_forall in Hl.
    rewrite elem_of_nodes_fold
      by (intros; apply DeadFunctionIdentifier_visit_expr_union).
    intros [?|(e & He & Hm)]; [set_solver|].
    destruct (Hl e He m Hm) as (a & b & Hab & Hn). exists a, b.
    split; [|done].
    apply elem_of_edges_fold;
      [intros; apply DeadFunctionIdentifier_visit_expr_union|eauto]. }
  revert n. induction node as [l op r IHl IHr|op e IH|l ops cs IHl IHcs
    |f args IHf IHargs|v a c IH|v|id c] using expr_ind; intros n; cbn.
  - rewrite DeadFunctionIdentifier_visit_expr_union. cbn.
    intros [Hn|Hn]%elem_of_union.
    + destruct (IHl n Hn) as (a & b & ? & ?). exists a, b. set_solver.
    + destruct (IHr n Hn) as (a & b & ? & ?). exists a, b. set_solver.
  - apply IH.
  - rewrite DeadFunctionIdentifier_visit_exprs_union. cbn.
    intros [Hn|Hn]%elem_of_union.
    + destruct (IHl n Hn) as (a & b & ? & ?). exists a, b. set_solver.
    + destruct (Hfold cs n IHcs Hn) as (a & b & ? & ?). exists a, b. set_solver.
  - rewrite DeadFunctionIdentifier_visit_exprs_union,
      DeadFunctionIdentifier_visit_expr_union. cbn.
    intros [[Hn|Hn]%elem_of_union|Hn]%elem_of_union.
    + destruct f as [| | | | | |target ctx];
        try by apply not_elem_of_empty in Hn.
      exists (cursor_name current_fn), target. cbn in *. set_solver.
    + destruct (IHf n Hn) as (a & b & ? & ?). exists a, b. set_solver.
    + destruct (Hfold args n IHargs Hn) as (a & b & ? & ?). exists a, b.
      set_solver.
  - apply IH.
  - set_solver.
  - set_solver.
Qed.

(** A node added while visiting a statement is the name of a [FunctionDef]
    of the statement or an end point of an edge. *)
Lemma DeadFunctionIdentifier_visit_stmt_nodes current_fn node n :
  n ∈ nodes (DeadFunctionIdentifier_visit_stmt current_fn node empty_graph) →
  n ∈ FunctionDef_names node
  ∨ ∃ a b, (a, b) ∈ edges (DeadFunctionIdentifier_visit_stmt current_fn node empty_graph)
      ∧ (n = a ∨ n = b).
Proof.
  assert (∀ c (l : list expr) n,
    n ∈ nodes (fold_left (λ g e, DeadFunctionIdentifier_visit_expr c e g) l empty_graph) →
    ∃ a b, (a, b) ∈ edges (fold_left (λ g e, DeadFunctionIdentifier_visit_expr c e g) l empty_graph)
      ∧ (n = a ∨ n = b)) as Hexprs.
  { intros c l m.
    rewrite elem_of_nodes_fold
      by (intros; apply DeadFunctionIdentifier_visit_expr_union).
    intros [?|(e & He & Hm)]; [set_solver|].
    destruct (DeadFunctionIdentifier_visit_expr_nodes c e m Hm)
      as (a & b & Hab & Hn).
    exists a, b. split; [|done].
    apply elem_of_edges_fold;
      [intros; apply DeadFunctionIdentifier_visit_expr_union|eauto]. }
  assert (∀ c (l : list stmt) G n,
    Forall (λ s, ∀ c n, n ∈ nodes (DeadFunctionIdentifier_visit_stmt c s empty_graph) →
      n ∈ FunctionDef_names s
      ∨ ∃ a b, (a, b) ∈ edges (DeadFunctionIdentifier_visit_stmt c s empty_graph)
          ∧ (n = a ∨ n = b)) l →
    n ∈ nodes (fold_left (λ g s, DeadFunctionIdentifier_visit_stmt c s g) l G) →
    n ∈ nodes G ∨ n ∈ flat_map FunctionDef_names l
    ∨ ∃ a b, (a, b) ∈ edges (fold_left (λ g s, DeadFunctionIdentifier_visit_stmt c s g) l G)
        ∧ (n = a ∨ n = b)) as Hstmts.
  { intros c l G m Hl. rewrite Forall_forall in Hl.
    rewrite elem_of_nodes_fold
      by (intros; apply DeadFunctionIdentifier_visit_stmt_union).
    intros [?|(s & Hs & Hm)]; [by left|right].
    destruct (Hl s Hs c m Hm) as [?|(a & b & Hab & Hn)].
    - left. apply elem_of_flat_map. eauto.
    - right. exists a, b. split; [|done].
      apply elem_of_edges_fold;
        [intros; apply DeadFunctionIdentifier_visit_stmt_union|eauto]. }
  revert current_fn n.
  induction node as [name body IH|v|ts v|t body orelse IHb IHo|v]
    using stmt_ind; intros current_fn n;
    cbn [DeadFunctionIdentifier_visit_stmt FunctionDef_names].
  - intros [Hn|[Hn|Hn]]%Hstmts; [|set_solver|by right|done].
    cbn in Hn. set_solver.
  - destruct v as [v|]; [|set_solver]. intros Hn. right.
    by apply DeadFunctionIdentifier_visit_expr_nodes.
  - rewrite DeadFunctionIdentifier_visit_expr_union. cbn.
    intros [Hn|Hn]%elem_of_union; right.
    + destruct (Hexprs _ _ _ Hn) as (a & b & ? & ?). exists a, b. set_solver.
    + destruct (DeadFunctionIdentifier_visit_expr_nodes _ _ _ Hn)
        as (a & b & ? & ?).
      exists a, b. set_solver.
  - intros [Hn|[Hn|Hn]]%Hstmts; [|set_solver|by right|done].
    apply Hstmts in Hn as [Hn|[Hn|Hn]]; [|set_solver| |done].
    + destruct (DeadFunctionIdentifier_visit_expr_nodes _ _ _ Hn)
        as (a & b & Hab & ?).
      right. exists a, b. split; [|done].
      apply elem_of_edges_fold;
        [intros; apply DeadFunctionIdentifier_visit_stmt_union|left].
      apply elem_of_edges_fold;
        [intros; apply DeadFunctionIdentifier_visit_stmt_union|by left].
    + destruct Hn as (a & b & Hab & ?). right. exists a, b. split; [|done].
      apply elem_of_edges_fold;
        [intros; apply DeadFunctionIdentifier_visit_stmt_union|by left].
  - intros Hn. right. by apply DeadFunctionIdentifier_visit_expr_nodes.
Qed.

(** The nodes of the call graph: the entry, the defined functions and the
    names that are called. *)
Lemma elem_of_nodes_call_graph_calls tree n :
  n ∈ nodes (call_graph tree) ↔
    n = "start" ∨ n ∈ defined tree ∨ ∃ a, calls tree a n.
Proof.
  split.
  - destruct tree as [body].
    intros [->|(s & Hs & Hn)]%elem_of_nodes_call_graph; [by left|].
    apply DeadFunctionIdentifier_visit_stmt_nodes in Hn
      as [Hn|(a & b & Hab & Hn)].
    + right; left. apply elem_of_flat_map. eauto.
    + assert (calls (PyModule body) a b) as Hcalls
        by (apply elem_of_edges_call_graph; eauto).
      destruct Hn as [->| ->]; [|by right; right; exists a].
      destruct (calls_source _ _ _ Hcalls); auto.
  - intros [->|[Hn|[a Ha]]].
    + apply call_graph_start.
    + by apply call_graph_defined.
    + by apply (call_graph_wf tree a n).
Qed.

(** ** What [get_unreachable] returns *)

Lemma reachable_not_unreachable tree x :
  rtc (calls tree) "start" x → x ∉ get_unreachable tree.
Proof. rewrite elem_of_get_unreachable. tauto. Qed.

Lemma not_unreachable_reachable tree x :
  x ∈ nodes (call_graph tree) → x ∉ get_unreachable tree →
  rtc (calls tree) "start" x.
Proof.
  intros Hx Hn. unfold get_unreachable in Hn. cbn zeta in Hn.
  apply (descendants_reachable (call_graph tree) "start" x);
    [apply call_graph_wf|apply call_graph_start|].
  destruct (decide (x ∈ descendants (call_graph tree) "start" ∪ {["start"]}))
    as [|Hnot]; [done|].
  destruct Hn. by apply elem_of_difference.
Qed.

(** X6.  What [get_unreachable] returns: never the entry ["start"]; a name
    it returns is the name of a [FunctionDef] or is called by a function it
    returns too; and it returns every caller of a name it returns. *)
Theorem get_unreachable_closed (tree : py_module) :
  ("start" ∉ get_unreachable tree)
  ∧ (∀ n, n ∈ get_unreachable tree →
       n ∈ defined tree
       ∨ ∃ a, a ∈ defined tree ∧ a ∈ get_unreachable tree ∧ calls tree a n)
  ∧ (∀ a n, calls tree a n → n ∈ get_unreachable tree →
       a ∈ get_unreachable tree).
Proof.
  assert (∀ a n, calls tree a n → n ∈ get_unreachable tree →
            a ∈ get_unreachable tree) as Hclosed.
  { intros a n Hcall [Hn Hr]%elem_of_get_unreachable.
    apply elem_of_get_unreachable. split.
    - by apply (call_graph_wf tree a n).
    - intros Ha. apply Hr. by eapply rtc_r. }
  split_and!; [|
    |exact Hclosed].
  - apply reachable_not_unreachable. done.
  - intros n Hn. pose proof Hn as [Hnode Hr]%elem_of_get_unreachable.
    apply elem_of_nodes_call_graph_calls in Hnode as [->|[?|[a Ha]]].
    + by destruct Hr.
    + by left.
    + destruct (calls_source _ _ _ Ha) as [->|Hd].
      * destruct Hr. by apply rtc_once.
      * right. exists a. eauto.
Qed.

Lemma get_unreachable_closed_witness :
  "missing" ∈ defined undefined_code
  ∨ ∃ a, a ∈ defined undefined_code ∧ a ∈ get_unreachable undefined_code
      ∧ calls undefined_code a "missing".
Proof.
  apply (get_unreachable_closed undefined_code).
  apply (bool_decide_unpack _). vm_compute. reflexivity.
Defined.

(** ** Functions that no call names *)

(** X7.  A function, not named ["start"], that no call [f(...)] names is
    deleted, whatever other uses of its name the module has (as an argument,
    in an assignment, as an attribute): [visit_Call] records a call only when
    its [func] is a [Name]. *)
Theorem uncalled_function_deleted (body : list stmt) (f : string) :
  f ∈ defined (PyModule body) → f ≠ "start" →
  (∀ caller, ¬ calls (PyModule body) caller f) →
  f ∈ get_unreachable (PyModule body)
  ∧ ∃ out, DeadFunctionEliminator_visit (PyModule body) = OK out
      ∧ f ∉ defined out.
Proof.
  intros Hdef Hstart Hcalls.
  assert (f ∈ get_unreachable (PyModule body)) as Hdead.
  { apply defined_unreachable; [done|].
    intros [Heq|(a & _ & Ha)]%rtc_inv_r; [done|]. by apply (Hcalls a). }
  split; [done|]. eexists. split; [apply FunctionEliminator_visit|].
  intros Hout. by apply delete_dead_names_list in Hout as [_ Hout].
Qed.

Lemma uncalled_function_deleted_witness :
  "on_event" ∈ get_unreachable callback_code
  ∧ ∃ out, DeadFunctionEliminator_visit callback_code = OK out
      ∧ "on_event" ∉ defined out.
Proof.
  apply (uncalled_function_deleted _ "on_event").
  - apply (bool_decide_unpack _). vm_compute. reflexivity.
  - discriminate.
  - intros caller Hc. unfold calls in Hc. apply elem_of_elements in Hc.
    vm_compute in Hc. apply list_elem_of_singleton in Hc. discriminate.
Defined.

(** ** Modules with all the definitions at the top level *)

Lemma no_defs_names (body : list stmt) :
  forallb no_defs body = true → flat_map FunctionDef_names body = [].
Proof.
  induction body as [|s body IH]; cbn; [done|].
  intros [Hs Hb]%andb_prop. unfold no_defs in Hs.
  apply bool_decide_eq_true in Hs. by rewrite Hs, IH.
Qed.

Lemma top_level_stmt body s :
  top_level_defs_only (PyModule body) = true → s ∈ body →
  match s with
  | FunctionDef _ inner => forallb no_defs inner = true
  | _ => no_defs s = true
  end.
Proof.
  cbn. rewrite forallb_forall. intros H Hs%list_elem_of_In.
  specialize (H s Hs). by destruct s.
Qed.

Section kept_statements.
Context (body : list stmt) (dead : gset string).
Let kept : list stmt := filter (λ s, dead_def dead s = false) body.

Lemma calls_filter a b : calls (PyModule kept) a b → calls (PyModule body) a b.
Proof.
  unfold calls. rewrite !elem_of_edges_call_graph.
  intros (s & Hs%list_elem_of_filter & He). exists s. tauto.
Qed.

Lemma defined_filter n : n ∈ defined (PyModule kept) → n ∈ defined (PyModule body).
Proof.
  cbn. rewrite !elem_of_flat_map.
  intros (s & Hn & Hs%list_elem_of_filter). exists s. tauto.
Qed.

Hypothesis Htop : top_level_defs_only (PyModule body) = true.

Lemma defined_filter_dead n : n ∈ defined (PyModule kept) → n ∉ dead.
Proof.
  cbn. rewrite elem_of_flat_map.
  intros (s & Hn & [Hkeep Hs]%list_elem_of_filter).
  pose proof (top_level_stmt body s Htop Hs) as Hinner.
  destruct s as [name inner| | | |];
    try (unfold no_defs in Hinner; apply bool_decide_eq_true in Hinner;
         rewrite Hinner in Hn; by apply elem_of_nil in Hn).
  cbn in Hn, Hkeep. rewrite (no_defs_names inner Hinner) in Hn.
  apply list_elem_of_singleton in Hn as ->.
  by apply bool_decide_eq_false in Hkeep.
Qed.

Lemma defined_kept n :
  n ∈ defined (PyModule body) → n ∉ dead → n ∈ defined (PyModule kept).
Proof.
  cbn. rewrite !elem_of_flat_map. intros (s & Hn & Hs) Hdead.
  pose proof (top_level_stmt body s Htop Hs) as Hinner.
  exists s. split; [done|]. apply list_elem_of_filter. split; [|done].
  destruct s as [name inner| | | |]; try done.
  cbn in Hn. rewrite (no_defs_names inner Hinner) in Hn.
  apply list_elem_of_singleton in Hn as ->. cbn.
  by apply bool_decide_eq_false.
Qed.

Lemma calls_kept a b :
  calls (PyModule body) a b → a ∉ dead → calls (PyModule kept) a b.
Proof.
  unfold calls. rewrite !elem_of_edges_call_graph.
  intros (s & Hs & He) Hdead. exists s. split; [|done].
  apply list_elem_of_filter. split; [|done].
  pose proof (top_level_stmt body s Htop Hs) as Hinner.
  destruct s as [name inner| | | |]; try done.
  cbn. apply bool_decide_eq_false. intros Hname. apply Hdead.
  cbn [DeadFunctionIdentifier_visit_stmt] in He.
  destruct (DeadFunctionIdentifier_visit_stmts_grows (InFunctionDef name) inner
              (add_node name empty_graph)) as (_ & _ & _ & Hsrc).
  destruct (Hsrc a b He) as [Hin|Hin].
  - unfold edge in Hin. cbn in Hin. by apply not_elem_of_empty in Hin.
  - rewrite (no_defs_names inner Hinner) in Hin. cbn in Hin.
    by apply list_elem_of_singleton in Hin as ->.
Qed.

End kept_statements.

Section top_level.
Context (body : list stmt).
Hypothesis Htop : top_level_defs_only (PyModule body) = true.
Let dead : gset string := get_unreachable (PyModule body).
Let kept : list stmt := filter (λ s, dead_def dead s = false) body.

Lemma DeadFunctionEliminator_visit_top_level :
  DeadFunctionEliminator_visit (PyModule body) = OK (PyModule kept).
Proof.
  unfold DeadFunctionEliminator_visit. rewrite FunctionEliminator_visit.
  by rewrite delete_dead_top_level.
Qed.

Lemma reachable_kept x :
  rtc (calls (PyModule body)) "start" x → rtc (calls (PyModule kept)) "start" x.
Proof.
  revert x. apply rtc_ind_r; [done|].
  intros y z Hy Hyz IH. eapply rtc_r; [exact IH|].
  apply calls_kept; [done..|]. by apply reachable_not_unreachable.
Qed.

Lemma defined_kept_reachable n :
  n ∈ defined (PyModule kept) → rtc (calls (PyModule body)) "start" n.
Proof.
  intros Hn. apply not_unreachable_reachable.
  - by apply call_graph_defined, (defined_filter body dead).
  - by apply (defined_filter_dead body dead).
Qed.

Lemma caller_kept_reachable a b :
  calls (PyModule kept) a b → rtc (calls (PyModule body)) "start" a.
Proof.
  intros [->|Ha]%calls_source; [done|]. by apply defined_kept_reachable.
Qed.

Lemma get_unreachable_kept : get_unreachable (PyModule kept) = ∅.
Proof.
  apply set_eq. intros x. split; [|by intros ?%not_elem_of_empty].
  intros [Hnode Hr]%elem_of_get_unreachable. destruct Hr.
  apply elem_of_nodes_call_graph_calls in Hnode as [->|[Hd|[a Ha]]].
  - done.
  - by apply reachable_kept, defined_kept_reachable.
  - eapply rtc_r; [|exact Ha].
    by eapply reachable_kept, caller_kept_reachable.
Qed.

End top_level.

(** X8.  On a module whose [FunctionDef]s are all at the top level,
    dead-function elimination applied to its own output deletes nothing
    more.  With nested definitions it can: in [nested_call_code] the second
    run deletes [k], which was only called from a nested function deleted
    with its dead parent. *)
Theorem dead_function_elimination_idempotent :
  (∀ tree tree', top_level_defs_only tree = true →
     DeadFunctionEliminator_visit tree = OK tree' →
     DeadFunctionEliminator_visit tree' = OK tree')
  ∧ ∃ tree', DeadFunctionEliminator_visit nested_call_code = OK tree'
      ∧ DeadFunctionEliminator_visit tree' = OK (PyModule [call "g"])
      ∧ tree' ≠ PyModule [call "g"].
Proof.
  split.
  - intros [body] tree' Htop.
    rewrite DeadFunctionEliminator_visit_top_level by done. intros [= <-].
    unfold DeadFunctionEliminator_visit.
    rewrite get_unreachable_kept by done. apply FunctionEliminator_empty.
  - eexists. split; [vm_compute; reflexivity|].
    split; [vm_compute; reflexivity|discriminate].
Qed.

Lemma dead_function_elimination_idempotent_witness :
  ∃ tree', DeadFunctionEliminator_visit dc_code = OK tree'
    ∧ DeadFunctionEliminator_visit tree' = OK tree'.
Proof.
  eexists. split; [vm_compute; reflexivity|].
  apply (proj1 dead_function_elimination_idempotent dc_code);
    [reflexivity|vm_compute; reflexivity].
Defined.

(** X9.  On a module whose [FunctionDef]s are all at the top level,
    dead-function elimination adds no call, and every function of the input
    that the output still calls is still defined in the output: no call is
    left without the definition it had. *)
Theorem kept_calls_stay_defined (tree tree' : py_module) :
  top_level_defs_only tree = true →
  DeadFunctionEliminator_visit tree = OK tree' →
  (∀ a b, calls tree' a b → calls tree a b)
  ∧ (∀ a b, calls tree' a b → b ∈ defined tree → b ∈ defined tree').
Proof.
  destruct tree as [body]. intros Htop.
  rewrite DeadFunctionEliminator_visit_top_level by done. intros [= <-].
  split; [intros a b; apply calls_filter|].
  intros a b Hcall Hb. apply defined_kept; [done..|].
  apply reachable_not_unreachable. eapply rtc_r.
  - by eapply caller_kept_reachable.
  - by eapply calls_filter.
Qed.

Lemma kept_calls_stay_defined_witness :
  ∃ tree', DeadFunctionEliminator_visit dc_code = OK tree'
    ∧ (∀ a b, calls tree' a b → calls dc_code a b)
    ∧ (∀ a b, calls tree' a b → b ∈ defined dc_code → b ∈ defined tree').
Proof.
  eexists. split; [vm_compute; reflexivity|].
  apply (kept_calls_stay_defined dc_code); [reflexivity|vm_compute; reflexivity].
Defined.

(** ** Properties of the expressions of a statement *)

Lemma forallb_ext_Forall {A} (f g : A → bool) (l : list A) :
  Forall (λ x, f x = g x) l → forallb f l = forallb g l.
Proof. induction 1 as [|x l Hx _ IH]; cbn; [done|]. by rewrite Hx, IH. Qed.

Lemma mapM_all {A} (f : A → result A) (P Q : A → bool) (l : list A) :
  Forall (λ x, P x = true → ∃ y, f x = OK y ∧ Q y = true) l →
  forallb P l = true →
  ∃ l', mapM f l = OK l' ∧ forallb Q l' = true.
Proof.
  induction 1 as [|x l Hx _ IH]; cbn; [by exists []|].
  intros [HPx Hl]%andb_prop.
  destruct (Hx HPx) as (y & -> & Hy), (IH Hl) as (l' & -> & Hl').
  exists (y :: l'). cbn. by rewrite Hy, Hl'.
Qed.

Lemma visit_exprs_all self (P Q : expr → bool) (l : list expr) :
  (∀ e, P e = true → ∃ e', visit_expr self e = OK e' ∧ Q e' = true) →
  forallb P l = true →
  ∃ l', mapM (visit_expr self) l = OK l' ∧ forallb Q l' = true.
Proof. intros HP. apply mapM_all, Forall_forall. auto. Qed.

Lemma visit_list_all (f : stmt → result (list stmt)) (P Q : stmt → bool)
    (l : list stmt) :
  Forall (λ s, P s = true → ∃ out, f s = OK out ∧ forallb Q out = true) l →
  forallb P l = true →
  ∃ l', visit_list f l = OK l' ∧ forallb Q l' = true.
Proof.
  induction 1 as [|s l Hs _ IH]; [by exists []|].
  cbn [forallb]. intros [HPs Hl]%andb_prop.
  destruct (Hs HPs) as (out & Hout & HQ), (IH Hl) as (l' & Hl' & HQ').
  exists (out ++ l'). rewrite visit_list_cons, Hout, bind_OK, Hl', bind_OK.
  split; [done|]. by rewrite forallb_app, HQ, HQ'.
Qed.

Lemma visit_stmt_all self (P Q : expr → bool) (node : stmt) :
  (∀ e, P e = true → ∃ e', visit_expr self e = OK e' ∧ Q e' = true) →
  all_exprs P node = true →
  ∃ out, visit_stmt self node = OK out ∧ forallb (all_exprs Q) out = true.
Proof.
  intros HP.
  induction node as [name body IH|v|ts v|t body orelse IHb IHo|v]
    using stmt_ind; cbn [all_exprs visit_stmt]; intros H.
  - destruct (drops_FunctionDef self name); [by exists []|].
    destruct (visit_list_all _ _ _ _ IH H) as (body' & -> & Hbody').
    eexists. split; [done|]. cbn. by rewrite Hbody'.
  - destruct v as [v|]; [|by eexists]. cbn in H.
    destruct (HP v H) as (v' & -> & Hv'). eexists. split; [done|].
    cbn. by rewrite Hv'.
  - apply andb_prop in H as [Hts Hv].
    destruct (visit_exprs_all self P Q ts HP Hts) as (ts' & -> & Hts').
    destruct (HP v Hv) as (v' & -> & Hv'). eexists. split; [done|].
    cbn. by rewrite Hts', Hv'.
  - apply andb_prop in H as [H Ho]. apply andb_prop in H as [Ht Hb].
    destruct (HP t Ht) as (t' & -> & Ht').
    destruct (visit_list_all _ _ _ _ IHb Hb) as (body' & -> & Hbody').
    destruct (visit_list_all _ _ _ _ IHo Ho) as (orelse' & -> & Horelse').
    eexists. split; [done|].
    destruct self; cbn; rewrite ?Ht', ?Hbody', ?Horelse'; try done.
    destruct t' as [| | | | |condition|]; cbn; rewrite ?Ht', ?Hbody', ?Horelse';
      try done.
    by destruct (truthy condition).
  - destruct (HP v H) as (v' & -> & Hv'). eexists. split; [done|].
    cbn. by rewrite Hv'.
Qed.

Lemma visit_all self (P Q : expr → bool) (body : list stmt) :
  (∀ e, P e = true → ∃ e', visit_expr self e = OK e' ∧ Q e' = true) →
  forallb (all_exprs P) body = true →
  ∃ body', visit self (PyModule body) = OK (PyModule body')
    ∧ forallb (all_exprs Q) body' = true.
Proof.
  intros HP Hbody.
  destruct (visit_list_all (visit_stmt self) (all_exprs P) (all_exprs Q) body)
    as (body' & Hv & HQ); [|done|].
  - apply Forall_forall. intros s _. by apply visit_stmt_all.
  - exists body'. cbn. unfold visit_stmts. by rewrite Hv.
Qed.

(** For the two passes over expressions, a statement is normal when its
    expressions are. *)
Lemma normal_stmt_all_exprs self node :
  self = ConstantFolder ∨ self = StrengthReducer →
  normal_stmt self node = all_exprs (normal self) node.
Proof.
  intros Hself.
  induction node as [name body IH|v|ts v|t body orelse IHb IHo|v]
    using stmt_ind; cbn; try done.
  - rewrite (forallb_ext_Forall _ _ _ IH). by destruct Hself as [-> | ->].
  - rewrite (forallb_ext_Forall _ _ _ IHb), (forallb_ext_Forall _ _ _ IHo).
    destruct Hself as [-> | ->]; cbn; by rewrite andb_true_r.
Qed.

Lemma normal_module_all_exprs self body :
  self = ConstantFolder ∨ self = StrengthReducer →
  normal_module self (PyModule body) = forallb (all_exprs (normal self)) body.
Proof.
  intros Hself. cbn. apply forallb_ext_Forall, Forall_forall.
  intros s _. by apply normal_stmt_all_exprs.
Qed.

(** ** Constant folding of integer arithmetic *)

Lemma ConstantFolder_visit_BinOp_int left op right :
  int_constants left = true → int_constants right = true →
  operator_eqb op Div = false →
  ∃ node, ConstantFolder_visit_BinOp left op right = OK node
    ∧ int_constants node = true.
Proof.
  intros Hl Hr Hop. rewrite ConstantFolder_visit_BinOp_redex.
  assert (int_constants (BinOp left op right) = true) as Hnode
    by (cbn; by rewrite Hl, Hr, Hop).
  destruct left as [| | | | |lv|]; try by eexists.
  destruct right as [| | | | |rv|]; try by eexists.
  destruct (folds op) eqn:Hfolds; [|by eexists].
  destruct lv as [|a|a| |]; try done; destruct rv as [|b|b| |]; try done;
    destruct op; try done; cbn; try (by eexists);
    try (destruct a; by eexists).
Qed.

Lemma ConstantFolder_visit_expr_int node :
  int_constants node = true →
  ∃ node', visit_expr ConstantFolder node = OK node'
    ∧ int_constants node' = true.
Proof.
  induction node as [l op r IHl IHr|op e IH|l ops cs IHl IHcs
    |f args IHf IHargs|v a c IH|v|id c] using expr_ind; cbn [int_constants];
    intros H.
  - apply andb_prop in H as [H Hop]. apply andb_prop in H as [Hl Hr].
    destruct (IHl Hl) as (l' & Hvl & Hl'), (IHr Hr) as (r' & Hvr & Hr').
    cbn. rewrite Hvl, Hvr. cbn -[ConstantFolder_visit_BinOp].
    apply ConstantFolder_visit_BinOp_int; [done..|].
    by destruct (operator_eqb op Div).
  - destruct (IH H) as (e' & Hv & He'). exists (UnaryOp op e').
    cbn. by rewrite Hv.
  - apply andb_prop in H as [Hl Hcs].
    destruct (IHl Hl) as (l' & Hvl & Hl').
    destruct (mapM_all _ _ _ _ IHcs Hcs) as (cs' & Hvcs & Hcs').
    exists (Compare l' ops cs'). cbn. rewrite Hvl, bind_OK, Hvcs.
    cbn. by rewrite Hl', Hcs'.
  - apply andb_prop in H as [Hf Hargs].
    destruct (IHf Hf) as (f' & Hvf & Hf').
    destruct (mapM_all _ _ _ _ IHargs Hargs) as (args' & Hvargs & Hargs').
    exists (Call f' args'). cbn. rewrite Hvf, bind_OK, Hvargs.
    cbn. by rewrite Hf', Hargs'.
  - destruct (IH H) as (v' & Hv & Hv'). exists (Attribute v' a c).
    cbn. by rewrite Hv.
  - by exists (Constant v).
  - by exists (Name id c).
Qed.

(** X10.  On a module whose constants are all ints or bools and that has
    no division no fold raises ([ZeroDivisionError], [TypeError] and
    [OverflowError] come from divisions and from other constants), and the
    folded module is of that kind again.  The traversal of the objects
    returns it, at the root it was given, whenever its depth budget [fuel]
    is at least the height of the tree; a tree nested deeper than the budget
    allows is not covered (the interpreter ends such a traversal with
    [RecursionError]). *)
Theorem constant_folding_ints_within_depth (body : list stmt)
    (h : list object) (root : nat) (F : gset nat) (fuel : nat) :
  forallb (all_exprs int_constants) body = true →
  represents h (PyModule body) root F →
  height_module (PyModule body) ≤ fuel →
  ∃ body' h' F',
    visit ConstantFolder (PyModule body) = OK (PyModule body')
    ∧ forallb (all_exprs int_constants) body' = true
    ∧ store_visit ConstantFolder fuel root h = Done h' (VNode root)
    ∧ represents h' (PyModule body') root F'
    ∧ modifies F h h'.
Proof.
  intros Hints Hrep Hfuel.
  destruct (visit_all ConstantFolder int_constants int_constants body
              ConstantFolder_visit_expr_int Hints) as (body' & Hvisit & Hints').
  pose proof (store_visit_module_refines ConstantFolder body fuel h root F
                Hrep Hfuel) as Href.
  rewrite Hvisit in Href.
  destruct Href as (h' & v & Hrun & -> & Hmod & F' & Hrep').
  exists body', h', F'. done.
Qed.

Lemma constant_folding_ints_within_depth_witness :
  ∃ body' h' F',
    visit ConstantFolder product_code = OK (PyModule body')
    ∧ forallb (all_exprs int_constants) body' = true
    ∧ store_visit ConstantFolder 4 0 product_heap = Done h' (VNode 0)
    ∧ represents h' (PyModule body') 0 F'
    ∧ modifies product_region product_heap h'.
Proof.
  apply (constant_folding_ints_within_depth
           [assign "y" (BinOp (num 10) Mult (num 10))] product_heap 0
           product_region 4).
  - reflexivity.
  - exact product_heap_represents.
  - cbn. lia.
Defined.

(** ** The passes in sequence *)

Lemma redex_true left op right :
  redex left op right = true ↔
    is_literal left = true ∧ is_literal right = true ∧ folds op = true.
Proof. unfold redex. destruct left, right; cbn; naive_solver. Qed.

Lemma is_Constant_literal n node : is_Constant n node = true → is_literal node = true.
Proof. by destruct node. Qed.

Lemma operator_eqb_eq a b : operator_eqb a b = true → a = b.
Proof. by destruct a, b. Qed.

(** Strength reduction of a folded [BinOp] makes no new redex. *)
Lemma StrengthReducer_visit_BinOp_folded l op r l' r' :
  redex l op r = false →
  normal ConstantFolder l' = true → normal ConstantFolder r' = true →
  (is_literal l' = true → is_literal l = true) →
  (is_literal r' = true → is_literal r = true) →
  normal ConstantFolder (StrengthReducer_visit_BinOp l' op r') = true
  ∧ is_literal (StrengthReducer_visit_BinOp l' op r') = false.
Proof.
  intros Hredex Hl Hr Hll Hlr.
  assert (∀ op', op = op' → folds op' = true →
            is_literal l' = true → is_literal r' = true → False) as Hno.
  { intros op' <- Hf Hl' Hr'.
    assert (redex l op r = true) as Hyes by (apply redex_true; auto).
    congruence. }
  assert (∀ e, is_literal e = true ∨ is_literal e = false) as Hdec
    by (intros e; destruct (is_literal e); auto).
  unfold StrengthReducer_visit_BinOp.
  repeat case_match;
    repeat match goal with
    | H : _ && _ = true |- _ => apply andb_prop in H as [? ?]
    | H : operator_eqb _ _ = true |- _ => apply operator_eqb_eq in H
    | H : is_Constant _ _ = true |- _ => apply is_Constant_literal in H
    end.
  - split; [|done]. cbn. rewrite Hl. by destruct l'.
  - split; [done|]. destruct (Hdec r') as [Hlit|]; [|done].
    by destruct (Hno Add).
  - split; [done|]. destruct (Hdec l') as [Hlit|]; [|done].
    by destruct (Hno Add).
  - split; [done|]. destruct (Hdec r') as [Hlit|]; [|done].
    by destruct (Hno Mult).
  - split; [done|]. destruct (Hdec l') as [Hlit|]; [|done].
    by destruct (Hno Mult).
  - done.
  - split; [|done]. cbn. rewrite Hl, Hr. cbn.
    destruct (redex l' op r') eqn:Hnew; [|done].
    apply redex_true in Hnew as (? & ? & ?). by destruct (Hno op).
Qed.

Lemma StrengthReducer_visit_expr_folded node :
  normal ConstantFolder node = true →
  ∃ node', visit_expr StrengthReducer node = OK node'
    ∧ normal ConstantFolder node' = true
    ∧ (is_literal node' = true → is_literal node = true).
Proof.
  induction node as [l op r IHl IHr|op e IH|l ops cs IHl IHcs
    |f args IHf IHargs|v a c IH|v|id c] using expr_ind; cbn [normal];
    intros H.
  - apply andb_prop in H as [H Hredex]. apply andb_prop in H as [Hl Hr].
    destruct (IHl Hl) as (l' & Hvl & Hl' & Hll), (IHr Hr) as (r' & Hvr & Hr' & Hlr).
    exists (StrengthReducer_visit_BinOp l' op r'). cbn. rewrite Hvl, Hvr.
    split; [done|].
    destruct (StrengthReducer_visit_BinOp_folded l op r l' r') as [Hn Hlit];
      try done.
    + cbn in Hredex. by destruct (redex l op r).
    + split; [done|]. by rewrite Hlit.
  - destruct (IH H) as (e' & Hv & He' & _). exists (UnaryOp op e').
    cbn. by rewrite Hv.
  - apply andb_prop in H as [Hl Hcs].
    destruct (IHl Hl) as (l' & Hvl & Hl' & _).
    destruct (mapM_all (visit_expr StrengthReducer) (normal ConstantFolder)
                (normal ConstantFolder) cs) as (cs' & Hvcs & Hcs'); [|done|].
    { eapply Forall_impl; [exact IHcs|]. intros e He H'.
      destruct (He H') as (e' & ? & ? & _). eauto. }
    exists (Compare l' ops cs'). cbn. rewrite Hvl, bind_OK, Hvcs.
    cbn. by rewrite Hl', Hcs'.
  - apply andb_prop in H as [Hf Hargs].
    destruct (IHf Hf) as (f' & Hvf & Hf' & _).
    destruct (mapM_all (visit_expr StrengthReducer) (normal ConstantFolder)
                (normal ConstantFolder) args) as (args' & Hvargs & Hargs');
      [|done|].
    { eapply Forall_impl; [exact IHargs|]. intros e He H'.
      destruct (He H') as (e' & ? & ? & _). eauto. }
    exists (Call f' args'). cbn. rewrite Hvf, bind_OK, Hvargs.
    cbn. by rewrite Hf', Hargs'.
  - destruct (IH H) as (v' & Hv & Hv' & _). exists (Attribute v' a c).
    cbn. by rewrite Hv.
  - by exists (Constant v).
  - by exists (Name id c).
Qed.

(** A pass that leaves expressions alone keeps the normal forms of the
    passes over expressions. *)
Lemma keeps_normal self other tree tree' :
  self = ConstantFolder ∨ self = StrengthReducer →
  (∀ e, normal self e = true →
     ∃ e', visit_expr other e = OK e' ∧ normal self e' = true) →
  normal_module self tree = true → visit other tree = OK tree' →
  normal_module self tree' = true.
Proof.
  intros Hself Hother. destruct tree as [body].
  rewrite normal_module_all_exprs by done. intros Hbody.
  destruct (visit_all other _ _ body Hother Hbody) as (body' & -> & Hbody').
  intros [= <-]. by rewrite normal_module_all_exprs.
Qed.

(** X11.  Constant folding, then strength reduction, then dead-branch
    elimination: each of the three passes returns the result unchanged
    (strength reduction of a folded tree makes no new [BinOp] of two
    constants, and dead-branch elimination changes no expression).  The
    order matters: folding [y = x + (1 - 1)] after strength reduction leaves
    [x + 0], which strength reduction rewrites. *)
Theorem pipeline_fixed_point :
  (∀ tree folded reduced pruned,
     visit ConstantFolder tree = OK folded →
     visit StrengthReducer folded = OK reduced →
     visit DeadBranchEliminator reduced = OK pruned →
     visit ConstantFolder pruned = OK pruned
     ∧ visit StrengthReducer pruned = OK pruned
     ∧ visit DeadBranchEliminator pruned = OK pruned)
  ∧ ∃ reduced folded again,
      visit StrengthReducer order_code = OK reduced
      ∧ visit ConstantFolder reduced = OK folded
      ∧ visit StrengthReducer folded = OK again
      ∧ again ≠ folded.
Proof.
  split.
  - intros tree t1 t2 t3 H1%visit_normal H2 H3.
    assert (∀ self e, normal self e = true →
              ∃ e', visit_expr DeadBranchEliminator e = OK e'
                ∧ normal self e' = true) as Hdbe
      by (intros self e He; exists e; by rewrite DeadBranchEliminator_visit_expr).
    assert (normal_module ConstantFolder t2 = true) as Hcf2.
    { apply (keeps_normal _ StrengthReducer t1 t2); auto.
      intros e He.
      destruct (StrengthReducer_visit_expr_folded e He) as (e' & ? & ? & _).
      eauto. }
    apply visit_normal in H2.
    split_and!; apply normal_visit.
    + apply (keeps_normal _ DeadBranchEliminator t2 t3); auto.
    + apply (keeps_normal _ DeadBranchEliminator t2 t3); auto.
    + by eapply visit_normal.
  - do 3 eexists. split_and!; [reflexivity..|discriminate].
Qed.

Lemma pipeline_fixed_point_witness :
  ∃ folded reduced pruned,
    visit ConstantFolder cf_code = OK folded
    ∧ visit StrengthReducer folded = OK reduced
    ∧ visit DeadBranchEliminator reduced = OK pruned
    ∧ visit ConstantFolder pruned = OK pruned
    ∧ visit StrengthReducer pruned = OK pruned
    ∧ visit DeadBranchEliminator pruned = OK pruned.
Proof.
  do 3 eexists. split; [reflexivity|]. split; [reflexivity|].
  split; [reflexivity|].
  eapply (proj1 pipeline_fixed_point cf_code); reflexivity.
Defined.

(** ** Strength reduction of operands that are not integers *)

(** X12.  The rules of strength reduction are applied whatever the type of
    the operand.  For a variable bound to a string, [x + 0] raises
    [TypeError] and is rewritten to [x]; for one bound to a bool, [x * 1] is
    the int [0] or [1] and is rewritten to [x], the bool itself; for one
    bound to the float [0.0], [0 - x] is [0.0] and is rewritten to [-x],
    which is [-0.0]. *)
Theorem strength_reduction_beyond_ints (env : gmap string constant) (x : string) :
  (∀ s, env !! x = Some (CStr s) →
     visit_expr StrengthReducer (BinOp (Name x Load) Add (num 0)) =
       OK (Name x Load)
     ∧ eval env (BinOp (Name x Load) Add (num 0)) = Raise TypeError
     ∧ eval env (Name x Load) = OK (CStr s))
  ∧ (∀ b, env !! x = Some (CBool b) →
     visit_expr StrengthReducer (BinOp (Name x Load) Mult (num 1)) =
       OK (Name x Load)
     ∧ eval env (BinOp (Name x Load) Mult (num 1)) = OK (CInt (Z.b2z b))
     ∧ eval env (Name x Load) = OK (CBool b))
  ∧ (env !! x = Some (CFloat (S754_zero false)) →
     visit_expr StrengthReducer (BinOp (num 0) Sub (Name x Load)) =
       OK (UnaryOp USub (Name x Load))
     ∧ eval env (BinOp (num 0) Sub (Name x Load)) = OK (CFloat (S754_zero false))
     ∧ eval env (UnaryOp USub (Name x Load)) = OK (CFloat (S754_zero true))).
Proof.
  split_and!.
  - intros s Hx. cbn. by rewrite Hx.
  - intros b Hx. cbn. rewrite Hx. cbn. split_and!; try done.
    by destruct b.
  - intros Hx. cbn. by rewrite Hx.
Qed.

Lemma strength_reduction_beyond_ints_witness :
  visit_expr StrengthReducer (BinOp (Name "x" Load) Add (num 0)) =
    OK (Name "x" Load)
  ∧ eval {["x" := CStr "a"]} (BinOp (Name "x" Load) Add (num 0)) = Raise TypeError
  ∧ eval {["x" := CStr "a"]} (Name "x" Load) = OK (CStr "a").
Proof.
  apply (proj1 (strength_reduction_beyond_ints {["x" := CStr "a"]} "x") "a").
  reflexivity.
Defined.

(** ** Bodies left empty *)

(** X13.  A pass can leave a function with an empty body: dead-branch
    elimination when the body is an [If] with a falsy constant test and no
    [else], [FunctionEliminator] when the body is a nested function it
    deletes. *)
Theorem pass_can_empty_a_body :
  (∀ name condition body, truthy condition = false →
     visit_stmt DeadBranchEliminator
       (FunctionDef name [If (Constant condition) body []]) =
       OK [FunctionDef name []])
  ∧ (∀ fns outer inner body, outer ∉ fns → inner ∈ fns →
       visit_stmt (FunctionEliminator fns)
         (FunctionDef outer [FunctionDef inner body]) =
         OK [FunctionDef outer []]).
Proof.
  split.
  - intros name condition body Hc. cbn.
    destruct (visit_stmts_total DeadBranchEliminator body) as [body' Hbody];
      [done|].
    unfold visit_stmts in Hbody. rewrite Hbody. cbn. by rewrite Hc.
  - intros fns outer inner body Houter Hinner. cbn.
    rewrite bool_decide_eq_false_2 by done.
    by rewrite bool_decide_eq_true_2 by done.
Qed.

Lemma pass_can_empty_a_body_witness :
  visit_stmt DeadBranchEliminator
    (FunctionDef "f" [If (Constant (CBool false)) [call "g"] []]) =
    OK [FunctionDef "f" []].
Proof. apply (proj1 pass_can_empty_a_body). reflexivity. Defined.

(** ** The passes over statements only remove calls *)

Lemma visit_list_elem_of {A} (f : A → result (list A)) (l l' : list A) x :
  visit_list f l = OK l' → x ∈ l' →
  ∃ y out, y ∈ l ∧ f y = OK out ∧ x ∈ out.
Proof.
  revert l'. induction l as [|y l IH]; intros l'.
  - intros [= <-] ?%elem_of_nil. done.
  - rewrite visit_list_cons.
    destruct (f y) as [out|] eqn:Hy; [|done]. rewrite bind_OK.
    destruct (visit_list f l) as [k|]; [|done]. rewrite bind_OK.
    intros [= <-] [Hx|Hx]%elem_of_app.
    + exists y, out. split; [left|done].
    + destruct (IH k eq_refl Hx) as (z & out' & ? & ? & ?).
      exists z, out'. split; [by right|done].
Qed.

Section statement_pass.
Context (self : transformer).
Hypothesis Hexpr : ∀ e, visit_expr self e = OK e.

Lemma statement_pass_exprs (l : list expr) : mapM (visit_expr self) l = OK l.
Proof. apply mapM_OK_id, Forall_forall. auto. Qed.

(** What the statements of the output add to the graph, the statements
    they come from add too. *)
Lemma statement_pass_list c (l l' : list stmt) G :
  Forall (λ s, ∀ out s' c, visit_stmt self s = OK out → s' ∈ out →
    edges (DeadFunctionIdentifier_visit_stmt c s' empty_graph) ⊆
      edges (DeadFunctionIdentifier_visit_stmt c s empty_graph)
    ∧ (∀ n, n ∈ FunctionDef_names s' → n ∈ FunctionDef_names s)) l →
  visit_list (visit_stmt self) l = OK l' →
  (∀ e, e ∈ edges (fold_left (λ g s, DeadFunctionIdentifier_visit_stmt c s g) l' G) →
        e ∈ edges (fold_left (λ g s, DeadFunctionIdentifier_visit_stmt c s g) l G))
  ∧ (∀ n, n ∈ flat_map FunctionDef_names l' → n ∈ flat_map FunctionDef_names l).
Proof.
  intros Hl Hv. rewrite Forall_forall in Hl. split.
  - intros e.
    rewrite !elem_of_edges_fold
      by (intros; apply DeadFunctionIdentifier_visit_stmt_union).
    intros [?|(x & Hx & He)]; [by left|right].
    destruct (visit_list_elem_of _ _ _ _ Hv Hx) as (y & out & Hy & Hout & Hxo).
    exists y. split; [done|]. by apply (Hl y Hy out x c Hout Hxo).
  - intros n (x & Hn & Hx)%elem_of_flat_map.
    destruct (visit_list_elem_of _ _ _ _ Hv Hx) as (y & out & Hy & Hout & Hxo).
    apply elem_of_flat_map. exists y. split; [|done].
    by apply (Hl y Hy out x c Hout Hxo).
Qed.

Lemma statement_pass_stmt node out s' current_fn :
  visit_stmt self node = OK out → s' ∈ out →
  edges (DeadFunctionIdentifier_visit_stmt current_fn s' empty_graph) ⊆
    edges (DeadFunctionIdentifier_visit_stmt current_fn node empty_graph)
  ∧ (∀ n, n ∈ FunctionDef_names s' → n ∈ FunctionDef_names node).
Proof.
  revert out s' current_fn.
  induction node as [name body IH|v|ts v|t body orelse IHb IHo|v]
    using stmt_ind; intros out s' current_fn; cbn [visit_stmt].
  - destruct (drops_FunctionDef self name); [by intros [= <-] ?%elem_of_nil|].
    destruct (visit_list _ body) as [body'|] eqn:Hbody; [|done]. rewrite bind_OK.
    intros [= <-] ->%list_elem_of_singleton.
    destruct (statement_pass_list (InFunctionDef name) body body'
                (add_node name empty_graph) IH Hbody) as [He Hn].
    split; [intros e; apply He|].
    cbn. intros n [->|H]%elem_of_cons; [left|right; auto].
  - destruct v as [v|]; [rewrite Hexpr, bind_OK|];
      by intros [= <-] ->%list_elem_of_singleton.
  - rewrite statement_pass_exprs, bind_OK, Hexpr, bind_OK.
    by intros [= <-] ->%list_elem_of_singleton.
  - rewrite Hexpr, bind_OK.
    destruct (visit_list _ body) as [body'|] eqn:Hbody; [|done]. rewrite bind_OK.
    destruct (visit_list _ orelse) as [orelse'|] eqn:Horelse; [|done].
    rewrite bind_OK. intros [= <-] Hs'.
    assert (∀ x out, x ∈ body → visit_stmt self x = OK out → s' ∈ out →
      edges (DeadFunctionIdentifier_visit_stmt current_fn s' empty_graph) ⊆
        edges (DeadFunctionIdentifier_visit_stmt current_fn (If t body orelse) empty_graph)
      ∧ (∀ n, n ∈ FunctionDef_names s' → n ∈ FunctionDef_names (If t body orelse)))
      as Hbody_in.
    { intros x out Hx Hout Hso. rewrite Forall_forall in IHb.
      destruct (IHb x Hx out s' current_fn Hout Hso) as [He Hn]. split.
      - intros e Hin%He. cbn.
        apply elem_of_edges_fold;
          [intros; apply DeadFunctionIdentifier_visit_stmt_union|left].
        apply elem_of_edges_fold;
          [intros; apply DeadFunctionIdentifier_visit_stmt_union|eauto].
      - intros n Hin%Hn. cbn. apply elem_of_app. left.
        apply elem_of_flat_map. eauto. }
    assert (∀ x out, x ∈ orelse → visit_stmt self x = OK out → s' ∈ out →
      edges (DeadFunctionIdentifier_visit_stmt current_fn s' empty_graph) ⊆
        edges (DeadFunctionIdentifier_visit_stmt current_fn (If t body orelse) empty_graph)
      ∧ (∀ n, n ∈ FunctionDef_names s' → n ∈ FunctionDef_names (If t body orelse)))
      as Horelse_in.
    { intros x out Hx Hout Hso. rewrite Forall_forall in IHo.
      destruct (IHo x Hx out s' current_fn Hout Hso) as [He Hn]. split.
      - intros e Hin%He. cbn.
        apply elem_of_edges_fold;
          [intros; apply DeadFunctionIdentifier_visit_stmt_union|eauto].
      - intros n Hin%Hn. cbn. apply elem_of_app. right.
        apply elem_of_flat_map. eauto. }
    assert (s' = If t body' orelse' →
      edges (DeadFunctionIdentifier_visit_stmt current_fn s' empty_graph) ⊆
        edges (DeadFunctionIdentifier_visit_stmt current_fn (If t body orelse) empty_graph)
      ∧ (∀ n, n ∈ FunctionDef_names s' → n ∈ FunctionDef_names (If t body orelse)))
      as Hsame.
    { intros ->. cbn [DeadFunctionIdentifier_visit_stmt FunctionDef_names].
      split.
      - intros e He.
        destruct (statement_pass_list current_fn orelse orelse'
          (fold_left (λ g s, DeadFunctionIdentifier_visit_stmt current_fn s g) body'
             (DeadFunctionIdentifier_visit_expr current_fn t empty_graph))
          IHo Horelse) as [Ho _].
        apply Ho in He. revert He.
        rewrite !(elem_of_edges_fold _ orelse)
          by (intros; apply DeadFunctionIdentifier_visit_stmt_union).
        intros [He|He]; [left|by right].
        by apply (statement_pass_list current_fn body body' _ IHb Hbody).
      - intros n [Hn|Hn]%elem_of_app; apply elem_of_app; [left|right].
        + by apply (statement_pass_list current_fn body body' empty_graph IHb Hbody).
        + by apply (statement_pass_list current_fn orelse orelse' empty_graph IHo Horelse). }
    destruct self; cbn in Hs';
      try (apply list_elem_of_singleton in Hs'; by apply Hsame).
    destruct t as [| | | | |condition|]; cbn in Hs';
      try (apply list_elem_of_singleton in Hs'; by apply Hsame).
    destruct (truthy condition).
    + destruct (visit_list_elem_of _ _ _ _ Hbody Hs') as (x & out & ? & ? & ?).
      by apply (Hbody_in x out).
    + destruct (visit_list_elem_of _ _ _ _ Horelse Hs') as (x & out & ? & ? & ?).
      by apply (Horelse_in x out).
  - rewrite Hexpr, bind_OK. by intros [= <-] ->%list_elem_of_singleton.
Qed.

Lemma statement_pass_calls tree tree' a b :
  visit self tree = OK tree' → calls tree' a b → calls tree a b.
Proof.
  destruct tree as [body], tree' as [body']. cbn [visit].
  destruct (visit_stmts self body) as [out|] eqn:Hout; [|done].
  rewrite bind_OK. intros [= <-]. unfold calls.
  rewrite !elem_of_edges_call_graph. intros (s' & Hs' & He).
  destruct (visit_list_elem_of _ _ _ _ Hout Hs') as (s & o & Hs & Ho & Hso).
  exists s. split; [done|].
  by apply (statement_pass_stmt s o s' AtStart Ho Hso).
Qed.

Lemma statement_pass_defined tree tree' n :
  visit self tree = OK tree' → n ∈ defined tree' → n ∈ defined tree.
Proof.
  destruct tree as [body], tree' as [body']. cbn [visit].
  destruct (visit_stmts self body) as [out|] eqn:Hout; [|done].
  rewrite bind_OK. intros [= <-]. cbn.
  rewrite !elem_of_flat_map. intros (s' & Hn & Hs').
  destruct (visit_list_elem_of _ _ _ _ Hout Hs') as (s & o & Hs & Ho & Hso).
  exists s. split; [|done].
  by apply (statement_pass_stmt s o s' AtStart Ho Hso).
Qed.

End statement_pass.

(** X14.  Dead-branch elimination and [FunctionEliminator] add no call and
    no definition to the call graph [DeadFunctionIdentifier] builds, so a
    function of their output that [get_unreachable] returned for the input is
    returned for the output too.  Strength reduction can add a call: it
    rewrites the callee [0 + g] to the name [g]. *)
Theorem statement_passes_only_remove_calls :
  (∀ self tree tree',
     self ≠ ConstantFolder → self ≠ StrengthReducer →
     visit self tree = OK tree' →
     (∀ a b, calls tree' a b → calls tree a b)
     ∧ (∀ n, n ∈ defined tree' → n ∈ defined tree)
     ∧ (∀ n, n ∈ defined tree' → n ∈ get_unreachable tree →
          n ∈ get_unreachable tree'))
  ∧ ∃ tree', visit StrengthReducer indirect_call_code = OK tree'
      ∧ calls tree' "start" "g"
      ∧ ¬ calls indirect_call_code "start" "g".
Proof.
  split.
  - intros self tree tree' Hcf Hsr Hv.
    assert (∀ e, visit_expr self e = OK e) as Hexpr.
    { destruct self; try done; intros e.
      - apply DeadBranchEliminator_visit_expr.
      - apply FunctionEliminator_visit_expr. }
    assert (∀ a b, calls tree' a b → calls tree a b) as Hcalls
      by (intros a b; by eapply statement_pass_calls).
    split_and!; [done| |].
    + intros n. by eapply statement_pass_defined.
    + intros n Hn [_ Hr]%elem_of_get_unreachable.
      apply defined_unreachable; [done|]. intros Hr'. apply Hr.
      eapply rtc_subrel; [|exact Hr']. exact Hcalls.
  - eexists. split; [reflexivity|]. split.
    + unfold calls. apply (bool_decide_unpack _). vm_compute. reflexivity.
    + unfold calls. intros Hc%elem_of_elements. vm_compute in Hc.
      by apply elem_of_nil in Hc.
Qed.

Lemma statement_passes_only_remove_calls_witness :
  ∃ tree', visit DeadBranchEliminator guarded_call_code = OK tree'
    ∧ (∀ a b, calls tree' a b → calls guarded_call_code a b)
    ∧ (∀ n, n ∈ defined tree' → n ∈ defined guarded_call_code).
Proof.
  eexists. split; [reflexivity|].
  destruct (proj1 statement_passes_only_remove_calls DeadBranchEliminator
              guarded_call_code (PyModule [FunctionDef "f" [Return None]]))
    as (Hcalls & Hdefined & _); [discriminate|discriminate|reflexivity|].
  split; [exact Hcalls|exact Hdefined].
Defined.

(** ** A tree with nothing to rewrite is left as it is in the heap *)

Lemma load_Done (h : list object) l obj : h !! l = Some obj → load l h = Done h obj.
Proof. intros H. unfold load. by rewrite H. Qed.

Lemma store_same (h : list object) l obj :
  h !! l = Some obj → store l obj h = Done h ().
Proof. intros H. unfold store. by rewrite H, list_insert_id. Qed.

Lemma node_field_same (visit : nat → M value) (h : list object) l :
  visit l h = Done h (VNode l) → node_field visit l h = Done h l.
Proof. intros H. unfold node_field. by rewrite (bind_Done _ _ _ _ _ H). Qed.

Lemma list_field_same {A} (R : A → nat → gset nat → Prop) (visit : nat → M value)
    (h : list object) (xs : list A) ls F :
  represents_list R xs ls F →
  Forall (λ x, ∀ l F, R x l F → visit l h = Done h (VNode l)) xs →
  list_field visit ls h = Done h ls.
Proof.
  intros Hrep Hxs. revert ls F Hrep.
  induction Hxs as [|x xs Hx _ IH]; intros [|l ls] F; cbn; try done.
  intros (F1 & F2 & Hl & Hls & _).
  rewrite (bind_Done _ _ _ _ _ (Hx l F1 Hl)).
  by rewrite (bind_Done _ _ _ _ _ (IH ls F2 Hls)).
Qed.

Lemma store_visit_BinOp_same self (h : list object) l a b op x y Fa Fb :
  represents_expr h x a Fa → represents_expr h y b Fb →
  rewrites_BinOp self x op y = false →
  store_visit_BinOp self l a op b h = Done h (VNode l).
Proof.
  intros Hx Hy Hrw. destruct self; try done; cbn in Hrw |- *.
  - destruct (represents_expr_object h x a Fa 0%Z Hx) as (objl & Hl & _ & Hshape_l).
    destruct (represents_expr_object h y b Fb 0%Z Hy) as (objr & Hr & _ & Hshape_r).
    rewrite (store_ConstantFolder_visit_BinOp_redex _ _ _ _ _ _ _ Hl Hr).
    unfold redex in Hrw.
    destruct objl as [| | | | |lv| | | | | | |];
      try done; destruct x; try done; try by destruct (Hshape_l lv).
    destruct objr as [| | | | |rv| | | | | | |];
      try done; destruct y; try done; try by destruct (Hshape_r rv).
    by rewrite Hrw.
  - destruct (represents_expr_object h x a Fa 0%Z Hx) as (objl & Hl & Hl0 & _).
    destruct (represents_expr_object h x a Fa 1%Z Hx) as (objl' & Hl' & Hl1 & _).
    destruct (represents_expr_object h y b Fb 0%Z Hy) as (objr & Hr & Hr0 & _).
    destruct (represents_expr_object h y b Fb 1%Z Hy) as (objr1 & Hr1' & Hr1 & _).
    destruct (represents_expr_object h y b Fb 2%Z Hy) as (objr2 & Hr2' & Hr2 & _).
    assert (objl' = objl) as -> by congruence.
    assert (objr1 = objr) as -> by congruence.
    assert (objr2 = objr) as -> by congruence.
    rewrite (store_StrengthReducer_visit_BinOp_loaded _ _ _ _ _ _ _ Hl Hr).
    rewrite Hl0, Hl1, Hr0, Hr1, Hr2. unfold reducible in Hrw.
    destruct (operator_eqb op Mod), (is_Constant 2 y),
      (operator_eqb op Add), (is_Constant 0 x), (is_Constant 0 y),
      (operator_eqb op Mult), (is_Constant 1 x), (is_Constant 1 y),
      (operator_eqb op Sub); done.
Qed.

Lemma store_visit_If_same self (h : list object) l a bs cs t Fa :
  represents_expr h t a Fa → rewrites_If self t = false →
  store_visit_If self l a bs cs h = Done h (VNode l).
Proof.
  intros Ht Hrw. destruct self; try done. cbn.
  destruct (represents_expr_object h t a Fa 0%Z Ht) as (obj & Hl & _ & Hshape).
  unfold store_DeadBranchEliminator_visit_If.
  rewrite (bind_Done _ _ _ _ _ (load_Done _ _ _ Hl)).
  destruct t as [| | | | |condition|]; try done;
    destruct obj as [| | | | |v| | | | | | |]; try done; by destruct (Hshape v).
Qed.

Ltac same H := rewrite (bind_Done _ _ _ _ _ H).

Lemma store_visit_expr_same self (h : list object) node :
  ∀ fuel l F, height node ≤ fuel → represents_expr h node l F →
    normal self node = true →
    store_visit self fuel l h = Done h (VNode l).
Proof.
  induction node as [x op y IHx IHy|op e IH|x ops cs IHx IHcs
    |f args IHf IHargs|v a c IH|v|id c] using expr_ind;
    intros [|fuel] l F Hfuel; cbn in Hfuel; try lia;
    cbn [represents_expr normal store_visit].
  - intros (a & b & Fa & Fb & Hl & Hx & Hy & _) Hn.
    apply andb_prop in Hn as [Hn Hrw]. apply andb_prop in Hn as [Hnx Hny].
    same (load_Done _ _ _ Hl).
    same (node_field_same _ _ _ (IHx fuel a Fa ltac:(lia) Hx Hnx)).
    same (store_same _ _ _ Hl).
    same (node_field_same _ _ _ (IHy fuel b Fb ltac:(lia) Hy Hny)).
    same (store_same _ _ _ Hl).
    apply (store_visit_BinOp_same self h l a b op x y Fa Fb); [done..|].
    by destruct (rewrites_BinOp self x op y).
  - intros (a & Fa & Hl & He & _) Hn.
    same (load_Done _ _ _ Hl).
    same (node_field_same _ _ _ (IH fuel a Fa ltac:(lia) He Hn)).
    by same (store_same _ _ _ Hl).
  - intros (a & bs & Fa & Fb & Hl & Hx & Hcs & _) Hn.
    apply andb_prop in Hn as [Hnx Hncs]. apply forallb_Forall_true in Hncs.
    same (load_Done _ _ _ Hl).
    same (node_field_same _ _ _ (IHx fuel a Fa ltac:(lia) Hx Hnx)).
    same (store_same _ _ _ Hl).
    rewrite (bind_Done _ _ h h bs).
    + by same (store_same _ _ _ Hl).
    + eapply list_field_same; [exact Hcs|].
      assert (Forall (λ e, height e ≤ fuel) cs) as Hh
        by (apply heights_Forall; lia).
      rewrite Forall_forall in IHcs, Hncs, Hh |- *.
      intros e He l' F' Hrep. apply (IHcs e He fuel l' F'); auto.
  - intros (a & bs & Fa & Fb & Hl & Hf & Hargs & _) Hn.
    apply andb_prop in Hn as [Hnf Hnargs]. apply forallb_Forall_true in Hnargs.
    same (load_Done _ _ _ Hl).
    same (node_field_same _ _ _ (IHf fuel a Fa ltac:(lia) Hf Hnf)).
    same (store_same _ _ _ Hl).
    rewrite (bind_Done _ _ h h bs).
    + by same (store_same _ _ _ Hl).
    + eapply list_field_same; [exact Hargs|].
      assert (Forall (λ e, height e ≤ fuel) args) as Hh
        by (apply heights_Forall; lia).
      rewrite Forall_forall in IHargs, Hnargs, Hh |- *.
      intros e He l' F' Hrep. apply (IHargs e He fuel l' F'); auto.
  - intros (b & Fb & Hl & Hv & _) Hn.
    same (load_Done _ _ _ Hl).
    same (node_field_same _ _ _ (IH fuel b Fb ltac:(lia) Hv Hn)).
    by same (store_same _ _ _ Hl).
  - intros [Hl _] _. by same (load_Done _ _ _ Hl).
  - intros [Hl _] _. by same (load_Done _ _ _ Hl).
Qed.

Lemma store_visit_exprs_same self (h : list object) fuel (xs : list expr) ls F :
  foldr Nat.max 0 (map height xs) ≤ fuel →
  represents_list (represents_expr h) xs ls F →
  forallb (normal self) xs = true →
  list_field (store_visit self fuel) ls h = Done h ls.
Proof.
  intros Hh%heights_Forall Hrep Hn%forallb_Forall_true.
  eapply list_field_same; [exact Hrep|].
  rewrite Forall_forall in Hh, Hn |- *. intros e He l F' Hl.
  apply (store_visit_expr_same self h e fuel l F'); auto.
Qed.

Lemma store_visit_stmt_same self (h : list object) node :
  ∀ fuel l F, height_stmt node ≤ fuel → represents_stmt h node l F →
    normal_stmt self node = true →
    store_visit self fuel l h = Done h (VNode l).
Proof.
  induction node as [name body IH|v|ts v|t body orelse IHb IHo|v]
    using stmt_ind; intros [|fuel] l F Hfuel; cbn in Hfuel; try lia;
    cbn [represents_stmt normal_stmt store_visit].
  - intros (bs & Fb & Hl & Hbody & _) Hn.
    apply andb_prop in Hn as [Hdrop Hn]. apply forallb_Forall_true in Hn.
    same (load_Done _ _ _ Hl). destruct (drops_FunctionDef self name); [done|].
    rewrite (bind_Done _ _ h h bs).
    + by same (store_same _ _ _ Hl).
    + eapply list_field_same; [exact Hbody|].
      assert (Forall (λ s, height_stmt s ≤ fuel) body) as Hh
        by (apply heights_Forall; lia).
      rewrite Forall_forall in IH, Hn, Hh |- *.
      intros s Hs l' F' Hrep. apply (IH s Hs fuel l' F'); auto.
  - destruct v as [v|]; cbn in Hfuel |- *.
    + intros (a & Fa & Hl & Hv & _) Hn.
      same (load_Done _ _ _ Hl).
      same (node_field_same _ _ _
              (store_visit_expr_same self h v fuel a Fa ltac:(lia) Hv Hn)).
      by same (store_same _ _ _ Hl).
    + intros [Hl _] _. by same (load_Done _ _ _ Hl).
  - intros (bs & a & Fb & Fa & Hl & Hts & Hv & _) Hn.
    apply andb_prop in Hn as [Hnts Hnv].
    same (load_Done _ _ _ Hl).
    same (store_visit_exprs_same self h fuel ts bs Fb ltac:(lia) Hts Hnts).
    same (store_same _ _ _ Hl).
    same (node_field_same _ _ _
            (store_visit_expr_same self h v fuel a Fa ltac:(lia) Hv Hnv)).
    by same (store_same _ _ _ Hl).
  - intros (a & bs & cs & Fa & Fb & Fc & Hl & Ht & Hbody & Horelse & _) Hn.
    apply andb_prop in Hn as [Hn Hno]. apply andb_prop in Hn as [Hn Hnb].
    apply andb_prop in Hn as [Hnt Hrw].
    apply forallb_Forall_true in Hnb, Hno.
    same (load_Done _ _ _ Hl).
    same (node_field_same _ _ _
            (store_visit_expr_same self h t fuel a Fa ltac:(lia) Ht Hnt)).
    same (store_same _ _ _ Hl).
    rewrite (bind_Done _ _ h h bs).
    + same (store_same _ _ _ Hl).
      rewrite (bind_Done _ _ h h cs).
      * same (store_same _ _ _ Hl).
        apply (store_visit_If_same self h l a bs cs t Fa); [done|].
        by destruct (rewrites_If self t).
      * eapply list_field_same; [exact Horelse|].
        assert (Forall (λ s, height_stmt s ≤ fuel) orelse) as Hh
          by (apply heights_Forall; lia).
        rewrite Forall_forall in IHo, Hno, Hh |- *.
        intros s Hs l' F' Hrep. apply (IHo s Hs fuel l' F'); auto.
    + eapply list_field_same; [exact Hbody|].
      assert (Forall (λ s, height_stmt s ≤ fuel) body) as Hh
        by (apply heights_Forall; lia).
      rewrite Forall_forall in IHb, Hnb, Hh |- *.
      intros s Hs l' F' Hrep. apply (IHb s Hs fuel l' F'); auto.
  - intros (a & Fa & Hl & Hv & _) Hn.
    same (load_Done _ _ _ Hl).
    same (node_field_same _ _ _
            (store_visit_expr_same self h v fuel a Fa ltac:(lia) Hv Hn)).
    by same (store_same _ _ _ Hl).
Qed.

(** X15.  A tree in which the pass has nothing to rewrite is left exactly as
    it is: the pass returns the [Module] object it was given and the heap is
    the heap it started in, no object assigned a different value and none
    created. *)
Theorem normal_tree_untouched (self : transformer) (tree : py_module)
    (h : list object) (root : nat) (F : gset nat) (fuel : nat) :
  represents h tree root F → normal_module self tree = true →
  height_module tree ≤ fuel →
  store_visit self fuel root h = Done h (VNode root).
Proof.
  destruct tree as [body], fuel as [|fuel]; cbn; [lia|].
  intros (bs & Fb & Hl & Hbody & _) Hn%forallb_Forall_true Hfuel.
  same (load_Done _ _ _ Hl).
  rewrite (bind_Done _ _ h h bs).
  - by same (store_same _ _ _ Hl).
  - eapply list_field_same; [exact Hbody|].
    assert (Forall (λ s, height_stmt s ≤ fuel) body) as Hh
      by (apply heights_Forall; lia).
    rewrite Forall_forall in Hn, Hh |- *.
    intros s Hs l' F' Hrep.
    apply (store_visit_stmt_same self h s fuel l' F'); auto.
Qed.

Lemma normal_tree_untouched_witness :
  store_visit DeadBranchEliminator 4 0 product_heap = Done product_heap (VNode 0).
Proof.
  apply (normal_tree_untouched DeadBranchEliminator product_code product_heap 0
           product_region 4 product_heap_represents); [reflexivity|].
  cbn. lia.
Defined.
